(** * Simple8b time-series compression: a shallow embedding of simple8b.cpp

    The development follows the C++ source function by function.

    - Integers are [Z] with the wrap-around of their C++ type written out:
      [wrap64] for [uint64_t] / [size_t], [wrap32] for [uint32_t] and
      [swrap64] for [int64_t] (two's complement, as C++20 defines it; right
      shifts of signed values are arithmetic).
    - A caller-owned buffer is a [list Z]; its length is the capacity the
      caller allocated.  Every access goes through [load] / [store], which
      report [OutOfBounds] for an index outside the buffer: this is where the
      C++ program has undefined behaviour.
    - A read-only pointer that only moves forward ([input] of the encoder,
      [in] of the decoder) is the part of its buffer from the pointer to the
      end, so that [p + k] is [drop k p] and [p[i]] is [load p i].  A pointer
      that is written through ([out]) is a buffer and an index into it.
    - [for] loops with a trip count fixed by their header are structural
      fixpoints on that count.  The [while] loops of the encoder and of the
      decoder take fuel, and [OutOfFuel] is a third outcome, distinct from a
      result and from a fault. *)

From Stdlib Require Import ZArith Lia List Bool.
From stdpp Require Import base list relations.

Local Open Scope Z_scope.

(** * Part I: the program *)

(** ** Outcomes of a run *)

Inductive result (A : Type) : Type :=
| Ok (a : A)
| OutOfBounds
| OutOfFuel.

Arguments Ok {A} a.
Arguments OutOfBounds {A}.
Arguments OutOfFuel {A}.

#[global] Instance result_ret : MRet result := fun A a => Ok a.

#[global] Instance result_bind : MBind result := fun A B k m =>
  match m with
  | Ok a => k a
  | OutOfBounds => OutOfBounds
  | OutOfFuel => OutOfFuel
  end.

(** ** Machine integers *)

Definition wrap64 (x : Z) : Z := x mod 2 ^ 64.
Definition wrap32 (x : Z) : Z := x mod 2 ^ 32.
Definition swrap64 (x : Z) : Z := (x + 2 ^ 63) mod 2 ^ 64 - 2 ^ 63.

Definition is_u64 (x : Z) : Prop := 0 <= x < 2 ^ 64.
Definition is_i64 (x : Z) : Prop := - 2 ^ 63 <= x < 2 ^ 63.

(** ** Buffers *)

Definition load (buf : list Z) (i : Z) : result Z :=
  if (0 <=? i) && (i <? Z.of_nat (length buf))
  then match buf !! Z.to_nat i with
       | Some v => Ok v
       | None => OutOfBounds
       end
  else OutOfBounds.

Definition store (buf : list Z) (i : Z) (v : Z) : result (list Z) :=
  if (0 <=? i) && (i <? Z.of_nat (length buf))
  then Ok (<[Z.to_nat i := v]> buf)
  else OutOfBounds.

(** ** Delta transform (simple8b.cpp, DeltaEncode / DeltaDecode, T = int64_t) *)

(** [for (uint64_t i = length - 1; i > 0; i--)]: the counter starts at
    [length - 1] computed in [uint64_t] and the body runs once per value of
    [i] down to 1, that is [i] times. *)
Fixpoint DeltaEncode_loop (n : nat) (i : Z) (input : list Z) : result (list Z) :=
  match n with
  | O => Ok input
  | S n' =>
      a ← load input i;
      b ← load input (i - 1);
      input' ← store input i (swrap64 (a - b));
      DeltaEncode_loop n' (i - 1) input'
  end.

Definition DeltaEncode (input : list Z) (length : Z) : result (list Z) :=
  let i := wrap64 (length - 1) in
  DeltaEncode_loop (Z.to_nat i) i input.

(** [for (uint64_t i = 1; i < length; i++)]: [length - 1] iterations when
    [length >= 1], none otherwise. *)
Fixpoint DeltaDecode_loop (n : nat) (i : Z) (input : list Z) : result (list Z) :=
  match n with
  | O => Ok input
  | S n' =>
      a ← load input i;
      b ← load input (i - 1);
      input' ← store input i (swrap64 (a + b));
      DeltaDecode_loop n' (i + 1) input'
  end.

Definition DeltaDecode (input : list Z) (length : Z) : result (list Z) :=
  DeltaDecode_loop (Z.to_nat (length - 1)) 1 input.

(** ** Zig-zag transform (ZigZagEncode / ZigZagDecode, T = int64_t) *)

(** [(input[i] << 1LL) ^ (input[i] >> shift)] with [shift = 63]. *)
Definition zigzag_enc (x : Z) : Z :=
  Z.lxor (swrap64 (Z.shiftl x 1)) (Z.shiftr x 63).

(** [(input[i] >> 1LL) ^ -(input[i] & 1LL)]. *)
Definition zigzag_dec (y : Z) : Z :=
  Z.lxor (Z.shiftr y 1) (swrap64 (- Z.land y 1)).

(** The loop of both functions:
    [for (uint64_t i = 0; i < length; i++) input[i] = f(input[i]);] *)
Fixpoint map_loop (f : Z -> Z) (n : nat) (i : Z) (input : list Z) : result (list Z) :=
  match n with
  | O => Ok input
  | S n' =>
      x ← load input i;
      input' ← store input i (f x);
      map_loop f n' (i + 1) input'
  end.

Definition ZigZagEncode (input : list Z) (length : Z) : result (list Z) :=
  map_loop zigzag_enc (Z.to_nat length) 0 input.

Definition ZigZagDecode (input : list Z) (length : Z) : result (list Z) :=
  map_loop zigzag_dec (Z.to_nat length) 0 input.

(** ** Simple8b: bit packing helpers *)

Definition SIMPLE8B_SELECTOR_BITS : Z := 4.

(** [out[0] = (out[0] << numBits) | value] (the source writes it through
    [*out]), on the word at index [o] of the buffer [out]. *)
Definition WriteBits (out : list Z) (o : Z) (value numBits : Z) : result (list Z) :=
  x ← load out o;
  store out o (Z.lor (wrap64 (Z.shiftl x numBits)) value).

(** The loop shared by [TryPackFast] and [TryPackCareful]:
    [for (i = 0; i < cnt; i++) if (n[i] >= (1ULL << numBitsPerInt)) return false;
     return true;] *)
Fixpoint TryPack_loop (numBitsPerInt : Z) (n : list Z) (cnt : nat) (i : Z) : result bool :=
  match cnt with
  | O => Ok true
  | S cnt' =>
      v ← load n i;
      if Z.shiftl 1 numBitsPerInt <=? v then Ok false
      else TryPack_loop numBitsPerInt n cnt' (i + 1)
  end.

Definition TryPackFast (numIntegers numBitsPerInt : Z) (n : list Z) : result bool :=
  if 32 <=? numBitsPerInt then Ok true
  else TryPack_loop numBitsPerInt n (Z.to_nat numIntegers) 0.

Definition TryPackCareful (numIntegers numBitsPerInt : Z) (n : list Z) (maxIntegers : Z)
  : result bool :=
  if 32 <=? numBitsPerInt then Ok true
  else
    let minv := if maxIntegers <? numIntegers then maxIntegers else numIntegers in
    TryPack_loop numBitsPerInt n (Z.to_nat minv) 0.

(** [static_cast<uint32_t>(in[0] >> (64 - SIMPLE8B_SELECTOR_BITS))] *)
Definition GetSelectorNum (inp : list Z) : result Z :=
  x ← load inp 0;
  Ok (wrap32 (Z.shiftr x (64 - SIMPLE8B_SELECTOR_BITS))).

(** A [while] loop: the condition is tested first; an iteration that has to
    run without fuel left is [OutOfFuel]. *)
Fixpoint while {S : Type} (cond : S -> bool) (body : S -> result S)
    (fuel : nat) (s : S) : result S :=
  if cond s then
    match fuel with
    | O => OutOfFuel
    | Datatypes.S fuel' => s' ← body s; while cond body fuel' s'
    end
  else Ok s.

(** [IF c THEN a ELSE b]: one link of an [if (...) {...} else ...] chain whose
    test may fault. *)
Notation "'IF' c 'THEN' a 'ELSE' b" :=
  (mbind (fun t : bool => if t then a else b) c)
  (at level 10, c at level 99, a at level 99, b at level 200,
   format "'[v' 'IF'  c  'THEN'  a '/' 'ELSE'  b ']'").

(** ** Simple8bEncode *)

(** The local variables of [Simple8bEncode].  [no_scheme] is a ghost flag: it
    is set by the empty [else] branch that ends each [if] chain (the one
    commented [shouldn't happen]) and by nothing else. *)
Record enc_state : Type := EncState {
  input : list Z;               (* T *input, from the cursor to the end *)
  outbuf : list Z;              (* the caller's output buffer *)
  out : Z;                      (* uint64_t *out, as an index into outbuf *)
  NumberOfValuesCoded : Z;      (* uint32_t *)
  ValuesRemaining : Z;          (* size_t *)
  no_scheme : bool
}.

(** The branches of selectors 0 and 1:
    [NumberOfValuesCoded = cnt; out[0] = word; input += NumberOfValuesCoded;] *)
Definition zero_run (cnt word : Z) (st : enc_state) : result enc_state :=
  outbuf' ← store (outbuf st) (out st) word;
  Ok (EncState (drop (Z.to_nat cnt) (input st)) outbuf' (out st) cnt
        (ValuesRemaining st) (no_scheme st)).

(** [for (i = 0; i < cnt; i++) WriteBits(out, *input++, numBits);] *)
Fixpoint WriteBits_loop (numBits : Z) (cnt : nat) (inp : list Z) (ob : list Z) (o : Z)
  : result (list Z * list Z) :=
  match cnt with
  | O => Ok (inp, ob)
  | S cnt' =>
      v ← load inp 0;
      ob' ← WriteBits ob o v numBits;
      WriteBits_loop numBits cnt' (drop 1 inp) ob' o
  end.

(** The branches of selectors 2 to 15:
    [out[0] = sel; NumberOfValuesCoded = cnt;
     for (i = 0; i < NumberOfValuesCoded; i++) WriteBits(out, *input++, numBits);
     out[0] <<= shift;] *)
Definition pack (sel cnt numBits shift : Z) (st : enc_state) : result enc_state :=
  ob1 ← store (outbuf st) (out st) sel;
  '(inp', ob2) ← WriteBits_loop numBits (Z.to_nat cnt) (input st) ob1 (out st);
  x ← load ob2 (out st);
  ob3 ← store ob2 (out st) (wrap64 (Z.shiftl x shift));
  Ok (EncState inp' ob3 (out st) cnt (ValuesRemaining st) (no_scheme st)).

(** The empty [else] branch. *)
Definition shouldnt_happen (st : enc_state) : result enc_state :=
  Ok (EncState (input st) (outbuf st) (out st) (NumberOfValuesCoded st)
        (ValuesRemaining st) true).

(** [++out; ValuesRemaining -= NumberOfValuesCoded;] *)
Definition next_word (st : enc_state) : enc_state :=
  EncState (input st) (outbuf st) (out st + 1) (NumberOfValuesCoded st)
    (wrap64 (ValuesRemaining st - NumberOfValuesCoded st)) (no_scheme st).

(** Body of [while (ValuesRemaining >= 240)]. *)
Definition fast_body (st : enc_state) : result enc_state :=
  let B := SIMPLE8B_SELECTOR_BITS in
  st' ←
    (IF TryPackFast 120 0 (input st)
     THEN (IF TryPackFast 120 0 (drop 120 (input st))
           THEN zero_run 240 0 st
           ELSE zero_run 120 (Z.shiftl 1 (64 - B)) st)
     ELSE IF TryPackFast 60 1 (input st) THEN pack 2 60 1 (64 - B - 1 * 60) st
     ELSE IF TryPackFast 30 2 (input st) THEN pack 3 30 2 (64 - B - 2 * 30) st
     ELSE IF TryPackFast 20 3 (input st) THEN pack 4 20 3 (64 - B - 3 * 20) st
     ELSE IF TryPackFast 15 4 (input st) THEN pack 5 15 4 (64 - B - 4 * 15) st
     ELSE IF TryPackFast 12 5 (input st) THEN pack 6 12 5 (64 - B - 5 * 12) st
     ELSE IF TryPackFast 10 6 (input st) THEN pack 7 10 6 (64 - B - 6 * 10) st
     ELSE IF TryPackFast 8 7 (input st) THEN pack 8 8 7 (64 - B - 7 * 8) st
     ELSE IF TryPackFast 7 8 (input st) THEN pack 9 7 8 (64 - B - 8 * 7) st
     ELSE IF TryPackFast 6 10 (input st) THEN pack 10 6 10 (64 - B - 10 * 6) st
     ELSE IF TryPackFast 5 12 (input st) THEN pack 11 5 12 (wrap32 (64 - B - 12 * 5)) st
     ELSE IF TryPackFast 4 15 (input st) THEN pack 12 4 15 (64 - B - 15 * 4) st
     ELSE IF TryPackFast 3 20 (input st) THEN pack 13 3 20 (64 - B - 20 * 3) st
     ELSE IF TryPackFast 2 30 (input st) THEN pack 14 2 30 (64 - B - 30 * 2) st
     ELSE IF TryPackFast 1 60 (input st) THEN pack 15 1 60 (64 - B - 60 * 1) st
     ELSE shouldnt_happen st);
  Ok (next_word st').

(** [(ValuesRemaining < cnt) ? static_cast<uint32_t>(ValuesRemaining) : cnt] *)
Definition clamp (ValuesRemaining cnt : Z) : Z :=
  if ValuesRemaining <? cnt then wrap32 ValuesRemaining else cnt.

(** A careful branch of selectors 2 to 15: the count is clamped and the final
    shift [64 - SIMPLE8B_SELECTOR_BITS - numBits * NumberOfValuesCoded] is
    computed in [uint32_t]. *)
Definition pack_careful (sel cnt numBits : Z) (st : enc_state) : result enc_state :=
  let n := clamp (ValuesRemaining st) cnt in
  pack sel n numBits (wrap32 (64 - SIMPLE8B_SELECTOR_BITS - numBits * n)) st.

(** Body of [while (ValuesRemaining > 0)]. *)
Definition careful_body (st : enc_state) : result enc_state :=
  let r := ValuesRemaining st in
  st' ←
    (IF TryPackCareful 240 0 (input st) r
     THEN zero_run (clamp r 240) 0 st
     ELSE IF TryPackCareful 120 0 (input st) r
     THEN zero_run (clamp r 120) (Z.shiftl 1 (64 - SIMPLE8B_SELECTOR_BITS)) st
     ELSE IF TryPackCareful 60 1 (input st) r THEN pack_careful 2 60 1 st
     ELSE IF TryPackCareful 30 2 (input st) r THEN pack_careful 3 30 2 st
     ELSE IF TryPackCareful 20 3 (input st) r THEN pack_careful 4 20 3 st
     ELSE IF TryPackCareful 15 4 (input st) r THEN pack_careful 5 15 4 st
     ELSE IF TryPackCareful 12 5 (input st) r THEN pack_careful 6 12 5 st
     ELSE IF TryPackCareful 10 6 (input st) r THEN pack_careful 7 10 6 st
     ELSE IF TryPackCareful 8 7 (input st) r THEN pack_careful 8 8 7 st
     ELSE IF TryPackCareful 7 8 (input st) r THEN pack_careful 9 7 8 st
     ELSE IF TryPackCareful 6 10 (input st) r THEN pack_careful 10 6 10 st
     ELSE IF TryPackCareful 5 12 (input st) r THEN pack_careful 11 5 12 st
     ELSE IF TryPackCareful 4 15 (input st) r THEN pack_careful 12 4 15 st
     ELSE IF TryPackCareful 3 20 (input st) r THEN pack_careful 13 3 20 st
     ELSE IF TryPackCareful 2 30 (input st) r THEN pack_careful 14 2 30 st
     ELSE IF TryPackCareful 1 60 (input st) r THEN pack_careful 15 1 60 st
     ELSE shouldnt_happen st);
  Ok (next_word st').

Definition enc_init (inp : list Z) (inputLength : Z) (ob : list Z) : enc_state :=
  EncState inp ob 0 0 inputLength false.

(** The two loops of [Simple8bEncode], up to the [return]. *)
Definition Simple8bEncode_run (fuel : nat) (inp : list Z) (inputLength : Z) (ob : list Z)
  : result enc_state :=
  st1 ← while (fun st => 240 <=? ValuesRemaining st) fast_body fuel
           (enc_init inp inputLength ob);
  while (fun st => 0 <? ValuesRemaining st) careful_body fuel st1.

(** [Simple8bEncode(input, inputLength, out)]: the output buffer after the
    call and the returned [out - initout]. *)
Definition Simple8bEncode (fuel : nat) (inp : list Z) (inputLength : Z) (ob : list Z)
  : result (list Z * Z) :=
  st ← Simple8bEncode_run fuel inp inputLength ob;
  Ok (outbuf st, out st - 0).

(** ** Simple8bDecode *)

(** The local variables of [Simple8bDecode]; [end] is fixed for the call. *)
Record dec_state : Type := DecState {
  inw : list Z;                 (* const uint64_t *in, from the cursor to the end *)
  decbuf : list Z;              (* the caller's output buffer *)
  dout : Z                      (* T *out, as an index into decbuf *)
}.

(** [for (k = 0; k < numIntegers; ++k)
       *(out++) = static_cast<T>(in[0] >> (64 - SIMPLE8B_SELECTOR_BITS
                    - numBitsPerInt - k * numBitsPerInt)) & mask;]
    with [mask = (1ULL << numBitsPerInt) - 1]; the shift amount is computed in
    [uint32_t] and [T] is [uint64_t].  The two arms of the source's test on
    [numBitsPerInt < 32] hold the same loop. *)
Fixpoint Unpack_loop (numBitsPerInt : Z) (cnt : nat) (k : Z) (inp : list Z)
    (ob : list Z) (o : Z) : result (list Z * Z) :=
  match cnt with
  | O => Ok (ob, o)
  | S cnt' =>
      let mask := wrap64 (Z.shiftl 1 numBitsPerInt - 1) in
      x ← load inp 0;
      ob' ← store ob o
              (Z.land (Z.shiftr x (wrap32 (64 - SIMPLE8B_SELECTOR_BITS
                                           - numBitsPerInt - k * numBitsPerInt)))
                      mask);
      Unpack_loop numBitsPerInt cnt' (k + 1) inp ob' (o + 1)
  end.

(** [UnpackFast<numIntegers, numBitsPerInt>(out, in)]: the loop, then [++in]. *)
Definition UnpackFast (numIntegers numBitsPerInt : Z) (st : dec_state) : result dec_state :=
  '(ob, o) ← Unpack_loop numBitsPerInt (Z.to_nat numIntegers) 0 (inw st) (decbuf st) (dout st);
  Ok (DecState (drop 1 (inw st)) ob o).

(** [UnpackCareful<numBitsPerInt>(numIntegers, out, in)]. *)
Definition UnpackCareful (numBitsPerInt numIntegers : Z) (st : dec_state) : result dec_state :=
  '(ob, o) ← Unpack_loop numBitsPerInt (Z.to_nat numIntegers) 0 (inw st) (decbuf st) (dout st);
  Ok (DecState (drop 1 (inw st)) ob o).

(** Body of [while (end > out + 240)]. *)
Definition dec_fast_body (st : dec_state) : result dec_state :=
  sel ← GetSelectorNum (inw st);
  match sel with
  | 0 => UnpackFast 240 0 st
  | 1 => UnpackFast 120 0 st
  | 2 => UnpackFast 60 1 st
  | 3 => UnpackFast 30 2 st
  | 4 => UnpackFast 20 3 st
  | 5 => UnpackFast 15 4 st
  | 6 => UnpackFast 12 5 st
  | 7 => UnpackFast 10 6 st
  | 8 => UnpackFast 8 7 st
  | 9 => UnpackFast 7 8 st
  | 10 => UnpackFast 6 10 st
  | 11 => UnpackFast 5 12 st
  | 12 => UnpackFast 4 15 st
  | 13 => UnpackFast 3 20 st
  | 14 => UnpackFast 2 30 st
  | 15 => UnpackFast 1 60 st
  | _ => Ok st
  end.

(** [std::min<uint32_t>(static_cast<uint32_t>(end - out), cnt)] *)
Definition slots (endp o cnt : Z) : Z := Z.min (wrap32 (endp - o)) cnt.

(** Body of [while (end > out)]. *)
Definition dec_careful_body (endp : Z) (st : dec_state) : result dec_state :=
  sel ← GetSelectorNum (inw st);
  match sel with
  | 0 => UnpackCareful 0 (slots endp (dout st) 240) st
  | 1 => UnpackCareful 0 (slots endp (dout st) 120) st
  | 2 => UnpackCareful 1 (slots endp (dout st) 60) st
  | 3 => UnpackCareful 2 (slots endp (dout st) 30) st
  | 4 => UnpackCareful 3 (slots endp (dout st) 20) st
  | 5 => UnpackCareful 4 (slots endp (dout st) 15) st
  | 6 => UnpackCareful 5 (slots endp (dout st) 12) st
  | 7 => UnpackCareful 6 (slots endp (dout st) 10) st
  | 8 => UnpackCareful 7 (slots endp (dout st) 8) st
  | 9 => UnpackCareful 8 (slots endp (dout st) 7) st
  | 10 => UnpackCareful 10 (slots endp (dout st) 6) st
  | 11 => UnpackCareful 12 (slots endp (dout st) 5) st
  | 12 => UnpackCareful 15 (slots endp (dout st) 4) st
  | 13 => UnpackCareful 20 (slots endp (dout st) 3) st
  | 14 => UnpackCareful 30 (slots endp (dout st) 2) st
  | 15 => UnpackCareful 60 1 st
  | _ => Ok st
  end.

(** [Simple8bDecode(input, uncompressedLength, out)]: the output buffer after
    the call and the returned [out - initout]. *)
Definition Simple8bDecode (fuel : nat) (inp : list Z) (uncompressedLength : Z) (ob : list Z)
  : result (list Z * Z) :=
  let endp := 0 + uncompressedLength in
  st1 ← while (fun st => dout st + 240 <? endp) dec_fast_body fuel (DecState inp ob 0);
  st2 ← while (fun st => dout st <? endp) (dec_careful_body endp) fuel st1;
  Ok (decbuf st2, dout st2 - 0).

(** ** The selector table, as the branches above use it *)

Definition schemes : list (Z * Z * Z) :=
  [ (0, 240, 0); (1, 120, 0); (2, 60, 1); (3, 30, 2); (4, 20, 3); (5, 15, 4);
    (6, 12, 5); (7, 10, 6); (8, 8, 7); (9, 7, 8); (10, 6, 10); (11, 5, 12);
    (12, 4, 15); (13, 3, 20); (14, 2, 30); (15, 1, 60) ].

(** ** Sequences the in-place transforms compute *)

(** Differences of consecutive elements, [prev] being the element before the
    list. *)
Fixpoint deltas (prev : Z) (l : list Z) : list Z :=
  match l with
  | [] => []
  | x :: l' => swrap64 (x - prev) :: deltas x l'
  end.

(** Running sums, [prev] being the value before the list. *)
Fixpoint sums (prev : Z) (l : list Z) : list Z :=
  match l with
  | [] => []
  | d :: l' => let x := swrap64 (d + prev) in x :: sums x l'
  end.

(** ** What one iteration of the encoder writes *)

(** One [WriteBits] call on an accumulator. *)
Definition pack_step (numBits : Z) (acc v : Z) : Z :=
  Z.lor (wrap64 (Z.shiftl acc numBits)) v.

(** The word a branch of selectors 2 to 15 leaves in [out[0]]: the selector,
    then [WriteBits] for each value, then the final left shift. *)
Definition pack_word (sel numBits shift : Z) (vs : list Z) : Z :=
  wrap64 (Z.shiftl (fold_left (pack_step numBits) vs sel) shift).

(** The word written for the values [vs] under scheme [(sel, _, w)]; the
    branches of selectors 0 and 1 ([w = 0]) store a constant. *)
Definition enc_word (sel w : Z) (vs : list Z) : Z :=
  if w =? 0 then Z.shiftl sel 60
  else pack_word sel w (60 - w * Z.of_nat (length vs)) vs.

(** The state a loop iteration that picks scheme [(sel, c, w)] ends in. *)
Definition enc_next (sel c w : Z) (st : enc_state) : enc_state :=
  let vs := take (Z.to_nat c) (input st) in
  EncState (drop (Z.to_nat c) (input st))
    (<[Z.to_nat (out st) := enc_word sel w vs]> (outbuf st))
    (out st + 1)
    (Z.of_nat (length vs))
    (ValuesRemaining st - Z.of_nat (length vs))
    (no_scheme st).

(** States in which the loops of [Simple8bEncode] run when the caller keeps
    the contract: [ValuesRemaining] counts the values from the cursor on, and
    their number fits [uint64_t], and the output buffer has a word left for
    each of them. *)
Definition enc_valid (st : enc_state) : Prop :=
  ValuesRemaining st = Z.of_nat (length (input st))
  /\ ValuesRemaining st < 2 ^ 64
  /\ 0 <= out st
  /\ out st + Z.of_nat (length (input st)) <= Z.of_nat (length (outbuf st)).

(** What an iteration that runs under the caller's contract does: it picks a
    scheme of the table whose fit test passed and moves to [enc_next]. *)
Definition picks (st : enc_state) (r : result enc_state) : Prop :=
  exists sel c w : Z,
    In (sel, c, w) schemes
    /\ (w < 32 -> Forall (fun v => v < 2 ^ w) (take (Z.to_nat c) (input st)))
    /\ r = Ok (enc_next sel c w st).

(** One iteration of [Simple8bEncode]: of the first loop while
    [ValuesRemaining >= 240], of the second one after that. *)
Definition enc_iter (st st' : enc_state) : Prop :=
  (240 <= ValuesRemaining st /\ fast_body st = Ok st')
  \/ (0 < ValuesRemaining st < 240 /\ careful_body st = Ok st').

(** [encoded xs ws]: the words [ws] code the values [xs], each word under a
    scheme of the table whose fit test the values pass.  Only widths below 32
    are tested. *)
Inductive encoded : list Z -> list Z -> Prop :=
| encoded_nil : encoded [] []
| encoded_cons (xs : list Z) (sel c w : Z) (ws : list Z) :
    xs <> [] ->
    In (sel, c, w) schemes ->
    (w < 32 -> Forall (fun v => v < 2 ^ w) (take (Z.to_nat c) xs)) ->
    encoded (drop (Z.to_nat c) xs) ws ->
    encoded xs (enc_word sel w (take (Z.to_nat c) xs) :: ws).

(** ** What one iteration of the decoder writes *)

(** The scheme [(count, width)] of a selector, read off the table. *)
Definition scheme_of (sel : Z) : Z * Z :=
  match find (fun s => fst (fst s) =? sel) schemes with
  | Some (_, c, w) => (c, w)
  | None => (0, 0)
  end.

Definition selector_of (x : Z) : Z := x / 2 ^ 60.

(** Value number [k] of a word, as [Unpack_loop] extracts it. *)
Definition unpack_at (w x k : Z) : Z :=
  Z.land (Z.shiftr x (wrap32 (64 - SIMPLE8B_SELECTOR_BITS - w - k * w)))
         (wrap64 (Z.shiftl 1 w - 1)).

(** Values number [k], [k + 1], ... ([cnt] of them) of a word. *)
Fixpoint unpack_from (w x k : Z) (cnt : nat) : list Z :=
  match cnt with
  | O => []
  | S cnt' => unpack_at w x k :: unpack_from w x (k + 1) cnt'
  end.

(** The state a decoder iteration ends in when the current word is [x] and
    [endp - dout] slots are left: it writes the first
    [min(count, endp - dout)] values of [x] and moves to the next word. *)
Definition dec_next (endp x : Z) (st : dec_state) : dec_state :=
  let '(c, w) := scheme_of (selector_of x) in
  let n := Z.to_nat (Z.min c (endp - dout st)) in
  DecState (drop 1 (inw st))
    (take (Z.to_nat (dout st)) (decbuf st) ++ unpack_from w x 0 n
       ++ drop (Z.to_nat (dout st) + n) (decbuf st))
    (dout st + Z.of_nat n).

(** One iteration of [Simple8bDecode]: of the first loop while more than
    240 slots are left, of the second one after that. *)
Definition dec_iter (endp : Z) (st st' : dec_state) : Prop :=
  (dout st + 240 < endp /\ dec_fast_body st = Ok st')
  \/ (dout st < endp <= dout st + 240 /\ dec_careful_body endp st = Ok st').

(** [enough ws n]: the stream [ws] holds the words that producing [n] values
    consumes, whatever their selectors. *)
Fixpoint enough (ws : list Z) (n : Z) : Prop :=
  match ws with
  | [] => n <= 0
  | x :: ws' => n <= 0 \/ enough ws' (n - fst (scheme_of (selector_of x)))
  end.

(** States in which the loops of [Simple8bDecode] run when the caller keeps
    the contract: the output buffer holds [endp] slots and the stream holds
    64-bit words, enough of them for the slots left. *)
Definition dec_valid (endp : Z) (st : dec_state) : Prop :=
  0 <= dout st <= endp
  /\ endp <= Z.of_nat (length (decbuf st))
  /\ Forall is_u64 (inw st)
  /\ enough (inw st) (endp - dout st).

(** The payload of a word: the values as digits in base [2^w], first value
    in the most significant digit. *)
Fixpoint payload (w : Z) (vs : list Z) : Z :=
  match vs with
  | [] => 0
  | v :: vs' => v * 2 ^ (w * Z.of_nat (length vs')) + payload w vs'
  end.

(** The values [Simple8bDecode] produces from the stream [ws] for [n] output
    slots: word by word, [min(count, slots left)] values of each. *)
Fixpoint dec_values (ws : list Z) (n : Z) : list Z :=
  match ws with
  | [] => []
  | x :: ws' =>
      if n <=? 0 then []
      else
        let '(c, w) := scheme_of (selector_of x) in
        let k := Z.min c n in
        unpack_from w x 0 (Z.to_nat k) ++ dec_values ws' (n - k)
  end.

(** ** The scheme an iteration picks, and the words of a whole run *)

(** The fit test of a scheme of width [w] on the values [vs], as a pure
    function: widths of 32 and more are not tested. *)
Definition fitsb (w : Z) (vs : list Z) : bool :=
  (32 <=? w) || forallb (fun v => v <? 2 ^ w) vs.

(** The first scheme of the table, in the order of its selectors, whose fit
    test passes on the values from the cursor on (on all that are left when
    fewer than its count are). *)
Definition choose (xs : list Z) : option (Z * Z * Z) :=
  find (fun s => fitsb (snd s) (take (Z.to_nat (snd (fst s))) xs)) schemes.

(** An iteration that picks the scheme [choose] names. *)
Definition picks_first (st : enc_state) (r : result enc_state) : Prop :=
  exists sel c w : Z,
    choose (input st) = Some (sel, c, w)
    /\ r = Ok (enc_next sel c w st).

(** The words [Simple8bEncode] writes for the values [xs]: one word per
    iteration, the scheme of each picked by [choose]. *)
Fixpoint enc_words (fuel : nat) (xs : list Z) : list Z :=
  match fuel with
  | O => []
  | S fuel' =>
      match xs with
      | [] => []
      | _ :: _ =>
          match choose xs with
          | Some (sel, c, w) =>
              enc_word sel w (take (Z.to_nat c) xs)
                :: enc_words fuel' (drop (Z.to_nat c) xs)
          | None => []
          end
      end
  end.

(** ** Concrete runs *)

Example delta_example :
  DeltaEncode [10; 12; 11] 3 = Ok [10; 2; -1] /\
  DeltaDecode [10; 2; -1] 3 = Ok [10; 12; 11].
Proof. split; reflexivity. Qed.

Example zigzag_example :
  ZigZagEncode [0; -1; 1; -2] 4 = Ok [0; 1; 2; 3] /\
  ZigZagDecode [0; 1; 2; 3] 4 = Ok [0; -1; 1; -2].
Proof. split; reflexivity. Qed.

Example encode_small :
  Simple8bEncode 10 [1; 0; 1; 2 ^ 40; 7] 5 [9; 9; 9; 9; 9]
  = Ok ([Z.shiftl 13 60 + 2 ^ 40 + 1; Z.shiftl 15 60 + 2 ^ 40;
         Z.shiftl 4 60 + Z.shiftl 7 57; 9; 9], 3).
Proof. vm_compute. reflexivity. Qed.

Example roundtrip_small :
  ('(ws, n) ← Simple8bEncode 10 [1; 0; 1; 2 ^ 40; 7] 5 [9; 9; 9; 9; 9];
   Simple8bDecode 10 ws 5 [0; 0; 0; 0; 0])
  = Ok ([1; 0; 1; 2 ^ 40; 7], 5).
Proof. vm_compute. reflexivity. Qed.

(** * Part II: properties *)

(** ** Buffers and machine integers *)

Lemma bind_Ok {A B : Type} (m : result A) (k : A -> result B) (b : B) :
  m ≫= k = Ok b -> exists a, m = Ok a /\ k a = Ok b.
Proof. destruct m as [a| |]; simpl; intros H; try discriminate. by exists a. Qed.

Lemma load_Ok (buf : list Z) (i v : Z) :
  0 <= i -> buf !! Z.to_nat i = Some v -> load buf i = Ok v.
Proof.
  intros Hi Hl. unfold load.
  pose proof (lookup_lt_Some _ _ _ Hl) as Hlt.
  replace ((0 <=? i) && (i <? Z.of_nat (length buf))) with true
    by (symmetry; apply andb_true_iff; split; [apply Z.leb_le | apply Z.ltb_lt]; lia).
  by rewrite Hl.
Qed.

Lemma load_oob (buf : list Z) (i : Z) :
  Z.of_nat (length buf) <= i -> load buf i = OutOfBounds.
Proof.
  intros Hi. unfold load.
  replace (i <? Z.of_nat (length buf)) with false by (symmetry; apply Z.ltb_ge; lia).
  by rewrite andb_false_r.
Qed.

Lemma store_Ok (buf : list Z) (i v : Z) :
  0 <= i < Z.of_nat (length buf) -> store buf i v = Ok (<[Z.to_nat i := v]> buf).
Proof.
  intros Hi. unfold store.
  replace ((0 <=? i) && (i <? Z.of_nat (length buf))) with true
    by (symmetry; apply andb_true_iff; split; [apply Z.leb_le | apply Z.ltb_lt]; lia).
  done.
Qed.

Lemma store_oob (buf : list Z) (i v : Z) :
  Z.of_nat (length buf) <= i -> store buf i v = OutOfBounds.
Proof.
  intros Hi. unfold store.
  replace (i <? Z.of_nat (length buf)) with false by (symmetry; apply Z.ltb_ge; lia).
  by rewrite andb_false_r.
Qed.

(** Reading and writing the cell just after a prefix [pre]. *)
Lemma load_app_mid (pre suf : list Z) (x : Z) (i : Z) :
  i = Z.of_nat (length pre) -> load (pre ++ x :: suf) i = Ok x.
Proof.
  intros ->. apply load_Ok; [lia|].
  rewrite Nat2Z.id. by rewrite list_lookup_middle.
Qed.

Lemma store_app_mid (pre suf : list Z) (x v : Z) (i : Z) :
  i = Z.of_nat (length pre) -> store (pre ++ x :: suf) i v = Ok (pre ++ v :: suf).
Proof.
  intros ->. rewrite store_Ok.
  - rewrite Nat2Z.id. f_equal.
    replace (length pre) with (length pre + 0)%nat by lia.
    by rewrite insert_app_r.
  - rewrite length_app. simpl. lia.
Qed.

Lemma swrap64_id (x : Z) : is_i64 x -> swrap64 x = x.
Proof. unfold is_i64, swrap64. intros H. rewrite Z.mod_small; lia. Qed.

Lemma swrap64_range (x : Z) : is_i64 (swrap64 x).
Proof.
  unfold is_i64, swrap64.
  pose proof (Z.mod_pos_bound (x + 2 ^ 63) (2 ^ 64) ltac:(lia)). lia.
Qed.

Lemma swrap64_sub_add (x p : Z) : is_i64 x -> swrap64 (swrap64 (x - p) + p) = x.
Proof.
  intros Hx. unfold swrap64.
  replace ((x - p + 2 ^ 63) mod 2 ^ 64 - 2 ^ 63 + p + 2 ^ 63)
    with ((x - p + 2 ^ 63) mod 2 ^ 64 + p) by lia.
  rewrite Zplus_mod_idemp_l.
  replace (x - p + 2 ^ 63 + p) with (x + 2 ^ 63) by lia.
  unfold is_i64 in Hx. rewrite Z.mod_small; lia.
Qed.

(** ** Delta transform *)

Lemma deltas_snoc (prev : Z) (l : list Z) (a b : Z) :
  deltas prev (l ++ [a; b]) = deltas prev (l ++ [a]) ++ [swrap64 (b - a)].
Proof. revert prev. induction l as [|x l IH]; intros prev; simpl; [done|]. by rewrite IH. Qed.

Lemma deltas_length (prev : Z) (l : list Z) : length (deltas prev l) = length l.
Proof. revert prev. induction l as [|x l IH]; intros prev; simpl; [done|]. by rewrite IH. Qed.

Lemma sums_deltas (prev : Z) (l : list Z) :
  Forall is_i64 l -> sums prev (deltas prev l) = l.
Proof.
  intros H. revert prev. induction H as [|x l Hx Hl IH]; intros prev; simpl; [done|].
  rewrite swrap64_sub_add by done. by rewrite IH.
Qed.

(** The backward loop, started on the last cell of [x0 :: l], leaves
    [x0] and turns [l] into its differences; cells after it are untouched. *)
Lemma DeltaEncode_loop_spec (l : list Z) : forall (x0 : Z) (suf : list Z),
  DeltaEncode_loop (length l) (Z.of_nat (length l)) (x0 :: l ++ suf)
  = Ok (x0 :: deltas x0 l ++ suf).
Proof.
  induction l as [|b l IH] using rev_ind; intros x0 suf; [done|].
  rewrite length_app. simpl length.
  replace (length l + 1)%nat with (S (length l)) by lia.
  cbn [DeltaEncode_loop].
  assert (Hsplit : exists pre a, x0 :: l = pre ++ [a] /\ length pre = length l
                                 /\ deltas x0 (l ++ [b]) = deltas x0 l ++ [swrap64 (b - a)]).
  { destruct l as [|y l' _] using rev_ind.
    - exists [], x0. by simpl.
    - exists (x0 :: l'), y. split; [done|]. split.
      + rewrite length_app. simpl. lia.
      + rewrite <- !app_assoc. simpl. apply deltas_snoc. }
  destruct Hsplit as (pre & a & Hpre & Hlen & Hd).
  assert (Hbuf : x0 :: (l ++ [b]) ++ suf = (pre ++ [a]) ++ b :: suf).
  { rewrite <- Hpre. rewrite <- app_assoc. done. }
  rewrite Hbuf.
  rewrite (load_app_mid (pre ++ [a]) suf b (Z.of_nat (S (length l))))
    by (rewrite length_app; cbn [length]; lia).
  cbn [mbind result_bind].
  rewrite <- (app_assoc pre [a]). cbn [app].
  rewrite (load_app_mid pre (b :: suf) a) by lia.
  cbn [mbind result_bind].
  replace (pre ++ a :: b :: suf) with ((pre ++ [a]) ++ b :: suf)
    by (by rewrite <- app_assoc).
  rewrite (store_app_mid (pre ++ [a]) suf b)
    by (rewrite length_app; cbn [length]; lia).
  cbn [mbind result_bind].
  rewrite <- Hpre. cbn [app].
  replace (Z.of_nat (S (length l)) - 1) with (Z.of_nat (length l)) by lia.
  rewrite IH. rewrite Hd. by rewrite <- app_assoc.
Qed.

(** The forward loop, started just after [p], turns [l] into its running sums. *)
Lemma DeltaDecode_loop_spec (l : list Z) : forall (pre : list Z) (p : Z) (suf : list Z),
  DeltaDecode_loop (length l) (Z.of_nat (length pre) + 1) (pre ++ p :: l ++ suf)
  = Ok (pre ++ p :: sums p l ++ suf).
Proof.
  induction l as [|d l IH]; intros pre p suf; [done|].
  simpl length. cbn [DeltaDecode_loop].
  assert (Hlen : Z.of_nat (length pre) + 1 = Z.of_nat (length (pre ++ [p])))
    by (rewrite length_app; cbn [length]; lia).
  replace (pre ++ p :: (d :: l) ++ suf) with ((pre ++ [p]) ++ d :: l ++ suf)
    by (by rewrite <- app_assoc).
  rewrite (load_app_mid (pre ++ [p]) (l ++ suf) d (Z.of_nat (length pre) + 1)) by done.
  cbn [mbind result_bind].
  rewrite <- (app_assoc pre [p]). cbn [app].
  rewrite (load_app_mid pre (d :: l ++ suf) p) by lia.
  cbn [mbind result_bind].
  replace (pre ++ p :: d :: l ++ suf) with ((pre ++ [p]) ++ d :: l ++ suf)
    by (by rewrite <- app_assoc).
  rewrite (store_app_mid (pre ++ [p]) (l ++ suf) d) by done.
  cbn [mbind result_bind].
  rewrite Hlen, IH. cbn [sums]. by rewrite <- app_assoc.
Qed.

Lemma deltas_lookup (l : list Z) : forall (prev : Z) (i : nat) (a b : Z),
  (prev :: l) !! i = Some a -> (prev :: l) !! S i = Some b ->
  (prev :: deltas prev l) !! S i = Some (swrap64 (b - a)).
Proof.
  induction l as [|x l IH]; intros prev i a b Ha Hb; [done|].
  destruct i as [|i]; simpl in *.
  - by simplify_eq.
  - by apply (IH x i a b).
Qed.

(** C3. For a buffer of signed 64-bit integers of length at least 1,
    [DeltaEncode] keeps cell 0, replaces every later cell by its wrapped
    difference with the cell before it, and [DeltaDecode] applied to the
    result restores the original buffer exactly.  Cells beyond [length]
    ([rest]) are not touched. *)
Theorem Delta_roundtrip (buf rest : list Z) :
  Forall is_i64 buf ->
  1 <= Z.of_nat (length buf) < 2 ^ 64 ->
  exists enc,
    DeltaEncode (buf ++ rest) (Z.of_nat (length buf)) = Ok (enc ++ rest)
    /\ length enc = length buf
    /\ enc !! 0%nat = buf !! 0%nat
    /\ (forall (i : nat) (a b : Z),
          buf !! i = Some a -> buf !! S i = Some b ->
          enc !! S i = Some (swrap64 (b - a)))
    /\ DeltaDecode (enc ++ rest) (Z.of_nat (length buf)) = Ok (buf ++ rest).
Proof.
  intros Hr Hlen. destruct buf as [|x0 l]; [simpl in Hlen; lia|].
  apply Forall_cons in Hr as [_ Hl].
  exists (x0 :: deltas x0 l).
  assert (Hw : wrap64 (Z.of_nat (length (x0 :: l)) - 1) = Z.of_nat (length l)).
  { unfold wrap64. cbn [length] in *. rewrite Z.mod_small; lia. }
  repeat split.
  - unfold DeltaEncode. rewrite Hw. cbv zeta. rewrite Nat2Z.id.
    cbn [app]. rewrite DeltaEncode_loop_spec. done.
  - cbn [length]. by rewrite deltas_length.
  - intros i a b. apply deltas_lookup.
  - unfold DeltaDecode.
    replace (Z.to_nat (Z.of_nat (length (x0 :: l)) - 1)) with (length (deltas x0 l))
      by (rewrite deltas_length; cbn [length]; lia).
    pose proof (DeltaDecode_loop_spec (deltas x0 l) [] x0 rest) as H.
    cbn [app length] in H. change (Z.of_nat 0 + 1) with 1 in H.
    cbn [app]. rewrite H. by rewrite sums_deltas.
Qed.

Lemma Delta_roundtrip_witness :
  exists enc,
    DeltaEncode ([10; 12; 11] ++ [7]) 3 = Ok (enc ++ [7])
    /\ DeltaDecode (enc ++ [7]) 3 = Ok ([10; 12; 11] ++ [7]).
Proof.
  destruct (Delta_roundtrip [10; 12; 11] [7]) as (enc & He & _ & _ & _ & Hd).
  - repeat constructor; unfold is_i64; lia.
  - simpl; lia.
  - exists enc. split; [exact He | exact Hd].
Defined.

(** C10. [DeltaEncode] with [length = 0]: the counter starts at
    [0 - 1 = 2^64 - 1] in [uint64_t], the loop is entered and its first access
    [input[i]] is outside every buffer; with [length = 1] the body never runs
    and the buffer is unchanged; for [1 <= length] within the buffer the
    transform returns. *)
Theorem DeltaEncode_length_zero (buf : list Z) :
  Z.of_nat (length buf) < 2 ^ 64 ->
  wrap64 (0 - 1) = 2 ^ 64 - 1
  /\ load buf (wrap64 (0 - 1)) = OutOfBounds
  /\ DeltaEncode buf 0 = OutOfBounds
  /\ DeltaEncode buf 1 = Ok buf
  /\ (forall n : Z, 1 <= n <= Z.of_nat (length buf) ->
        exists enc, DeltaEncode buf n = Ok enc).
Proof.
  intros Hlen.
  assert (Hload : load buf (wrap64 (0 - 1)) = OutOfBounds).
  { apply load_oob. change (wrap64 (0 - 1)) with (2 ^ 64 - 1). lia. }
  split; [reflexivity|]. split; [exact Hload|]. split; [|split].
  - unfold DeltaEncode. cbv zeta.
    assert (Hn : exists n, Z.to_nat (wrap64 (0 - 1)) = S n).
    { exists (Z.to_nat (2 ^ 64 - 2)). change (wrap64 (0 - 1)) with (Z.succ (2 ^ 64 - 2)).
      apply Z2Nat.inj_succ. lia. }
    destruct Hn as [n ->]. cbn [DeltaEncode_loop]. by rewrite Hload.
  - reflexivity.
  - intros n Hn. unfold DeltaEncode. cbv zeta.
    assert (Hw : wrap64 (n - 1) = n - 1) by (unfold wrap64; rewrite Z.mod_small; lia).
    rewrite Hw.
    destruct buf as [|x0 l]; [simpl in Hn; lia|].
    cbn [length] in Hn.
    pose proof (DeltaEncode_loop_spec (take (Z.to_nat (n - 1)) l) x0
                  (drop (Z.to_nat (n - 1)) l)) as H.
    rewrite take_drop in H. rewrite length_take in H.
    replace (Z.to_nat (n - 1) `min` length l)%nat with (Z.to_nat (n - 1)) in H by lia.
    rewrite Z2Nat.id in H by lia. eauto.
Qed.

Lemma DeltaEncode_length_zero_witness :
  DeltaEncode [10; 12; 11] 0 = OutOfBounds /\ DeltaEncode [10; 12; 11] 1 = Ok [10; 12; 11].
Proof.
  destruct (DeltaEncode_length_zero [10; 12; 11]) as (_ & _ & H0 & H1 & _).
  - simpl; lia.
  - split; [exact H0 | exact H1].
Defined.

(** ** Zig-zag transform *)

Lemma land_1 (y : Z) : Z.land y 1 = y mod 2.
Proof. exact (Z.land_ones y 1 ltac:(lia)). Qed.

(** Within [-2^62, 2^62) the two element maps are inverse: there the left
    shift does not overflow and the encoded value is non-negative, so the
    arithmetic right shift of the decoder acts as a logical one. *)
Lemma zigzag_dec_enc (x : Z) :
  - 2 ^ 62 <= x < 2 ^ 62 -> zigzag_dec (zigzag_enc x) = x.
Proof.
  intros Hx. unfold zigzag_enc, zigzag_dec.
  rewrite Z.shiftl_mul_pow2 by lia. change (2 ^ 1) with 2.
  rewrite swrap64_id by (unfold is_i64; lia).
  rewrite !Z.shiftr_div_pow2 by lia. change (2 ^ 1) with 2.
  destruct (Z.lt_ge_cases x 0) as [Hneg|Hpos].
  - replace (x / 2 ^ 63) with (-1) by (apply Z.div_unique with (r := x + 2 ^ 63); lia).
    rewrite Z.lxor_m1_r. unfold Z.lnot.
    replace (Z.pred (- (x * 2))) with (2 * (- x - 1) + 1) by lia.
    rewrite land_1.
    replace ((2 * (- x - 1) + 1) mod 2) with 1
      by (apply Z.mod_unique with (q := - x - 1); lia).
    replace ((2 * (- x - 1) + 1) / 2) with (- x - 1)
      by (apply Z.div_unique with (r := 1); lia).
    change (swrap64 (- 1)) with (-1).
    rewrite Z.lxor_m1_r. unfold Z.lnot. lia.
  - rewrite (Z.div_small x (2 ^ 63)) by lia. rewrite Z.lxor_0_r.
    rewrite land_1.
    rewrite Z.mod_mul by lia. rewrite Z.div_mul by lia.
    change (swrap64 (- 0)) with 0. apply Z.lxor_0_r.
Qed.

(** C2. The round trip fails on the buffer [[2^62]]: [ZigZagEncode] turns it
    into [[-2^63]] (the left shift overflows into the sign bit) and
    [ZigZagDecode], whose [>> 1] is an arithmetic shift of a signed value,
    returns [[-2^62]] instead of [[2^62]]. *)
Theorem ZigZag_roundtrip_fails :
  is_i64 (2 ^ 62)
  /\ ZigZagEncode [2 ^ 62] 1 = Ok [- 2 ^ 63]
  /\ ZigZagDecode [- 2 ^ 63] 1 = Ok [- 2 ^ 62]
  /\ [- 2 ^ 62] <> [2 ^ 62]
  /\ zigzag_dec (zigzag_enc (2 ^ 62)) <> 2 ^ 62.
Proof.
  split; [unfold is_i64; lia|]. split; [reflexivity|]. split; [reflexivity|].
  split; [discriminate|]. vm_compute. discriminate.
Qed.

(** ** Fit tests *)

Lemma TryPack_loop_spec (w : Z) (n : list Z) (cnt : nat) : forall (i : nat),
  0 <= w ->
  (i + cnt <= length n)%nat ->
  exists b : bool,
    TryPack_loop w n cnt (Z.of_nat i) = Ok b
    /\ (b = true <-> Forall (fun v => v < 2 ^ w) (take cnt (drop i n))).
Proof.
  induction cnt as [|cnt IH]; intros i Hw Hi.
  - exists true. split; [done|]. split; [|done]. intros _. rewrite take_0. constructor.
  - cbn [TryPack_loop].
    destruct (lookup_lt_is_Some_2 n i ltac:(lia)) as [v Hv].
    rewrite (load_Ok n (Z.of_nat i) v) by (try lia; by rewrite Nat2Z.id).
    cbn [mbind result_bind].
    rewrite (drop_S _ _ _ Hv). rewrite firstn_cons.
    rewrite Z.shiftl_1_l.
    destruct (Z.leb_spec (2 ^ w) v) as [Hge|Hlt].
    + exists false. split; [done|]. split; [done|].
      intros HF. apply Forall_cons in HF as [HF _]. lia.
    + destruct (IH (S i) Hw ltac:(lia)) as (b & Hb & Hiff).
      exists b. replace (Z.of_nat i + 1) with (Z.of_nat (S i)) by lia.
      split; [done|]. rewrite Hiff. split.
      * intros HF. by constructor.
      * intros HF. by apply Forall_cons in HF as [_ HF].
Qed.

Lemma TryPackCareful_clamp (count width : Z) (n : list Z) (maxIntegers : Z) :
  TryPackCareful count width n maxIntegers
  = TryPackFast (Z.min count maxIntegers) width n.
Proof.
  unfold TryPackCareful, TryPackFast.
  destruct (32 <=? width); [done|]. cbv zeta.
  destruct (Z.ltb_spec maxIntegers count).
  - by rewrite Z.min_r by lia.
  - by rewrite Z.min_l by lia.
Qed.

Lemma TryPack_wide (count width : Z) (n : list Z) :
  32 <= width -> TryPackFast count width n = Ok true.
Proof.
  intros Hw. unfold TryPackFast.
  by replace (32 <=? width) with true by (symmetry; apply Z.leb_le; lia).
Qed.

Lemma TryPack_narrow (count width : Z) (n : list Z) :
  0 <= width < 32 -> 0 <= count <= Z.of_nat (length n) ->
  exists b : bool,
    TryPackFast count width n = Ok b
    /\ (b = true <-> Forall (fun v => v < 2 ^ width) (take (Z.to_nat count) n)).
Proof.
  intros Hw Hc. unfold TryPackFast.
  replace (32 <=? width) with false by (symmetry; apply Z.leb_gt; lia).
  destruct (TryPack_loop_spec width n (Z.to_nat count) 0) as (b & Hb & Hiff);
    [lia | lia |].
  exists b. split; [exact Hb|]. by rewrite drop_0 in Hiff.
Qed.

(** C7. [TryPackFast] returns true without looking at any value when the
    width is 32 or more; for a narrower width it returns true exactly when
    each of the first [count] values is below [2^width]; [TryPackCareful] is
    [TryPackFast] at the count clamped to [min(count, maxIntegers)]. *)
Theorem TryPack_spec (count width : Z) (n : list Z) :
  (32 <= width -> TryPackFast count width n = Ok true)
  /\ (0 <= width < 32 -> 0 <= count <= Z.of_nat (length n) ->
      exists b : bool,
        TryPackFast count width n = Ok b
        /\ (b = true <->
            Forall (fun v => v < 2 ^ width) (take (Z.to_nat count) n)))
  /\ (forall maxIntegers : Z,
        TryPackCareful count width n maxIntegers
        = TryPackFast (Z.min count maxIntegers) width n).
Proof.
  split; [|split].
  - apply TryPack_wide.
  - apply TryPack_narrow.
  - intros m. apply TryPackCareful_clamp.
Qed.

Lemma TryPack_spec_witness :
  TryPackFast 1 60 [] = Ok true
  /\ (exists b : bool,
        TryPackFast 3 2 [1; 3; 2; 9] = Ok b
        /\ (b = true <-> Forall (fun v => v < 2 ^ 2) (take (Z.to_nat 3) [1; 3; 2; 9])))
  /\ TryPackCareful 30 2 [1; 3; 2] 3 = TryPackFast (Z.min 30 3) 2 [1; 3; 2].
Proof.
  destruct (TryPack_spec 1 60 []) as (H1 & _ & _).
  destruct (TryPack_spec 3 2 [1; 3; 2; 9]) as (_ & H2 & _).
  destruct (TryPack_spec 30 2 [1; 3; 2]) as (_ & _ & H3).
  split; [apply H1; lia|]. split; [apply H2; simpl; lia|]. apply H3.
Defined.

(** Both fit tests, in the form the encoder uses them: the test returns, a
    positive answer on a width below 32 bounds the values it covers, and a
    negative answer comes from a value that is too wide. *)
Lemma fit_fast (c w : Z) (inp : list Z) :
  0 <= w -> 0 <= c <= Z.of_nat (length inp) ->
  exists b : bool,
    TryPackFast c w inp = Ok b
    /\ (b = true -> w < 32 -> Forall (fun v => v < 2 ^ w) (take (Z.to_nat c) inp))
    /\ (b = false ->
        w < 32 /\ ~ Forall (fun v => v < 2 ^ w) (take (Z.to_nat c) inp)).
Proof.
  intros Hw Hc. destruct (Z.le_gt_cases 32 w) as [Hwide|Hnarrow].
  - exists true. split; [by apply TryPack_wide|]. split; [lia|done].
  - destruct (TryPack_narrow c w inp) as (b & Hb & Hiff); [lia|lia|].
    exists b. split; [done|]. split.
    + intros Ht _. by apply Hiff.
    + intros Hf. split; [lia|]. intros HF. apply Hiff in HF. congruence.
Qed.

Lemma fit_careful (c w : Z) (inp : list Z) (r : Z) :
  0 <= w -> 0 <= c -> r = Z.of_nat (length inp) ->
  exists b : bool,
    TryPackCareful c w inp r = Ok b
    /\ (b = true -> w < 32 -> Forall (fun v => v < 2 ^ w) (take (Z.to_nat c) inp))
    /\ (b = false ->
        w < 32 /\ ~ Forall (fun v => v < 2 ^ w) (take (Z.to_nat c) inp)).
Proof.
  intros Hw Hc ->. rewrite TryPackCareful_clamp.
  assert (Ht : take (Z.to_nat (Z.min c (Z.of_nat (length inp)))) inp
               = take (Z.to_nat c) inp).
  { destruct (Z.le_gt_cases c (Z.of_nat (length inp))).
    - by rewrite Z.min_l by lia.
    - rewrite Z.min_r by lia. rewrite !take_ge by lia. done. }
  rewrite <- Ht. apply fit_fast; lia.
Qed.

(** ** The branches of the encoder *)

Lemma WriteBits_loop_spec (w : Z) (cnt : nat) : forall (inp ob : list Z) (o acc : Z),
  0 <= o -> ob !! Z.to_nat o = Some acc -> (cnt <= length inp)%nat ->
  WriteBits_loop w cnt inp ob o
  = Ok (drop cnt inp,
        <[Z.to_nat o := fold_left (pack_step w) (take cnt inp) acc]> ob).
Proof.
  induction cnt as [|cnt IH]; intros inp ob o acc Ho Hacc Hlen.
  - cbn [WriteBits_loop]. rewrite drop_0, take_0. cbn [fold_left].
    by rewrite list_insert_id.
  - destruct inp as [|v inp]; [simpl in Hlen; lia|].
    cbn [WriteBits_loop]. rewrite (load_Ok (v :: inp) 0 v) by done.
    cbn [mbind result_bind]. unfold WriteBits.
    rewrite (load_Ok ob o acc) by done. cbn [mbind result_bind].
    pose proof (lookup_lt_Some _ _ _ Hacc) as Hlt.
    rewrite store_Ok by lia. cbn [mbind result_bind].
    rewrite (IH inp _ o (pack_step w acc v)); [| lia | | simpl in Hlen; lia].
    + rewrite list_insert_insert_eq. done.
    + by apply list_lookup_insert_eq.
Qed.

Lemma pack_spec (sel cnt w shift : Z) (st : enc_state) :
  0 <= out st < Z.of_nat (length (outbuf st)) ->
  0 <= cnt <= Z.of_nat (length (input st)) ->
  pack sel cnt w shift st
  = Ok (EncState (drop (Z.to_nat cnt) (input st))
          (<[Z.to_nat (out st) := pack_word sel w shift (take (Z.to_nat cnt) (input st))]>
             (outbuf st))
          (out st) cnt (ValuesRemaining st) (no_scheme st)).
Proof.
  intros Ho Hc. unfold pack.
  rewrite store_Ok by done. cbn [mbind result_bind].
  rewrite (WriteBits_loop_spec w _ _ _ (out st) sel);
    [| lia | apply list_lookup_insert_eq; lia | lia].
  cbn [mbind result_bind].
  rewrite list_insert_insert_eq.
  rewrite (load_Ok _ (out st) (fold_left (pack_step w) (take (Z.to_nat cnt) (input st)) sel));
    [| lia | apply list_lookup_insert_eq; lia].
  cbn [mbind result_bind].
  rewrite store_Ok by (rewrite length_insert; lia).
  cbn [mbind result_bind]. by rewrite list_insert_insert_eq.
Qed.

Lemma zero_run_spec (cnt word : Z) (st : enc_state) :
  0 <= out st < Z.of_nat (length (outbuf st)) ->
  zero_run cnt word st
  = Ok (EncState (drop (Z.to_nat cnt) (input st))
          (<[Z.to_nat (out st) := word]> (outbuf st))
          (out st) cnt (ValuesRemaining st) (no_scheme st)).
Proof. intros Ho. unfold zero_run. by rewrite store_Ok. Qed.

Lemma bind_ret_l {A B : Type} (k : A -> result B) (a : A) : Ok a ≫= k = k a.
Proof. reflexivity. Qed.

Lemma take_min_length (c : Z) (l : list Z) :
  take (Z.to_nat (Z.min c (Z.of_nat (length l)))) l = take (Z.to_nat c) l.
Proof.
  destruct (Z.le_gt_cases c (Z.of_nat (length l))).
  - by rewrite Z.min_l by lia.
  - rewrite Z.min_r by lia. by rewrite !take_ge by lia.
Qed.

Lemma drop_min_length (c : Z) (l : list Z) :
  drop (Z.to_nat (Z.min c (Z.of_nat (length l)))) l = drop (Z.to_nat c) l.
Proof.
  destruct (Z.le_gt_cases c (Z.of_nat (length l))).
  - by rewrite Z.min_l by lia.
  - rewrite Z.min_r by lia. by rewrite !drop_ge by lia.
Qed.

Lemma length_take_Z (c : Z) (l : list Z) :
  0 <= c -> Z.of_nat (length (take (Z.to_nat c) l)) = Z.min c (Z.of_nat (length l)).
Proof. intros Hc. rewrite length_take. lia. Qed.

(** A branch followed by [++out; ValuesRemaining -= NumberOfValuesCoded]. *)
Lemma pack_branch (sel c n w shift : Z) (st : enc_state) :
  enc_valid st -> 0 < ValuesRemaining st -> 0 < c -> 0 < w ->
  n = Z.min c (ValuesRemaining st) ->
  shift = 60 - w * n ->
  pack sel n w shift st ≫= (fun st' => Ok (next_word st')) = Ok (enc_next sel c w st).
Proof.
  intros (Hr & Hr64 & Ho & Hcap) Hpos Hc Hw -> ->.
  rewrite pack_spec by lia. rewrite bind_ret_l.
  unfold next_word, enc_next. cbn [input outbuf out NumberOfValuesCoded ValuesRemaining no_scheme].
  cbv zeta. rewrite Hr.
  rewrite take_min_length, drop_min_length, length_take_Z by lia.
  unfold enc_word. replace (w =? 0) with false by (symmetry; apply Z.eqb_neq; lia).
  rewrite length_take_Z by lia.
  do 2 f_equal. unfold wrap64. rewrite Z.mod_small; lia.
Qed.

Lemma pack_careful_branch (sel c w : Z) (st : enc_state) :
  enc_valid st -> 0 < ValuesRemaining st -> 0 < c < 2 ^ 32 -> 0 < w -> w * c <= 60 ->
  pack_careful sel c w st ≫= (fun st' => Ok (next_word st')) = Ok (enc_next sel c w st).
Proof.
  intros Hv Hpos Hc Hw Hwc. unfold pack_careful. cbv zeta.
  assert (Hn : clamp (ValuesRemaining st) c = Z.min c (ValuesRemaining st)).
  { unfold clamp. destruct (Z.ltb_spec (ValuesRemaining st) c).
    - unfold wrap32. rewrite Z.mod_small by lia. lia.
    - lia. }
  rewrite Hn. apply pack_branch; try done; try lia.
  assert (w * Z.min c (ValuesRemaining st) <= w * c) by nia.
  assert (0 <= w * Z.min c (ValuesRemaining st)) by nia.
  unfold wrap32, SIMPLE8B_SELECTOR_BITS. rewrite Z.mod_small; lia.
Qed.

Lemma zero_branch (sel c n : Z) (st : enc_state) :
  enc_valid st -> 0 < ValuesRemaining st -> 0 < c ->
  n = Z.min c (ValuesRemaining st) ->
  zero_run n (Z.shiftl sel 60) st ≫= (fun st' => Ok (next_word st'))
  = Ok (enc_next sel c 0 st).
Proof.
  intros (Hr & Hr64 & Ho & Hcap) Hpos Hc ->.
  rewrite zero_run_spec by lia. rewrite bind_ret_l.
  unfold next_word, enc_next. cbn [input outbuf out NumberOfValuesCoded ValuesRemaining no_scheme].
  cbv zeta. rewrite Hr.
  rewrite drop_min_length, length_take_Z by lia.
  change (enc_word sel 0 (take (Z.to_nat c) (input st))) with (Z.shiftl sel 60).
  do 2 f_equal. unfold wrap64. rewrite Z.mod_small; lia.
Qed.

Lemma clamp_min (r c : Z) : 0 <= r -> 0 < c < 2 ^ 32 -> clamp r c = Z.min c r.
Proof.
  intros Hr Hc. unfold clamp. destruct (Z.ltb_spec r c); [|lia].
  unfold wrap32. rewrite Z.mod_small by lia. lia.
Qed.

(** ** One iteration of the encoder *)

Ltac in_schemes := unfold schemes; repeat first [left; reflexivity | right].

Ltac picked sel c w H :=
  exists sel, c, w; split; [in_schemes | split; [exact H | reflexivity]].

(** Resolve the test at the head of an [if] chain of [fast_body]. *)
Ltac fast_link Hv Hr :=
  lazymatch goal with
  | |- picks ?st (mbind _ (mbind _ (TryPackFast ?c ?w ?inp))) =>
      let b := fresh "b" in
      let Hb := fresh "Hb" in
      let Ht := fresh "Ht" in
      let Hf := fresh "Hf" in
      destruct (fit_fast c w inp) as (b & Hb & Ht & Hf);
      [ lia | destruct Hv as (? & ? & ? & ?); lia | ];
      rewrite Hb, (bind_ret_l _ b); destruct b; cbv beta iota;
      [ specialize (Ht eq_refl); clear Hf | specialize (Hf eq_refl); clear Ht ]
  end.

Ltac careful_link Hv :=
  lazymatch goal with
  | |- picks ?st (mbind _ (mbind _ (TryPackCareful ?c ?w ?inp ?r))) =>
      let b := fresh "b" in
      let Hb := fresh "Hb" in
      let Ht := fresh "Ht" in
      let Hf := fresh "Hf" in
      destruct (fit_careful c w inp r) as (b & Hb & Ht & Hf);
      [ lia | lia | by destruct Hv as (? & ?) | ];
      rewrite Hb, (bind_ret_l _ b); destruct b; cbv beta iota;
      [ specialize (Ht eq_refl); clear Hf | specialize (Hf eq_refl); clear Ht ]
  end.

Lemma fast_body_spec (st : enc_state) :
  enc_valid st -> 240 <= ValuesRemaining st -> picks st (fast_body st).
Proof.
  intros Hv Hr. unfold fast_body. cbv zeta.
  fast_link Hv Hr.
  { (* selectors 0 and 1 *)
    destruct (fit_fast 120 0 (drop 120 (input st))) as (b' & Hb' & Ht' & Hf');
      [ lia | destruct Hv as (? & ? & ? & ?); rewrite length_drop; lia | ].
    rewrite Hb', (bind_ret_l _ b'). destruct b'; cbv beta iota.
    - rewrite (zero_branch 0 240) by (try done; lia).
      exists 0, 240, 0. split; [in_schemes|]. split; [|done].
      intros _. change (Z.to_nat 240) with (120 + 120)%nat.
      rewrite <- take_take_drop. apply Forall_app. split; [by apply Ht | by apply Ht'].
    - rewrite (zero_branch 1 120) by (try done; lia).
      picked 1 120 0 Ht. }
  fast_link Hv Hr.
  { rewrite (pack_branch 2 60) by (try done; lia). picked 2 60 1 Ht. }
  fast_link Hv Hr.
  { rewrite (pack_branch 3 30) by (try done; lia). picked 3 30 2 Ht. }
  fast_link Hv Hr.
  { rewrite (pack_branch 4 20) by (try done; lia). picked 4 20 3 Ht. }
  fast_link Hv Hr.
  { rewrite (pack_branch 5 15) by (try done; lia). picked 5 15 4 Ht. }
  fast_link Hv Hr.
  { rewrite (pack_branch 6 12) by (try done; lia). picked 6 12 5 Ht. }
  fast_link Hv Hr.
  { rewrite (pack_branch 7 10) by (try done; lia). picked 7 10 6 Ht. }
  fast_link Hv Hr.
  { rewrite (pack_branch 8 8) by (try done; lia). picked 8 8 7 Ht. }
  fast_link Hv Hr.
  { rewrite (pack_branch 9 7) by (try done; lia). picked 9 7 8 Ht. }
  fast_link Hv Hr.
  { rewrite (pack_branch 10 6) by (try done; lia). picked 10 6 10 Ht. }
  fast_link Hv Hr.
  { rewrite (pack_branch 11 5) by (try done; lia). picked 11 5 12 Ht. }
  fast_link Hv Hr.
  { rewrite (pack_branch 12 4) by (try done; lia). picked 12 4 15 Ht. }
  fast_link Hv Hr.
  { rewrite (pack_branch 13 3) by (try done; lia). picked 13 3 20 Ht. }
  fast_link Hv Hr.
  { rewrite (pack_branch 14 2) by (try done; lia). picked 14 2 30 Ht. }
  fast_link Hv Hr.
  { rewrite (pack_branch 15 1) by (try done; lia). picked 15 1 60 Ht. }
  lia.
Qed.

Lemma careful_body_spec (st : enc_state) :
  enc_valid st -> 0 < ValuesRemaining st -> picks st (careful_body st).
Proof.
  intros Hv Hr. unfold careful_body. cbv zeta.
  assert (Hcl : forall c, 0 < c < 2 ^ 32 ->
                  clamp (ValuesRemaining st) c = Z.min c (ValuesRemaining st))
    by (intros c Hc; apply clamp_min; lia).
  careful_link Hv.
  { rewrite (zero_branch 0 240) by (try done; try lia; apply Hcl; lia).
    picked 0 240 0 Ht. }
  careful_link Hv.
  { rewrite (zero_branch 1 120) by (try done; try lia; apply Hcl; lia).
    picked 1 120 0 Ht. }
  careful_link Hv.
  { rewrite (pack_careful_branch 2 60) by (try done; lia). picked 2 60 1 Ht. }
  careful_link Hv.
  { rewrite (pack_careful_branch 3 30) by (try done; lia). picked 3 30 2 Ht. }
  careful_link Hv.
  { rewrite (pack_careful_branch 4 20) by (try done; lia). picked 4 20 3 Ht. }
  careful_link Hv.
  { rewrite (pack_careful_branch 5 15) by (try done; lia). picked 5 15 4 Ht. }
  careful_link Hv.
  { rewrite (pack_careful_branch 6 12) by (try done; lia). picked 6 12 5 Ht. }
  careful_link Hv.
  { rewrite (pack_careful_branch 7 10) by (try done; lia). picked 7 10 6 Ht. }
  careful_link Hv.
  { rewrite (pack_careful_branch 8 8) by (try done; lia). picked 8 8 7 Ht. }
  careful_link Hv.
  { rewrite (pack_careful_branch 9 7) by (try done; lia). picked 9 7 8 Ht. }
  careful_link Hv.
  { rewrite (pack_careful_branch 10 6) by (try done; lia). picked 10 6 10 Ht. }
  careful_link Hv.
  { rewrite (pack_careful_branch 11 5) by (try done; lia). picked 11 5 12 Ht. }
  careful_link Hv.
  { rewrite (pack_careful_branch 12 4) by (try done; lia). picked 12 4 15 Ht. }
  careful_link Hv.
  { rewrite (pack_careful_branch 13 3) by (try done; lia). picked 13 3 20 Ht. }
  careful_link Hv.
  { rewrite (pack_careful_branch 14 2) by (try done; lia). picked 14 2 30 Ht. }
  careful_link Hv.
  { rewrite (pack_careful_branch 15 1) by (try done; lia). picked 15 1 60 Ht. }
  lia.
Qed.

(** ** Runs of the encoder *)

Lemma schemes_facts (sel c w : Z) :
  In (sel, c, w) schemes ->
  0 <= sel < 16 /\ 0 < c <= 240 /\ 0 <= w <= 60 /\ w * c <= 60
  /\ (w = 0 -> sel <= 1)
  /\ (w < 32 -> w <= 30)
  /\ (32 <= w -> sel = 15 /\ c = 1 /\ w = 60).
Proof.
  unfold schemes. intros H.
  repeat (destruct H as [H|H]; [injection H as <- <- <-; lia|]).
  destruct H.
Qed.

Lemma enc_iter_spec (st st' : enc_state) :
  enc_valid st -> enc_iter st st' -> picks st (Ok st').
Proof.
  intros Hv [[Hr Hb]|[Hr Hb]]; rewrite <- Hb.
  - by apply fast_body_spec.
  - apply careful_body_spec; [done|lia].
Qed.

Lemma enc_iter_total (st : enc_state) :
  enc_valid st -> 0 < ValuesRemaining st -> exists st', enc_iter st st'.
Proof.
  intros Hv Hr. destruct (Z.le_gt_cases 240 (ValuesRemaining st)) as [Hf|Hc].
  - destruct (fast_body_spec st Hv Hf) as (sel & c & w & _ & _ & Hb).
    eexists. left. eauto.
  - destruct (careful_body_spec st Hv Hr) as (sel & c & w & _ & _ & Hb).
    eexists. right. split; [lia|eauto].
Qed.

Lemma enc_next_valid (sel c w : Z) (st : enc_state) :
  enc_valid st -> 0 < ValuesRemaining st -> 0 < c ->
  enc_valid (enc_next sel c w st)
  /\ 1 <= NumberOfValuesCoded (enc_next sel c w st)
  /\ ValuesRemaining (enc_next sel c w st)
     = ValuesRemaining st - NumberOfValuesCoded (enc_next sel c w st)
  /\ ValuesRemaining (enc_next sel c w st) < ValuesRemaining st.
Proof.
  intros (Hr & Hr64 & Ho & Hcap) Hpos Hc.
  unfold enc_valid, enc_next.
  cbn [input outbuf out NumberOfValuesCoded ValuesRemaining no_scheme].
  rewrite length_insert, length_drop, length_take. lia.
Qed.

(** A [while] loop whose body keeps an invariant and decreases a measure
    returns once it is given fuel for the measure. *)
Lemma while_inv {S : Type} (cond : S -> bool) (body : S -> result S)
    (Inv : S -> Prop) (R : relation S) (m : S -> nat) :
  (forall s, Inv s -> cond s = true ->
     exists s', body s = Ok s' /\ Inv s' /\ (m s' < m s)%nat /\ R s s') ->
  forall (fuel : nat) (s : S), Inv s -> (m s <= fuel)%nat ->
    exists s', while cond body fuel s = Ok s' /\ Inv s' /\ cond s' = false /\ rtc R s s'.
Proof.
  intros Hstep fuel. induction fuel as [|fuel IH]; intros s Hs Hm.
  - destruct (cond s) eqn:Hc.
    + destruct (Hstep s Hs Hc) as (s' & _ & _ & Hlt & _). lia.
    + exists s. simpl. rewrite Hc. split_and!; [done|done|done|constructor].
  - destruct (cond s) eqn:Hc.
    + destruct (Hstep s Hs Hc) as (s' & Hb & Hs' & Hlt & HR).
      destruct (IH s' Hs' ltac:(lia)) as (s'' & Hw & Hs'' & Hc'' & Hrtc).
      exists s''. simpl. rewrite Hc, Hb. cbn [mbind result_bind].
      split_and!; [done|done|done|]. by eapply rtc_l.
    + exists s. simpl. rewrite Hc. split_and!; [done|done|done|constructor].
Qed.

(** Under the caller's contract both loops return, and the run is a chain of
    iterations that ends with no value left. *)
Lemma Simple8bEncode_run_spec (fuel : nat) (xs ob : list Z) :
  Z.of_nat (length xs) < 2 ^ 64 ->
  (length xs <= length ob)%nat ->
  (length xs <= fuel)%nat ->
  exists fin,
    Simple8bEncode_run fuel xs (Z.of_nat (length xs)) ob = Ok fin
    /\ enc_valid fin
    /\ input fin = []
    /\ rtc enc_iter (enc_init xs (Z.of_nat (length xs)) ob) fin.
Proof.
  intros H64 Hcap Hfuel. unfold Simple8bEncode_run.
  set (st0 := enc_init xs (Z.of_nat (length xs)) ob).
  assert (Hv0 : enc_valid st0) by (unfold enc_valid, st0; simpl; lia).
  destruct (while_inv (fun st => 240 <=? ValuesRemaining st) fast_body
              enc_valid enc_iter (fun st => Z.to_nat (ValuesRemaining st))) with
    (fuel := fuel) (s := st0) as (st1 & Hw1 & Hv1 & Hc1 & Hrtc1).
  { intros s Hs Hc. apply Z.leb_le in Hc.
    destruct (fast_body_spec s Hs Hc) as (sel & c & w & Hin & _ & Hb).
    apply schemes_facts in Hin.
    destruct (enc_next_valid sel c w s Hs) as (Hv' & _ & _ & Hlt); [lia|lia|].
    exists (enc_next sel c w s). split_and!; [done|done|lia|by left]. }
  { done. }
  { unfold st0. simpl. lia. }
  rewrite Hw1. cbn [mbind result_bind]. apply Z.leb_gt in Hc1.
  destruct (while_inv (fun st => 0 <? ValuesRemaining st) careful_body
              (fun st => enc_valid st /\ ValuesRemaining st < 240) enc_iter
              (fun st => Z.to_nat (ValuesRemaining st))) with
    (fuel := fuel) (s := st1) as (st2 & Hw2 & [Hv2 _] & Hc2 & Hrtc2).
  { intros s [Hs Hlt] Hc. apply Z.ltb_lt in Hc.
    destruct (careful_body_spec s Hs Hc) as (sel & c & w & Hin & _ & Hb).
    apply schemes_facts in Hin.
    destruct (enc_next_valid sel c w s Hs) as (Hv' & _ & _ & Hlt'); [lia|lia|].
    exists (enc_next sel c w s). split_and!; [done|done|lia|lia|by right]. }
  { done. }
  { assert (rtc enc_iter st0 st1 -> ValuesRemaining st1 <= ValuesRemaining st0) as Hle.
    { clear -Hv0. intros Hrtc. induction Hrtc as [|a b c' Hab Hbc IH]; [lia|].
      destruct (enc_iter_spec a b Hv0 Hab) as (sel & c & w & Hin & _ & [= ->]).
      apply schemes_facts in Hin.
      assert (0 < ValuesRemaining a) by (destruct Hab as [[? _]|[? _]]; lia).
      destruct (enc_next_valid sel c w a Hv0) as (Hv' & _ & _ & Hlt); [lia|lia|].
      specialize (IH Hv'). lia. }
    specialize (Hle Hrtc1). unfold st0 in Hle. simpl in Hle. lia. }
  exists st2. apply Z.ltb_ge in Hc2. destruct Hv2 as (Hr & Hrest).
  split_and!; [done| |apply length_zero_iff_nil; lia|by etrans].
  unfold enc_valid. lia.
Qed.

Lemma enc_iter_pos (st st' : enc_state) : enc_iter st st' -> 0 < ValuesRemaining st.
Proof. intros [[? _]|[? _]]; lia. Qed.

(** What a chain of iterations does to the state: the cursor moves forward
    over [k] values, one word is written per iteration, in order, after the
    words already there, and everything else in the buffer is kept. *)
Lemma enc_path (st fin : enc_state) :
  enc_valid st -> rtc enc_iter st fin ->
  enc_valid fin
  /\ no_scheme fin = no_scheme st
  /\ exists (k : nat) (ws : list Z),
       input fin = drop k (input st)
       /\ (k <= length (input st))%nat
       /\ (length ws <= k)%nat
       /\ out fin = out st + Z.of_nat (length ws)
       /\ outbuf fin = take (Z.to_nat (out st)) (outbuf st) ++ ws
                       ++ drop (Z.to_nat (out st) + length ws) (outbuf st)
       /\ (forall ws', encoded (input fin) ws' -> encoded (input st) (ws ++ ws')).
Proof.
  intros Hv Hrtc. induction Hrtc as [a|a b c Hab Hbc IH].
  - split; [done|]. split; [done|]. exists 0%nat, [].
    rewrite drop_0, Nat.add_0_r. cbn [app length]. rewrite take_drop.
    split_and!; [done|lia|lia|lia|done|done].
  - pose proof (enc_iter_pos a b Hab) as Hpos.
    destruct (enc_iter_spec a b Hv Hab) as (sel & cc & w & Hin & Hfit & [= ->]).
    pose proof (schemes_facts sel cc w Hin) as Hsch.
    destruct (enc_next_valid sel cc w a Hv) as (Hv' & Hn1 & _ & _); [lia|lia|].
    destruct (IH Hv') as (Hvc & Hns & k1 & ws1 & Hinp & Hk1 & Hlen1 & Hout & Hbuf & Henc).
    split; [done|]. split; [by rewrite Hns|].
    destruct Hv as (Hr & Hr64 & Ho & Hcap).
    unfold enc_next in Hinp, Hk1, Hout, Hbuf, Henc, Hn1.
    cbn [input outbuf out NumberOfValuesCoded ValuesRemaining no_scheme] in *.
    set (vs := take (Z.to_nat cc) (input a)) in *.
    set (wd := enc_word sel w vs) in *.
    exists (length vs + k1)%nat, (wd :: ws1).
    assert (Hdrop : drop (Z.to_nat cc) (input a) = drop (length vs) (input a)).
    { unfold vs. rewrite <- (drop_min_length cc).
      f_equal. rewrite length_take. lia. }
    split_and!.
    + rewrite Hinp, Hdrop, drop_drop. done.
    + rewrite Hdrop, length_drop in Hk1. unfold vs in *. rewrite length_take in *. lia.
    + cbn [length]. lia.
    + cbn [length]. lia.
    + rewrite Hbuf.
      replace (Z.to_nat (out a + 1)) with (S (Z.to_nat (out a))) by lia.
      rewrite (take_S_r _ _ wd) by (apply list_lookup_insert_eq; lia).
      rewrite take_insert_ge by lia.
      rewrite drop_insert_lt by lia.
      rewrite <- app_assoc. cbn [app length]. by rewrite Nat.add_succ_r.
    + intros ws' Hws'. cbn [app]. apply encoded_cons; try done.
      * intros Hnil. rewrite Hnil in Hr. simpl in Hr. lia.
      * by apply Henc.
Qed.

(** C9. With an output buffer of at least [inputLength] words, [Simple8bEncode]
    returns once it has fuel for [inputLength] iterations: every iteration
    codes at least one value and decreases [ValuesRemaining] by what it
    coded; the number of words written is at most [inputLength], the buffer
    keeps its size and the words after those written are not touched. *)
Theorem Simple8bEncode_terminates (fuel : nat) (xs ob : list Z) :
  Z.of_nat (length xs) < 2 ^ 64 ->
  (length xs <= length ob)%nat ->
  (length xs <= fuel)%nat ->
  (forall st st', enc_valid st -> enc_iter st st' ->
     1 <= NumberOfValuesCoded st'
     /\ ValuesRemaining st' = ValuesRemaining st - NumberOfValuesCoded st'
     /\ ValuesRemaining st' < ValuesRemaining st
     /\ out st' = out st + 1)
  /\ exists (ob' : list Z) (n : Z),
       Simple8bEncode fuel xs (Z.of_nat (length xs)) ob = Ok (ob', n)
       /\ 0 <= n <= Z.of_nat (length xs)
       /\ length ob' = length ob
       /\ drop (Z.to_nat n) ob' = drop (Z.to_nat n) ob.
Proof.
  intros H64 Hcap Hfuel. split.
  - intros st st' Hv Hit.
    pose proof (enc_iter_pos st st' Hit) as Hpos.
    destruct (enc_iter_spec st st' Hv Hit) as (sel & c & w & Hin & _ & [= ->]).
    apply schemes_facts in Hin.
    destruct (enc_next_valid sel c w st Hv) as (_ & H1 & H2 & H3); [lia|lia|].
    done.
  - destruct (Simple8bEncode_run_spec fuel xs ob H64 Hcap Hfuel)
      as (fin & Hrun & Hvf & Hnil & Hrtc).
    assert (Hv0 : enc_valid (enc_init xs (Z.of_nat (length xs)) ob))
      by (unfold enc_valid, enc_init; simpl; lia).
    destruct (enc_path _ fin Hv0 Hrtc)
      as (_ & _ & k & ws & _ & Hk & Hlen & Hout & Hbuf & _).
    unfold enc_init in Hk, Hout, Hbuf.
    cbn [input outbuf out] in Hk, Hout, Hbuf.
    change (Z.to_nat 0) with 0%nat in Hbuf. rewrite take_0 in Hbuf. cbn [app Nat.add] in Hbuf.
    exists (outbuf fin), (out fin - 0). unfold Simple8bEncode. rewrite Hrun.
    split; [done|]. split; [lia|].
    rewrite Hbuf. split.
    + rewrite length_app, length_drop. lia.
    + replace (Z.to_nat (out fin - 0)) with (length ws) by lia.
      by rewrite drop_app_length.
Qed.

Lemma Simple8bEncode_terminates_witness :
  exists (ob' : list Z) (n : Z),
    Simple8bEncode 5 [1; 0; 1; 2 ^ 40; 7] 5 [9; 9; 9; 9; 9] = Ok (ob', n)
    /\ 0 <= n <= 5.
Proof.
  destruct (Simple8bEncode_terminates 5 [1; 0; 1; 2 ^ 40; 7] [9; 9; 9; 9; 9])
    as (_ & ob' & n & He & Hn & _).
  - simpl; lia.
  - simpl; lia.
  - simpl; lia.
  - exists ob', n. split; [exact He | exact Hn].
Defined.

(** ** The empty [else] branch *)

Lemma pack_no_scheme (sel cnt w shift : Z) (st st' : enc_state) :
  pack sel cnt w shift st = Ok st' -> no_scheme st' = no_scheme st.
Proof.
  unfold pack. intros H.
  apply bind_Ok in H as (ob1 & _ & H).
  apply bind_Ok in H as ([inp' ob2] & _ & H).
  apply bind_Ok in H as (x & _ & H).
  apply bind_Ok in H as (ob3 & _ & H).
  by injection H as <-.
Qed.

Lemma zero_run_no_scheme (cnt word : Z) (st st' : enc_state) :
  zero_run cnt word st = Ok st' -> no_scheme st' = no_scheme st.
Proof.
  unfold zero_run. intros H. apply bind_Ok in H as (ob1 & _ & H).
  by injection H as <-.
Qed.

(** Peel the test at the head of an [if] chain that returned [Ok]. *)
Ltac peel H :=
  let Hb := fresh "Hb" in
  apply bind_Ok in H as ([|] & Hb & H);
  [ first [ by apply pack_no_scheme in H
          | by apply zero_run_no_scheme in H
          | idtac ]
  | clear Hb ].

Lemma fast_body_no_scheme (st st' : enc_state) :
  fast_body st = Ok st' -> no_scheme st' = no_scheme st.
Proof.
  unfold fast_body. cbv zeta. intros H.
  apply bind_Ok in H as (st1 & H & [= <-]).
  change (no_scheme (next_word st1)) with (no_scheme st1).
  peel H.
  { apply bind_Ok in H as ([|] & _ & H); by apply zero_run_no_scheme in H. }
  do 13 peel H.
  apply bind_Ok in H as ([|] & Hb & H); [by apply pack_no_scheme in H|].
  by rewrite TryPack_wide in Hb by lia.
Qed.

Lemma careful_body_no_scheme (st st' : enc_state) :
  careful_body st = Ok st' -> no_scheme st' = no_scheme st.
Proof.
  unfold careful_body. cbv zeta. intros H.
  apply bind_Ok in H as (st1 & H & [= <-]).
  change (no_scheme (next_word st1)) with (no_scheme st1).
  do 15 peel H.
  apply bind_Ok in H as ([|] & Hb & H); [by apply pack_no_scheme in H|].
  rewrite TryPackCareful_clamp in Hb. by rewrite TryPack_wide in Hb by lia.
Qed.

Lemma while_preserves {S : Type} (cond : S -> bool) (body : S -> result S)
    (P : S -> Prop) :
  (forall s s', P s -> body s = Ok s' -> P s') ->
  forall (fuel : nat) (s s' : S), P s -> while cond body fuel s = Ok s' -> P s'.
Proof.
  intros Hstep fuel. induction fuel as [|fuel IH]; intros s s' Hs Hw; simpl in Hw.
  - destruct (cond s); [discriminate|]. by injection Hw as <-.
  - destruct (cond s); [|by injection Hw as <-].
    apply bind_Ok in Hw as (s1 & Hb & Hw). eauto.
Qed.

(** C8. The empty [else] branch that ends each [if] chain of
    [Simple8bEncode] is never taken, whatever the input values, the length
    argument and the buffers: the last test of each chain, for the scheme
    of one 60-bit value (selector 15), accepts without looking at a value,
    so no iteration of either loop sets the flag of that branch, and a run
    that returns ends with the flag unset. *)
Theorem else_branch_unreachable :
  (forall n : list Z, TryPackFast 1 60 n = Ok true)
  /\ (forall (n : list Z) (maxIntegers : Z), TryPackCareful 1 60 n maxIntegers = Ok true)
  /\ (forall st st', fast_body st = Ok st' -> no_scheme st' = no_scheme st)
  /\ (forall st st', careful_body st = Ok st' -> no_scheme st' = no_scheme st)
  /\ (forall (fuel : nat) (xs : list Z) (inputLength : Z) (ob : list Z) (fin : enc_state),
        Simple8bEncode_run fuel xs inputLength ob = Ok fin -> no_scheme fin = false).
Proof.
  split_and!.
  - intros n. by apply TryPack_wide.
  - intros n m. rewrite TryPackCareful_clamp. by apply TryPack_wide.
  - apply fast_body_no_scheme.
  - apply careful_body_no_scheme.
  - intros fuel xs len ob fin. unfold Simple8bEncode_run. intros H.
    apply bind_Ok in H as (st1 & H1 & H2).
    apply (while_preserves _ _ (fun st => no_scheme st = false)) in H1;
      [| intros s s' Hs Hb; apply fast_body_no_scheme in Hb; congruence | done].
    apply (while_preserves _ _ (fun st => no_scheme st = false)) in H2;
      [done | intros s s' Hs Hb; apply careful_body_no_scheme in Hb; congruence | done].
Qed.

Lemma else_branch_unreachable_witness :
  exists fin : enc_state,
    Simple8bEncode_run 3 [2 ^ 63; 0; 1] 3 [9; 9] = Ok fin /\ no_scheme fin = false.
Proof.
  destruct else_branch_unreachable as (_ & _ & _ & _ & H).
  eexists. split; [vm_compute; reflexivity|].
  apply (H 3%nat [2 ^ 63; 0; 1] 3 [9; 9]). vm_compute. reflexivity.
Defined.

(** ** Bit-level facts about packed words *)

Lemma land_shiftl_small (a n v : Z) :
  0 <= n -> 0 <= v < 2 ^ n -> Z.land (Z.shiftl a n) v = 0.
Proof.
  intros Hn Hv. apply Z.bits_inj'. intros i Hi.
  rewrite Z.land_spec, Z.bits_0.
  destruct (Z.lt_ge_cases i n) as [Hlt|Hge].
  - by rewrite Z.shiftl_spec_low.
  - destruct (Z.eq_dec v 0) as [->|Hv0]; [by rewrite Z.bits_0, andb_false_r|].
    rewrite (Z.bits_above_log2 v i); [apply andb_false_r | lia |].
    apply Z.log2_lt_pow2; [lia|].
    apply Z.lt_le_trans with (2 ^ n); [lia|]. apply Z.pow_le_mono_r; lia.
Qed.

Lemma lor_shiftl_add (a n v : Z) :
  0 <= n -> 0 <= v < 2 ^ n -> Z.lor (Z.shiftl a n) v = a * 2 ^ n + v.
Proof.
  intros Hn Hv. rewrite <- Z.shiftl_mul_pow2 by lia.
  rewrite <- Z.add_lor_land. rewrite land_shiftl_small by done. lia.
Qed.

Lemma wrap64_small (x : Z) : 0 <= x < 2 ^ 64 -> wrap64 x = x.
Proof. intros H. unfold wrap64. by rewrite Z.mod_small. Qed.

Lemma wrap32_small (x : Z) : 0 <= x < 2 ^ 32 -> wrap32 x = x.
Proof. intros H. unfold wrap32. by rewrite Z.mod_small. Qed.

(** The word of selector 15 for a value below [2^60]. *)
Lemma enc_word_15 (v : Z) :
  0 <= v < 2 ^ 60 -> enc_word 15 60 [v] = 15 * 2 ^ 60 + v.
Proof.
  intros Hv. unfold enc_word, pack_word, pack_step. cbn [Z.eqb fold_left length].
  change (60 - 60 * Z.of_nat 1) with 0. rewrite Z.shiftl_0_r.
  rewrite (wrap64_small (Z.shiftl 15 60)) by (change (Z.shiftl 15 60) with (15 * 2 ^ 60); lia).
  rewrite lor_shiftl_add by lia. apply wrap64_small. lia.
Qed.

Lemma GetSelectorNum_word (sel payload : Z) (rest : list Z) :
  0 <= sel < 16 -> 0 <= payload < 2 ^ 60 ->
  GetSelectorNum (sel * 2 ^ 60 + payload :: rest) = Ok sel.
Proof.
  intros Hs Hp. unfold GetSelectorNum. rewrite (load_Ok _ 0 (sel * 2 ^ 60 + payload)) by done.
  rewrite bind_ret_l. f_equal. unfold SIMPLE8B_SELECTOR_BITS.
  rewrite Z.shiftr_div_pow2 by lia. change (64 - 4) with 60.
  replace ((sel * 2 ^ 60 + payload) / 2 ^ 60) with sel
    by (apply Z.div_unique with (r := payload); lia).
  apply wrap32_small. lia.
Qed.

(** ** A value of more than 30 bits *)

(** A chain of iterations that starts before a value [v >= 2^30] and runs to
    the end of the input passes through a state whose cursor is on [v]: no
    scheme of width 30 or less accepts a run that holds [v], and the scheme
    of width 60 moves the cursor by one. *)
Lemma cursor_reaches (v : Z) (post : list Z) (st fin : enc_state) :
  2 ^ 30 <= v ->
  rtc enc_iter st fin -> enc_valid st -> input fin = [] ->
  forall pre, input st = pre ++ v :: post ->
  exists stp,
    rtc enc_iter st stp /\ rtc enc_iter stp fin
    /\ enc_valid stp /\ input stp = v :: post.
Proof.
  intros Hv Hrtc. induction Hrtc as [a|a b c Hab Hbc IH]; intros Hva Hnil pre Hpre.
  - rewrite Hnil in Hpre. by destruct pre.
  - destruct pre as [|p pre].
    + exists a. split_and!; [constructor|by eapply rtc_l|done|done].
    + pose proof (enc_iter_pos a b Hab) as Hpos.
      destruct (enc_iter_spec a b Hva Hab) as (sel & cc & w & Hin & Hfit & [= ->]).
      pose proof (schemes_facts sel cc w Hin) as Hsch.
      destruct (enc_next_valid sel cc w a Hva) as (Hvb & _); [lia|lia|].
      assert (Hcc : (Z.to_nat cc <= length (p :: pre))%nat).
      { destruct (Z.lt_ge_cases w 32) as [Hw|Hw].
        - destruct (Nat.le_gt_cases (Z.to_nat cc) (length (p :: pre))) as [|Hgt]; [done|].
          specialize (Hfit Hw). rewrite Hpre in Hfit.
          rewrite take_app_ge in Hfit by lia.
          apply Forall_app in Hfit as [_ Hfit].
          destruct (Z.to_nat cc - length (p :: pre))%nat as [|m] eqn:Hm; [lia|].
          rewrite firstn_cons in Hfit. apply Forall_cons in Hfit as [Hfit _].
          assert (2 ^ w <= 2 ^ 30) by (apply Z.pow_le_mono_r; lia). lia.
        - cbn [length]. lia. }
      destruct (IH Hvb Hnil (drop (Z.to_nat cc) (p :: pre))) as (stp & H1 & H2 & H3 & H4).
      { unfold enc_next. cbn [input]. rewrite Hpre. by rewrite drop_app_le. }
      exists stp. split_and!; [by eapply rtc_l|done|done|done].
Qed.

(** C5. A value [v] with [2^30 <= v < 2^60] anywhere in the input is packed
    alone: the run of [Simple8bEncode] passes through an iteration whose
    cursor is on [v]; that iteration codes one value, writes the word
    [15 * 2^60 + v] (selector 15, payload [v]) and leaves the cursor just
    after [v]; the word is still there when the encoder returns. *)
Theorem oversized_value_alone (fuel : nat) (pre post : list Z) (v : Z) (ob : list Z) :
  2 ^ 30 <= v < 2 ^ 60 ->
  Z.of_nat (length (pre ++ v :: post)) < 2 ^ 64 ->
  (length (pre ++ v :: post) <= length ob)%nat ->
  (length (pre ++ v :: post) <= fuel)%nat ->
  exists st st' fin : enc_state,
    Simple8bEncode_run fuel (pre ++ v :: post) (Z.of_nat (length (pre ++ v :: post))) ob
    = Ok fin
    /\ rtc enc_iter (enc_init (pre ++ v :: post) (Z.of_nat (length (pre ++ v :: post))) ob) st
    /\ enc_iter st st'
    /\ rtc enc_iter st' fin
    /\ input st = v :: post
    /\ input st' = post
    /\ NumberOfValuesCoded st' = 1
    /\ out st' = out st + 1
    /\ 0 <= out st < out fin
    /\ outbuf st' !! Z.to_nat (out st) = Some (15 * 2 ^ 60 + v)
    /\ outbuf fin !! Z.to_nat (out st) = Some (15 * 2 ^ 60 + v)
    /\ GetSelectorNum [15 * 2 ^ 60 + v] = Ok 15.
Proof.
  intros Hv H64 Hcap Hfuel.
  destruct (Simple8bEncode_run_spec fuel _ ob H64 Hcap Hfuel)
    as (fin & Hrun & Hvf & Hnil & Hrtc).
  set (xs := pre ++ v :: post) in *.
  assert (Hv0 : enc_valid (enc_init xs (Z.of_nat (length xs)) ob))
    by (unfold enc_valid, enc_init; simpl; lia).
  destruct (cursor_reaches v post _ fin ltac:(lia) Hrtc Hv0 Hnil pre eq_refl)
    as (st & Hto & Hfrom & Hvst & Hinp).
  inversion Hfrom as [|? st' ? Hit Hrest]; subst.
  { rewrite Hnil in Hinp. discriminate. }
  destruct (enc_iter_spec st st' Hvst Hit) as (sel & cc & w & Hin & Hfit & [= ->]).
  pose proof (schemes_facts sel cc w Hin) as Hsch.
  assert (Hw : 32 <= w).
  { destruct (Z.lt_ge_cases w 32) as [Hw|Hw]; [|done].
    specialize (Hfit Hw). rewrite Hinp in Hfit.
    destruct (Z.to_nat cc) as [|m] eqn:Hm; [lia|].
    rewrite firstn_cons in Hfit. apply Forall_cons in Hfit as [Hfit _].
    assert (2 ^ w <= 2 ^ 30) by (apply Z.pow_le_mono_r; lia). lia. }
  assert (sel = 15 /\ cc = 1 /\ w = 60) as (-> & -> & ->) by (apply Hsch; lia).
  destruct (enc_next_valid 15 1 60 st Hvst) as (Hvst' & _);
    [destruct Hvst as (Hr & _); rewrite Hr, Hinp; simpl; lia | lia |].
  destruct (enc_path _ fin Hvst' Hrest)
    as (_ & _ & k & ws & _ & _ & _ & Hout & Hbuf & _).
  assert (Hword : outbuf (enc_next 15 1 60 st) !! Z.to_nat (out st)
                  = Some (15 * 2 ^ 60 + v)).
  { unfold enc_next. cbn [outbuf]. rewrite Hinp.
    change (take (Z.to_nat 1) (v :: post)) with [v].
    rewrite enc_word_15 by lia.
    apply list_lookup_insert_eq.
    destruct Hvst as (Hr & _ & Ho & Hc). rewrite Hinp in Hc. simpl in Hc. lia. }
  exists st, (enc_next 15 1 60 st), fin.
  destruct Hvst as (Hr & Hr64 & Ho & Hc).
  split_and!; try done.
  - unfold enc_next. cbn [input]. by rewrite Hinp.
  - unfold enc_next. cbn [NumberOfValuesCoded]. by rewrite Hinp.
  - rewrite Hout. unfold enc_next. cbn [out]. lia.
  - rewrite Hbuf, lookup_app_l.
    + rewrite lookup_take_lt; [done|]. unfold enc_next. cbn [out]. lia.
    + rewrite length_take. apply lookup_lt_Some in Hword.
      unfold enc_next in *. cbn [out outbuf] in *. lia.
  - apply (GetSelectorNum_word 15 v []); lia.
Qed.

Lemma oversized_value_alone_witness :
  exists st st' fin : enc_state,
    Simple8bEncode_run 5 ([1; 0; 1] ++ 2 ^ 40 :: [7]) 5 [9; 9; 9; 9; 9] = Ok fin
    /\ input st = 2 ^ 40 :: [7]
    /\ input st' = [7]
    /\ outbuf fin !! Z.to_nat (out st) = Some (15 * 2 ^ 60 + 2 ^ 40).
Proof.
  destruct (oversized_value_alone 5 [1; 0; 1] [7] (2 ^ 40) [9; 9; 9; 9; 9])
    as (st & st' & fin & Hrun & _ & _ & _ & H1 & H2 & _ & _ & _ & _ & H3 & _).
  - lia.
  - simpl; lia.
  - simpl; lia.
  - simpl; lia.
  - exists st, st', fin. split; [exact Hrun|]. split; [exact H1|]. split; [exact H2|exact H3].
Defined.

(** ** The branches of the decoder *)

Lemma Unpack_loop_spec (w : Z) (cnt : nat) : forall (k x : Z) (rest ob : list Z) (o : Z),
  0 <= o -> (Z.to_nat o + cnt <= length ob)%nat ->
  Unpack_loop w cnt k (x :: rest) ob o
  = Ok (take (Z.to_nat o) ob ++ unpack_from w x k cnt ++ drop (Z.to_nat o + cnt) ob,
        o + Z.of_nat cnt).
Proof.
  induction cnt as [|cnt IH]; intros k x rest ob o Ho Hcap.
  - cbn [Unpack_loop unpack_from app]. rewrite Nat.add_0_r, take_drop.
    do 2 f_equal. lia.
  - cbn [Unpack_loop unpack_from]. cbv zeta.
    rewrite (load_Ok (x :: rest) 0 x) by done. rewrite bind_ret_l.
    rewrite store_Ok by lia. rewrite bind_ret_l.
    rewrite IH by (rewrite ?length_insert; lia).
    fold (unpack_at w x k).
    replace (Z.to_nat (o + 1)) with (S (Z.to_nat o)) by lia.
    rewrite (take_S_r _ _ (unpack_at w x k)) by (apply list_lookup_insert_eq; lia).
    rewrite take_insert_ge by lia.
    rewrite drop_insert_lt by lia.
    rewrite <- app_assoc. cbn [app]. rewrite Nat.add_succ_r.
    do 2 f_equal. lia.
Qed.

Lemma UnpackFast_spec (c w x : Z) (rest : list Z) (st : dec_state) :
  inw st = x :: rest -> 0 <= dout st ->
  (Z.to_nat (dout st) + Z.to_nat c <= length (decbuf st))%nat ->
  UnpackFast c w st
  = Ok (DecState rest
          (take (Z.to_nat (dout st)) (decbuf st) ++ unpack_from w x 0 (Z.to_nat c)
             ++ drop (Z.to_nat (dout st) + Z.to_nat c) (decbuf st))
          (dout st + Z.of_nat (Z.to_nat c))).
Proof.
  intros Hin Ho Hcap. unfold UnpackFast. rewrite Hin.
  by rewrite Unpack_loop_spec by done.
Qed.

Lemma UnpackCareful_spec (c w x : Z) (rest : list Z) (st : dec_state) :
  inw st = x :: rest -> 0 <= dout st ->
  (Z.to_nat (dout st) + Z.to_nat c <= length (decbuf st))%nat ->
  UnpackCareful w c st
  = Ok (DecState rest
          (take (Z.to_nat (dout st)) (decbuf st) ++ unpack_from w x 0 (Z.to_nat c)
             ++ drop (Z.to_nat (dout st) + Z.to_nat c) (decbuf st))
          (dout st + Z.of_nat (Z.to_nat c))).
Proof.
  intros Hin Ho Hcap. unfold UnpackCareful. rewrite Hin.
  by rewrite Unpack_loop_spec by done.
Qed.

Lemma selector_range (x : Z) : is_u64 x -> 0 <= selector_of x < 16.
Proof.
  unfold is_u64, selector_of. intros Hx. split.
  - apply Z.div_pos; lia.
  - apply Z.div_lt_upper_bound; lia.
Qed.

Lemma GetSelectorNum_spec (x : Z) (rest : list Z) :
  is_u64 x -> GetSelectorNum (x :: rest) = Ok (selector_of x).
Proof.
  intros Hx. unfold GetSelectorNum. rewrite (load_Ok _ 0 x) by done.
  rewrite bind_ret_l. f_equal. unfold SIMPLE8B_SELECTOR_BITS. change (64 - 4) with 60.
  rewrite Z.shiftr_div_pow2 by lia. apply wrap32_small.
  pose proof (selector_range x Hx). unfold selector_of in *. lia.
Qed.

Lemma selector_cases (s : Z) :
  0 <= s < 16 ->
  s = 0 \/ s = 1 \/ s = 2 \/ s = 3 \/ s = 4 \/ s = 5 \/ s = 6 \/ s = 7 \/ s = 8
  \/ s = 9 \/ s = 10 \/ s = 11 \/ s = 12 \/ s = 13 \/ s = 14 \/ s = 15.
Proof. lia. Qed.

(** ** One iteration of the decoder *)

Lemma dec_fast_body_spec (endp x : Z) (rest : list Z) (st : dec_state) :
  dec_valid endp st -> dout st + 240 < endp -> inw st = x :: rest ->
  dec_fast_body st = Ok (dec_next endp x st).
Proof.
  intros (Ho & Hcap & Hu & _) Hr Hin. unfold dec_fast_body.
  rewrite Hin in Hu. apply Forall_cons in Hu as [Hx _].
  rewrite Hin, (GetSelectorNum_spec x rest Hx), bind_ret_l.
  unfold dec_next. rewrite Hin.
  destruct (selector_cases _ (selector_range x Hx))
    as [H|[H|[H|[H|[H|[H|[H|[H|[H|[H|[H|[H|[H|[H|[H|H]]]]]]]]]]]]]]];
    rewrite H;
    match goal with
    | |- context [scheme_of ?s] =>
        let v := eval vm_compute in (scheme_of s) in change (scheme_of s) with v
    end;
    cbv beta iota;
    match goal with
    | |- UnpackFast ?c ?w st = _ =>
        rewrite (UnpackFast_spec c w x rest st Hin) by lia;
        rewrite (Z.min_l c) by lia; reflexivity
    end.
Qed.

Lemma dec_careful_body_spec (endp x : Z) (rest : list Z) (st : dec_state) :
  dec_valid endp st -> dout st < endp <= dout st + 240 -> inw st = x :: rest ->
  dec_careful_body endp st = Ok (dec_next endp x st).
Proof.
  intros (Ho & Hcap & Hu & _) Hr Hin. unfold dec_careful_body.
  rewrite Hin in Hu. apply Forall_cons in Hu as [Hx _].
  rewrite Hin, (GetSelectorNum_spec x rest Hx), bind_ret_l.
  unfold dec_next. rewrite Hin.
  assert (Hsl : forall c, slots endp (dout st) c = Z.min c (endp - dout st)).
  { intros c. unfold slots. rewrite wrap32_small by lia. lia. }
  destruct (selector_cases _ (selector_range x Hx))
    as [H|[H|[H|[H|[H|[H|[H|[H|[H|[H|[H|[H|[H|[H|[H|H]]]]]]]]]]]]]]];
    rewrite H;
    match goal with
    | |- context [scheme_of ?s] =>
        let v := eval vm_compute in (scheme_of s) in change (scheme_of s) with v
    end;
    cbv beta iota; rewrite ?Hsl;
    match goal with
    | |- UnpackCareful ?w ?c st = _ =>
        rewrite (UnpackCareful_spec c w x rest st Hin) by lia
    end;
    rewrite ?(Z.min_l 1) by lia; rewrite ?Z2Nat.id by lia; reflexivity.
Qed.

Lemma scheme_of_In (s : Z) :
  0 <= s < 16 -> In (s, fst (scheme_of s), snd (scheme_of s)) schemes.
Proof.
  intros Hs.
  destruct (selector_cases s Hs)
    as [H|[H|[H|[H|[H|[H|[H|[H|[H|[H|[H|[H|[H|[H|[H|H]]]]]]]]]]]]]]];
    rewrite H; vm_compute; tauto.
Qed.

Lemma schemes_functional (s c w : Z) :
  In (s, c, w) schemes -> scheme_of s = (c, w).
Proof.
  unfold schemes. intros H.
  repeat (destruct H as [H|H]; [by injection H as <- <- <-|]).
  destruct H.
Qed.

Lemma unpack_from_length (w x k : Z) (cnt : nat) : length (unpack_from w x k cnt) = cnt.
Proof. revert k. induction cnt as [|cnt IH]; intros k; simpl; [done|]. by rewrite IH. Qed.

Lemma enough_nonpos (ws : list Z) (n : Z) : n <= 0 -> enough ws n.
Proof. intros Hn. destruct ws; simpl; [done|by left]. Qed.

Lemma enough_length (ws : list Z) : forall n : Z,
  Forall is_u64 ws -> n <= Z.of_nat (length ws) -> enough ws n.
Proof.
  induction ws as [|x ws IH]; intros n Hu Hn; simpl in *; [done|].
  apply Forall_cons in Hu as [Hx Hu].
  right. apply IH; [done|].
  pose proof (scheme_of_In _ (selector_range x Hx)) as Hin.
  apply schemes_facts in Hin. lia.
Qed.

Lemma dec_next_valid (endp x : Z) (rest : list Z) (st : dec_state) :
  dec_valid endp st -> dout st < endp -> inw st = x :: rest ->
  dec_valid endp (dec_next endp x st)
  /\ inw (dec_next endp x st) = rest
  /\ dout st < dout (dec_next endp x st)
  /\ length (decbuf (dec_next endp x st)) = length (decbuf st)
  /\ drop (Z.to_nat endp) (decbuf (dec_next endp x st)) = drop (Z.to_nat endp) (decbuf st).
Proof.
  intros (Ho & Hcap & Hu & Hen) Hr Hin. rewrite Hin in Hu, Hen.
  apply Forall_cons in Hu as [Hx Hu].
  pose proof (scheme_of_In _ (selector_range x Hx)) as Hsch.
  apply schemes_facts in Hsch.
  unfold dec_valid, dec_next. cbn [enough] in Hen.
  destruct (scheme_of (selector_of x)) as [c w] eqn:Hs. cbn [fst snd] in *.
  cbn [inw decbuf dout]. rewrite Hin. cbn [drop].
  set (n := Z.to_nat (Z.min c (endp - dout st))).
  assert (Hlen : length (take (Z.to_nat (dout st)) (decbuf st) ++ unpack_from w x 0 n
                         ++ drop (Z.to_nat (dout st) + n) (decbuf st))
                 = length (decbuf st)).
  { rewrite !length_app, length_take, length_drop, unpack_from_length. lia. }
  split_and!; try done; try lia.
  - destruct Hen as [Hen|Hen]; [lia|].
    destruct (Z.le_gt_cases c (endp - dout st)).
    + replace (endp - (dout st + Z.of_nat n)) with (endp - dout st - c) by lia. done.
    + apply enough_nonpos. lia.
  - rewrite app_assoc, drop_app_ge
      by (rewrite length_app, length_take, unpack_from_length; lia).
    rewrite drop_drop. f_equal.
    rewrite length_app, length_take, unpack_from_length. lia.
Qed.

Lemma dec_iter_pos (endp : Z) (st st' : dec_state) : dec_iter endp st st' -> dout st < endp.
Proof. intros [[? _]|[? _]]; lia. Qed.

Lemma enough_cons (ws : list Z) (n : Z) : 0 < n -> enough ws n -> exists x rest, ws = x :: rest.
Proof. intros Hn He. destruct ws as [|x rest]; simpl in He; [lia|eauto]. Qed.

Lemma dec_iter_spec (endp : Z) (st st' : dec_state) :
  dec_valid endp st -> dec_iter endp st st' ->
  exists x rest, inw st = x :: rest /\ st' = dec_next endp x st.
Proof.
  intros Hv Hit. pose proof (dec_iter_pos _ _ _ Hit) as Hpos.
  destruct (enough_cons (inw st) (endp - dout st)) as (x & rest & Hin);
    [lia | by destruct Hv as (_ & _ & _ & ?) |].
  exists x, rest. split; [done|].
  destruct Hit as [[Hr Hb]|[Hr Hb]].
  - rewrite (dec_fast_body_spec endp x rest) in Hb by done. by injection Hb.
  - rewrite (dec_careful_body_spec endp x rest) in Hb by done. by injection Hb.
Qed.

(** Under the caller's contract both loops of the decoder return, and the
    run is a chain of iterations that ends with [out = end]. *)
Lemma Simple8bDecode_run_spec (fuel : nat) (ws : list Z) (n : Z) (ob : list Z) :
  Forall is_u64 ws -> 0 <= n -> enough ws n ->
  n <= Z.of_nat (length ob) -> (Z.to_nat n <= fuel)%nat ->
  exists fin,
    Simple8bDecode fuel ws n ob = Ok (decbuf fin, n)
    /\ dout fin = n
    /\ rtc (dec_iter n) (DecState ws ob 0) fin
    /\ length (decbuf fin) = length ob
    /\ drop (Z.to_nat n) (decbuf fin) = drop (Z.to_nat n) ob.
Proof.
  intros Hu Hn Hen Hcap Hfuel. unfold Simple8bDecode. cbv zeta.
  change (0 + n) with n.
  set (st0 := DecState ws ob 0).
  set (Inv := fun st => dec_valid n st /\ length (decbuf st) = length ob
                        /\ drop (Z.to_nat n) (decbuf st) = drop (Z.to_nat n) ob).
  assert (Hstep : forall s, Inv s -> dout s < n ->
            exists x rest, inw s = x :: rest /\ Inv (dec_next n x s)
              /\ dout s < dout (dec_next n x s) <= n).
  { intros s (Hs & Hl & Hd) Hr.
    destruct (enough_cons (inw s) (n - dout s)) as (x & rest & Hin);
      [lia | by destruct Hs as (_ & _ & _ & ?) |].
    destruct (dec_next_valid n x rest s Hs Hr Hin) as (Hv' & _ & Hlt & Hl' & Hd').
    exists x, rest. split; [done|]. split; [|destruct Hv' as ([_ ?] & _); lia].
    split; [done|]. split; congruence. }
  assert (Hi0 : Inv st0).
  { unfold Inv, dec_valid, st0. simpl. rewrite Z.sub_0_r. split_and!; try done; lia. }
  destruct (while_inv (fun st => dout st + 240 <? n) dec_fast_body
              Inv (dec_iter n) (fun st => Z.to_nat (n - dout st))) with
    (fuel := fuel) (s := st0) as (st1 & Hw1 & Hi1 & Hc1 & Hrtc1).
  { intros s Hs Hc. apply Z.ltb_lt in Hc.
    destruct (Hstep s Hs ltac:(lia)) as (x & rest & Hin & Hi' & Hlt).
    exists (dec_next n x s). destruct Hs as (Hs & _).
    pose proof (dec_fast_body_spec n x rest s Hs Hc Hin) as Hb.
    split_and!; [done|done|lia|by left]. }
  { done. }
  { unfold st0. simpl. lia. }
  rewrite Hw1, bind_ret_l. apply Z.ltb_ge in Hc1.
  destruct (while_inv (fun st => dout st <? n) (dec_careful_body n)
              (fun st => Inv st /\ n <= dout st + 240) (dec_iter n)
              (fun st => Z.to_nat (n - dout st))) with
    (fuel := fuel) (s := st1) as (st2 & Hw2 & [Hi2 _] & Hc2 & Hrtc2).
  { intros s [Hs Hle] Hc. apply Z.ltb_lt in Hc.
    destruct (Hstep s Hs Hc) as (x & rest & Hin & Hi' & Hlt).
    exists (dec_next n x s). destruct Hs as (Hs & _).
    pose proof (dec_careful_body_spec n x rest s Hs ltac:(lia) Hin) as Hb.
    split_and!; [done|done|lia|lia|by right]. }
  { done. }
  { destruct Hi1 as ((Ho & _) & _). unfold st0 in *. lia. }
  rewrite Hw2, bind_ret_l. apply Z.ltb_ge in Hc2.
  destruct Hi2 as ((Ho & _) & Hl & Hd).
  assert (dout st2 = n) by lia.
  exists st2. split_and!; [f_equal; f_equal; lia|done|by etrans|done|done].
Qed.

Lemma dec_values_nonpos (ws : list Z) (n : Z) : n <= 0 -> dec_values ws n = [].
Proof.
  intros Hn. destruct ws as [|x ws]; [done|]. cbn [dec_values].
  by replace (n <=? 0) with true by (symmetry; apply Z.leb_le; lia).
Qed.

Lemma dec_values_cons (x : Z) (ws : list Z) (n : Z) :
  0 < n ->
  dec_values (x :: ws) n
  = unpack_from (snd (scheme_of (selector_of x))) x 0
      (Z.to_nat (Z.min (fst (scheme_of (selector_of x))) n))
    ++ dec_values ws (n - Z.min (fst (scheme_of (selector_of x))) n).
Proof.
  intros Hn. cbn [dec_values].
  replace (n <=? 0) with false by (symmetry; apply Z.leb_gt; lia).
  by destruct (scheme_of (selector_of x)).
Qed.

Lemma dec_values_length (ws : list Z) : forall n : Z,
  Forall is_u64 ws -> enough ws n -> 0 <= n ->
  Z.of_nat (length (dec_values ws n)) = n.
Proof.
  induction ws as [|x ws IH]; intros n Hu Hen Hn.
  - simpl in *. lia.
  - destruct (Z.eq_dec n 0) as [->|Hn0]; [by rewrite dec_values_nonpos|].
    apply Forall_cons in Hu as [Hx Hu].
    pose proof (scheme_of_In _ (selector_range x Hx)) as Hsch.
    apply schemes_facts in Hsch.
    rewrite dec_values_cons by lia. cbn [enough] in Hen.
    destruct (scheme_of (selector_of x)) as [c w]. cbn [fst snd] in *.
    rewrite length_app, unpack_from_length, Nat2Z.inj_add.
    destruct Hen as [Hen|Hen]; [lia|].
    rewrite IH; [lia | done | | lia].
    destruct (Z.le_gt_cases c n).
    + by rewrite Z.min_l by lia.
    + apply enough_nonpos. lia.
Qed.

(** A chain of decoder iterations that ends with [out = end] has written the
    values of the stream over the slots it started with. *)
Lemma dec_path (endp : Z) (st fin : dec_state) :
  rtc (dec_iter endp) st fin -> dec_valid endp st -> dout fin = endp ->
  decbuf fin = take (Z.to_nat (dout st)) (decbuf st)
               ++ dec_values (inw st) (endp - dout st)
               ++ drop (Z.to_nat endp) (decbuf st).
Proof.
  intros Hrtc. induction Hrtc as [a|a b c' Hab Hbc IH]; intros Hv Hend.
  - rewrite dec_values_nonpos by lia. cbn [app]. rewrite Hend. by rewrite take_drop.
  - pose proof (dec_iter_pos _ _ _ Hab) as Hpos.
    destruct (dec_iter_spec endp a b Hv Hab) as (x & rest & Hin & ->).
    destruct (dec_next_valid endp x rest a Hv Hpos Hin) as (Hvb & Hinb & Hlt & _ & Hdrop).
    rewrite (IH Hvb Hend), Hinb, Hdrop. rewrite Hin, dec_values_cons by lia.
    destruct Hv as ((Ho & _) & Hcap & Hu & _).
    rewrite Hin in Hu. apply Forall_cons in Hu as [Hx _].
    pose proof (scheme_of_In _ (selector_range x Hx)) as Hsch.
    apply schemes_facts in Hsch.
    unfold dec_next. destruct (scheme_of (selector_of x)) as [c w]. cbn [fst snd] in *.
    cbn [decbuf dout].
    set (k := Z.to_nat (Z.min c (endp - dout a))).
    replace (Z.to_nat (dout a + Z.of_nat k))
      with (length (take (Z.to_nat (dout a)) (decbuf a) ++ unpack_from w x 0 k))
      by (rewrite length_app, length_take, unpack_from_length; lia).
    rewrite (app_assoc _ (unpack_from w x 0 k)), take_app_length.
    rewrite <- !app_assoc. do 3 f_equal. f_equal. unfold k. lia.
Qed.

(** The decoder as a function of the stream and of [outputLength]. *)
Lemma Simple8bDecode_values (fuel : nat) (ws : list Z) (n : Z) (ob : list Z) :
  Forall is_u64 ws -> 0 <= n -> enough ws n ->
  n <= Z.of_nat (length ob) -> (Z.to_nat n <= fuel)%nat ->
  Simple8bDecode fuel ws n ob = Ok (dec_values ws n ++ drop (Z.to_nat n) ob, n).
Proof.
  intros Hu Hn Hen Hcap Hfuel.
  destruct (Simple8bDecode_run_spec fuel ws n ob Hu Hn Hen Hcap Hfuel)
    as (fin & Hdec & Hdout & Hrtc & _ & _).
  rewrite Hdec. do 2 f_equal.
  assert (Hdv : dec_valid n (DecState ws ob 0)).
  { unfold dec_valid. cbn [dout decbuf inw]. rewrite Z.sub_0_r.
    split_and!; try done; lia. }
  rewrite (dec_path n _ fin Hrtc Hdv Hdout). cbn [decbuf dout inw].
  change (Z.to_nat 0) with 0%nat. by rewrite take_0, Z.sub_0_r.
Qed.

(** C6. Whatever selectors the words carry, [Simple8bDecode] on a stream
    that holds enough words returns once it has fuel for [outputLength]
    iterations.  It returns [outputLength]; the output buffer then holds the
    [outputLength] values [dec_values] reads from the words, followed by the
    cells that were there from index [outputLength] on: it has written the
    first [outputLength] cells and no other.  The values depend on the words
    and on [outputLength] only.  A stream of at least [outputLength] words
    is always enough. *)
Theorem Simple8bDecode_total (fuel : nat) (ws : list Z) (outputLength : Z) (ob : list Z) :
  Forall is_u64 ws ->
  0 <= outputLength ->
  enough ws outputLength ->
  outputLength <= Z.of_nat (length ob) ->
  (Z.to_nat outputLength <= fuel)%nat ->
  (outputLength <= Z.of_nat (length ws) -> enough ws outputLength)
  /\ Simple8bDecode fuel ws outputLength ob
     = Ok (dec_values ws outputLength ++ drop (Z.to_nat outputLength) ob, outputLength)
  /\ Z.of_nat (length (dec_values ws outputLength)) = outputLength
  /\ length (dec_values ws outputLength ++ drop (Z.to_nat outputLength) ob) = length ob.
Proof.
  intros Hu Hn Hen Hcap Hfuel. split; [by apply enough_length|].
  pose proof (dec_values_length ws outputLength Hu Hen Hn) as Hlen.
  split; [by apply Simple8bDecode_values|]. split; [done|].
  rewrite length_app, length_drop. lia.
Qed.

Lemma Simple8bDecode_total_witness :
  Simple8bDecode 3 [13 * 2 ^ 60 + 2 ^ 40 + 1; 2 ^ 64 - 1] 3 [9; 9; 9; 9]
  = Ok (dec_values [13 * 2 ^ 60 + 2 ^ 40 + 1; 2 ^ 64 - 1] 3
          ++ drop (Z.to_nat 3) [9; 9; 9; 9], 3)
  /\ Z.of_nat (length (dec_values [13 * 2 ^ 60 + 2 ^ 40 + 1; 2 ^ 64 - 1] 3)) = 3.
Proof.
  destruct (Simple8bDecode_total 3 [13 * 2 ^ 60 + 2 ^ 40 + 1; 2 ^ 64 - 1] 3 [9; 9; 9; 9])
    as (_ & Hd & Hl & _).
  - repeat (constructor; [unfold is_u64; lia|]). constructor.
  - lia.
  - vm_compute. right. left. discriminate.
  - simpl; lia.
  - simpl; lia.
  - split; [exact Hd | exact Hl].
Defined.

(** ** Packing and unpacking a word *)

Lemma payload_bound (w : Z) (vs : list Z) :
  0 <= w -> Forall (fun v => 0 <= v < 2 ^ w) vs ->
  0 <= payload w vs < 2 ^ (w * Z.of_nat (length vs)).
Proof.
  intros Hw HF. induction HF as [|v vs Hv HF IH]; cbn [payload length].
  - rewrite Z.mul_0_r. simpl. lia.
  - replace (w * Z.of_nat (S (length vs))) with (w + w * Z.of_nat (length vs)) by lia.
    rewrite Z.pow_add_r by lia.
    assert (0 < 2 ^ (w * Z.of_nat (length vs))) by (apply Z.pow_pos_nonneg; lia).
    nia.
Qed.

(** The accumulator after the [WriteBits] calls: no bit is lost as long as
    the selector and the values fit in 64 bits. *)
Lemma fold_pack_step (w : Z) (vs : list Z) : forall acc a : Z,
  0 <= w -> Forall (fun v => 0 <= v < 2 ^ w) vs ->
  0 <= a -> 0 <= acc < 2 ^ a -> a + w * Z.of_nat (length vs) <= 64 ->
  fold_left (pack_step w) vs acc = acc * 2 ^ (w * Z.of_nat (length vs)) + payload w vs.
Proof.
  induction vs as [|v vs IH]; intros acc a Hw HF Ha Hacc Hfit; cbn [fold_left payload length].
  - rewrite Z.mul_0_r. simpl. lia.
  - apply Forall_cons in HF as [Hv HF]. cbn [length] in Hfit.
    assert (Hstep : pack_step w acc v = acc * 2 ^ w + v).
    { unfold pack_step. rewrite wrap64_small.
      - by apply lor_shiftl_add.
      - rewrite Z.shiftl_mul_pow2 by lia.
        assert (0 < 2 ^ w) by (apply Z.pow_pos_nonneg; lia).
        assert (2 ^ a * 2 ^ w <= 2 ^ 64).
        { rewrite <- Z.pow_add_r by lia. apply Z.pow_le_mono_r; lia. }
        nia. }
    rewrite Hstep.
    assert (0 < 2 ^ w) by (apply Z.pow_pos_nonneg; lia).
    rewrite (IH (acc * 2 ^ w + v) (a + w)); try done; try lia.
    + replace (w * Z.of_nat (S (length vs))) with (w + w * Z.of_nat (length vs)) by lia.
      rewrite Z.pow_add_r by lia. ring.
    + rewrite Z.pow_add_r by lia. nia.
Qed.

(** The word of a scheme is its selector times [2^60] plus the payload,
    left-aligned in the 60 low bits. *)
Lemma enc_word_form (sel c w : Z) (vs : list Z) :
  In (sel, c, w) schemes ->
  Forall (fun v => 0 <= v < 2 ^ w) vs ->
  Z.of_nat (length vs) <= c ->
  enc_word sel w vs
  = (sel * 2 ^ (w * Z.of_nat (length vs)) + payload w vs)
    * 2 ^ (60 - w * Z.of_nat (length vs)).
Proof.
  intros Hin HF Hlen. pose proof (schemes_facts sel c w Hin) as Hsch.
  pose proof (payload_bound w vs ltac:(lia) HF) as Hp.
  unfold enc_word. destruct (Z.eqb_spec w 0) as [->|Hw0].
  - rewrite Z.mul_0_l in *. change (2 ^ 0) with 1 in Hp.
    rewrite Z.shiftl_mul_pow2 by lia. rewrite Z.sub_0_r. change (2 ^ 0) with 1. lia.
  - unfold pack_word.
    assert (Hwn : w * Z.of_nat (length vs) <= 60) by nia.
    rewrite (fold_pack_step w vs sel 4) by (try done; lia).
    rewrite Z.shiftl_mul_pow2 by lia.
    apply wrap64_small.
    assert (0 < 2 ^ (60 - w * Z.of_nat (length vs))) by (apply Z.pow_pos_nonneg; lia).
    assert (2 ^ (w * Z.of_nat (length vs)) * 2 ^ (60 - w * Z.of_nat (length vs)) = 2 ^ 60).
    { rewrite <- Z.pow_add_r by lia. f_equal. lia. }
    nia.
Qed.

Lemma enc_word_selector (sel c w : Z) (vs : list Z) :
  In (sel, c, w) schemes ->
  Forall (fun v => 0 <= v < 2 ^ w) vs ->
  Z.of_nat (length vs) <= c ->
  is_u64 (enc_word sel w vs) /\ selector_of (enc_word sel w vs) = sel.
Proof.
  intros Hin HF Hlen. rewrite (enc_word_form sel c w vs Hin HF Hlen).
  pose proof (schemes_facts sel c w Hin) as Hsch.
  pose proof (payload_bound w vs ltac:(lia) HF) as Hp.
  assert (Hwn : w * Z.of_nat (length vs) <= 60) by nia.
  assert (Hwn0 : 0 <= w * Z.of_nat (length vs)) by nia.
  set (m := w * Z.of_nat (length vs)) in *.
  assert (H1 : 0 < 2 ^ (60 - m)) by (apply Z.pow_pos_nonneg; lia).
  assert (H2 : 2 ^ m * 2 ^ (60 - m) = 2 ^ 60).
  { rewrite <- Z.pow_add_r by lia. f_equal. lia. }
  assert (Heq : (sel * 2 ^ m + payload w vs) * 2 ^ (60 - m)
                = sel * 2 ^ 60 + payload w vs * 2 ^ (60 - m)) by nia.
  assert (Hlo : 0 <= payload w vs * 2 ^ (60 - m) < 2 ^ 60) by nia.
  rewrite Heq. split.
  - unfold is_u64. lia.
  - unfold selector_of. symmetry.
    apply Z.div_unique with (r := payload w vs * 2 ^ (60 - m)); lia.
Qed.

Lemma unpack_at_digit (w X k : Z) :
  0 <= w <= 60 -> 0 <= k -> 0 <= 60 - w - k * w ->
  unpack_at w X k = (X / 2 ^ (60 - w - k * w)) mod 2 ^ w.
Proof.
  intros Hw Hk Hs. unfold unpack_at, SIMPLE8B_SELECTOR_BITS.
  replace (64 - 4 - w - k * w) with (60 - w - k * w) by lia.
  assert (0 <= k * w <= 60) by nia.
  rewrite wrap32_small by lia.
  rewrite Z.shiftl_1_l.
  assert (0 < 2 ^ w <= 2 ^ 60) by (split; [apply Z.pow_pos_nonneg; lia | apply Z.pow_le_mono_r; lia]).
  rewrite wrap64_small by lia.
  replace (2 ^ w - 1) with (Z.ones w) by (rewrite Z.ones_equiv; lia).
  rewrite Z.land_ones by lia. by rewrite Z.shiftr_div_pow2 by lia.
Qed.

(** Reading back the digits of a payload. *)
Lemma unpack_from_payload (w : Z) (vs : list Z) : forall (k acc X : Z),
  0 <= w <= 60 -> Forall (fun v => 0 <= v < 2 ^ w) vs ->
  0 <= k -> 0 <= 60 - w * (k + Z.of_nat (length vs)) ->
  X = (acc * 2 ^ (w * Z.of_nat (length vs)) + payload w vs)
      * 2 ^ (60 - w * (k + Z.of_nat (length vs))) ->
  unpack_from w X k (length vs) = vs.
Proof.
  induction vs as [|v vs IH]; intros k acc X Hw HF Hk Hs HX; [done|].
  apply Forall_cons in HF as [Hv HF].
  cbn [length unpack_from]. cbn [length payload] in HX, Hs.
  set (n := Z.of_nat (length vs)) in *.
  replace (Z.of_nat (S (length vs))) with (n + 1) in * by lia.
  set (s := 60 - w * (k + (n + 1))) in *.
  pose proof (payload_bound w vs ltac:(lia) HF) as Hp. fold n in Hp.
  assert (Hn : 0 <= n) by lia.
  assert (Hwn : 0 <= w * n) by nia.
  assert (H2s : 0 < 2 ^ s) by (apply Z.pow_pos_nonneg; lia).
  assert (H2w : 0 < 2 ^ w) by (apply Z.pow_pos_nonneg; lia).
  assert (H2wn : 0 < 2 ^ (w * n)) by (apply Z.pow_pos_nonneg; lia).
  assert (Hpow : 2 ^ (w * (n + 1)) = 2 ^ w * 2 ^ (w * n)).
  { rewrite <- Z.pow_add_r by lia. f_equal. lia. }
  f_equal.
  - rewrite unpack_at_digit by nia.
    replace (60 - w - k * w) with (s + w * n) by (unfold s; lia).
    rewrite Z.pow_add_r by lia.
    replace (X / (2 ^ s * 2 ^ (w * n))) with (acc * 2 ^ w + v).
    + rewrite Z.add_comm, Z.mod_add by lia. apply Z.mod_small. lia.
    + apply Z.div_unique with (r := payload w vs * 2 ^ s); [nia|].
      rewrite HX, Hpow. ring.
  - apply (IH (k + 1) (acc * 2 ^ w + v) X); try done; try lia.
    fold n. replace (k + 1 + n) with (k + (n + 1)) by lia. fold s.
    rewrite HX, Hpow. ring.
Qed.

Lemma unpack_enc_word (sel c w : Z) (vs : list Z) :
  In (sel, c, w) schemes ->
  Forall (fun v => 0 <= v < 2 ^ w) vs ->
  Z.of_nat (length vs) <= c ->
  unpack_from w (enc_word sel w vs) 0 (length vs) = vs.
Proof.
  intros Hin HF Hlen. pose proof (schemes_facts sel c w Hin) as Hsch.
  apply (unpack_from_payload w vs 0 sel); try done; try lia.
  - nia.
  - rewrite Z.add_0_l. by apply (enc_word_form sel c w).
Qed.

(** ** Decoding what the encoder wrote *)

(** The values a word of [encoded] covers are in the range of its width. *)
Lemma encoded_chunk_range (xs : list Z) (sel c w : Z) :
  In (sel, c, w) schemes ->
  Forall (fun v => 0 <= v < 2 ^ 60) xs ->
  (w < 32 -> Forall (fun v => v < 2 ^ w) (take (Z.to_nat c) xs)) ->
  Forall (fun v => 0 <= v < 2 ^ w) (take (Z.to_nat c) xs).
Proof.
  intros Hin Hx Hfit. pose proof (schemes_facts sel c w Hin) as Hsch.
  apply (Forall_take _ (Z.to_nat c)) in Hx.
  destruct (Z.lt_ge_cases w 32) as [Hw|Hw].
  - specialize (Hfit Hw). rewrite Forall_forall in *.
    intros v Hv. specialize (Hx v Hv). specialize (Hfit v Hv). lia.
  - assert (w = 60) as -> by lia. done.
Qed.

Lemma encoded_words (xs ws : list Z) (rest : list Z) :
  encoded xs ws -> Forall (fun v => 0 <= v < 2 ^ 60) xs -> Forall is_u64 rest ->
  Forall is_u64 (ws ++ rest) /\ enough (ws ++ rest) (Z.of_nat (length xs)).
Proof.
  intros He. induction He as [|xs sel c w ws Hne Hin Hfit He IH]; intros Hx Hrest.
  - split; [done|]. by apply enough_nonpos.
  - pose proof (schemes_facts sel c w Hin) as Hsch.
    pose proof (encoded_chunk_range xs sel c w Hin Hx Hfit) as Hrange.
    destruct (enc_word_selector sel c w (take (Z.to_nat c) xs) Hin Hrange) as [Hu Hsel];
      [rewrite length_take; lia|].
    destruct (IH (Forall_drop _ _ _ Hx) Hrest) as [IHu IHe].
    cbn [app]. split; [by constructor|].
    cbn [enough]. rewrite Hsel, (schemes_functional sel c w Hin). cbn [fst].
    right. rewrite length_drop in IHe.
    destruct (Z.le_gt_cases c (Z.of_nat (length xs))).
    + replace (Z.of_nat (length xs) - c) with (Z.of_nat (length xs - Z.to_nat c)) by lia.
      done.
    + apply enough_nonpos. lia.
Qed.

(** The values read from words that code [xs] are [xs]. *)
Lemma dec_values_encoded (xs ws : list Z) (rest : list Z) :
  encoded xs ws -> Forall (fun v => 0 <= v < 2 ^ 60) xs ->
  dec_values (ws ++ rest) (Z.of_nat (length xs)) = xs.
Proof.
  intros He. induction He as [|xs sel c w ws Hne Hin Hfit He IH]; intros Hx.
  - by apply dec_values_nonpos.
  - pose proof (schemes_facts sel c w Hin) as Hsch.
    pose proof (encoded_chunk_range xs sel c w Hin Hx Hfit) as Hrange.
    set (vs := take (Z.to_nat c) xs) in *.
    destruct (enc_word_selector sel c w vs Hin Hrange) as [Hu Hsel];
      [unfold vs; rewrite length_take; lia|].
    assert (0 < Z.of_nat (length xs)) by (destruct xs; [done|simpl; lia]).
    cbn [app]. rewrite dec_values_cons by done.
    rewrite Hsel, (schemes_functional sel c w Hin). cbn [fst snd].
    assert (Hk : Z.to_nat (Z.min c (Z.of_nat (length xs))) = length vs)
      by (unfold vs; rewrite length_take; lia).
    rewrite Hk, (unpack_enc_word sel c w vs Hin Hrange) by lia.
    replace (Z.of_nat (length xs) - Z.min c (Z.of_nat (length xs)))
      with (Z.of_nat (length (drop (Z.to_nat c) xs))) by (rewrite length_drop; lia).
    rewrite (IH (Forall_drop _ _ _ Hx)). apply take_drop.
Qed.

(** Decoding any stream that starts with words coding [xs]. *)
Lemma Simple8bDecode_encoded (fuel : nat) (xs ws rest db : list Z) :
  encoded xs ws ->
  Forall (fun v => 0 <= v < 2 ^ 60) xs ->
  Forall is_u64 rest ->
  (length xs <= length db)%nat ->
  (length xs <= fuel)%nat ->
  Simple8bDecode fuel (ws ++ rest) (Z.of_nat (length xs)) db
  = Ok (xs ++ drop (length xs) db, Z.of_nat (length xs)).
Proof.
  intros Henc Hx Hrest Hdcap Hfuel.
  destruct (encoded_words xs ws rest Henc Hx Hrest) as [Hu Hen].
  rewrite Simple8bDecode_values by (try done; lia).
  by rewrite (dec_values_encoded xs ws rest Henc Hx), Nat2Z.id.
Qed.

(** C1. Round trip.  For values below [2^60], with an output buffer of at
    least [len x] words and fuel for [len x] iterations, [Simple8bEncode]
    returns, and [Simple8bDecode] applied to the words it wrote (followed
    by anything), with [outputLength = len x], returns [len x] and has
    written exactly [x] over the first [len x] cells of its output buffer. *)
Theorem Simple8b_roundtrip (fuel : nat) (x ob db rest : list Z) :
  Forall (fun v => 0 <= v < 2 ^ 60) x ->
  Z.of_nat (length x) < 2 ^ 64 ->
  (length x <= length ob)%nat ->
  (length x <= length db)%nat ->
  (length x <= fuel)%nat ->
  Forall is_u64 rest ->
  exists (ob' : list Z) (n : Z),
    Simple8bEncode fuel x (Z.of_nat (length x)) ob = Ok (ob', n)
    /\ Simple8bDecode fuel (take (Z.to_nat n) ob' ++ rest) (Z.of_nat (length x)) db
       = Ok (x ++ drop (length x) db, Z.of_nat (length x)).
Proof.
  intros Hx H64 Hcap Hdcap Hfuel Hrest.
  destruct (Simple8bEncode_run_spec fuel x ob H64 Hcap Hfuel)
    as (fin & Hrun & Hvf & Hnil & Hrtc).
  assert (Hv0 : enc_valid (enc_init x (Z.of_nat (length x)) ob))
    by (unfold enc_valid, enc_init; simpl; lia).
  destruct (enc_path _ fin Hv0 Hrtc)
    as (_ & _ & k & ws & _ & Hk & Hlen & Hout & Hbuf & Henc).
  unfold enc_init in Hk, Hout, Hbuf, Henc. cbn [input outbuf out] in Hk, Hout, Hbuf, Henc.
  change (Z.to_nat 0) with 0%nat in Hbuf. rewrite take_0 in Hbuf.
  cbn [app Nat.add] in Hbuf.
  specialize (Henc [] ltac:(rewrite Hnil; constructor)). rewrite app_nil_r in Henc.
  exists (outbuf fin), (out fin - 0). split.
  { unfold Simple8bEncode. by rewrite Hrun. }
  replace (Z.to_nat (out fin - 0)) with (length ws) by lia.
  rewrite Hbuf, take_app_length.
  by apply Simple8bDecode_encoded.
Qed.

Lemma Simple8b_roundtrip_witness :
  exists (ob' : list Z) (n : Z),
    Simple8bEncode 5 [1; 0; 1; 2 ^ 40; 7] 5 [9; 9; 9; 9; 9] = Ok (ob', n)
    /\ Simple8bDecode 5 (take (Z.to_nat n) ob' ++ [3]) 5 [8; 8; 8; 8; 8; 8]
       = Ok ([1; 0; 1; 2 ^ 40; 7] ++ drop 5 [8; 8; 8; 8; 8; 8], 5).
Proof.
  apply (Simple8b_roundtrip 5 [1; 0; 1; 2 ^ 40; 7] [9; 9; 9; 9; 9] [8; 8; 8; 8; 8; 8] [3]).
  - repeat (constructor; [lia|]). constructor.
  - simpl; lia.
  - simpl; lia.
  - simpl; lia.
  - simpl; lia.
  - repeat (constructor; [unfold is_u64; lia|]). constructor.
Defined.

(** ** Runs of zeros *)

Lemma while_true {S : Type} (cond : S -> bool) (body : S -> result S)
    (fuel : nat) (s : S) :
  cond s = true ->
  while cond body (Datatypes.S fuel) s = body s ≫= while cond body fuel.
Proof. intros H. simpl. by rewrite H. Qed.

Lemma while_false {S : Type} (cond : S -> bool) (body : S -> result S)
    (fuel : nat) (s : S) :
  cond s = false -> while cond body fuel s = Ok s.
Proof. intros H. destruct fuel; simpl; by rewrite H. Qed.

(** C4. 240 zeros are coded as the single word 0 (selector 0, no payload)
    and [Simple8bEncode] returns 1; decoding that word with
    [outputLength = 240] writes 240 zeros.  While at least 240 values
    remain, 120 zeros followed by 120 values that are not all zero are coded
    as one word of selector 1 ([1 << 60]), and the cursor moves past the 120
    zeros. *)
Theorem zero_runs :
  (forall (fuel : nat) (w0 : Z) (rest : list Z),
      (1 <= fuel)%nat ->
      Simple8bEncode fuel (replicate 240 0) 240 (w0 :: rest) = Ok (0 :: rest, 1))
  /\ (forall (fuel : nat) (rest db : list Z),
        (240 <= fuel)%nat -> (240 <= length db)%nat -> Forall is_u64 rest ->
        Simple8bDecode fuel (0 :: rest) 240 db = Ok (replicate 240 0 ++ drop 240 db, 240))
  /\ (forall st : enc_state,
        enc_valid st ->
        240 <= ValuesRemaining st ->
        Forall (fun v => 0 <= v) (input st) ->
        Forall (fun v => v = 0) (take 120 (input st)) ->
        ~ Forall (fun v => v = 0) (take 120 (drop 120 (input st))) ->
        enc_iter st (EncState (drop 120 (input st))
                       (<[Z.to_nat (out st) := Z.shiftl 1 60]> (outbuf st))
                       (out st + 1) 120 (ValuesRemaining st - 120) (no_scheme st))
        /\ GetSelectorNum [Z.shiftl 1 60] = Ok 1
        /\ scheme_of 1 = (120, 0)).
Proof.
  split_and!.
  - intros fuel w0 rest Hfuel. destruct fuel as [|fuel]; [lia|].
    unfold Simple8bEncode, Simple8bEncode_run.
    rewrite while_true by reflexivity.
    replace (fast_body (enc_init (replicate 240 0) 240 (w0 :: rest)))
      with (Ok (EncState [] (0 :: rest) 1 240 0 false)) by (vm_compute; reflexivity).
    rewrite bind_ret_l.
    rewrite while_false by reflexivity. rewrite bind_ret_l.
    rewrite while_false by reflexivity. reflexivity.
  - intros fuel rest db Hfuel Hdb Hrest.
    apply (Simple8bDecode_encoded fuel (replicate 240 0) [0] rest db);
      [| by apply Forall_replicate | done | by rewrite length_replicate
       | by rewrite length_replicate].
    change [0] with [enc_word 0 0 (take (Z.to_nat 240) (replicate 240 0))].
    apply encoded_cons with (c := 240); [done | in_schemes | |].
    + intros _. apply Forall_take, Forall_replicate. lia.
    + change (drop (Z.to_nat 240) (replicate 240 0)) with (@nil Z). constructor.
  - intros st Hv Hr Hnn Hz Hnz.
    split; [|split; [reflexivity|reflexivity]].
    left. split; [done|].
    pose proof Hv as (Hlen & _).
    destruct (TryPack_narrow 120 0 (input st)) as (b1 & Hb1 & Hi1); [lia|lia|].
    destruct (TryPack_narrow 120 0 (drop 120 (input st))) as (b2 & Hb2 & Hi2);
      [lia | rewrite length_drop; lia |].
    assert (b1 = true) as ->.
    { apply Hi1. eapply Forall_impl; [exact Hz|]. simpl. intros v ->. lia. }
    assert (b2 = false) as ->.
    { destruct b2; [|done]. exfalso. apply Hnz.
      assert (Hlt : Forall (fun v => v < 2 ^ 0) (take 120 (drop 120 (input st))))
        by (by apply Hi2).
      apply (Forall_drop _ 120), (Forall_take _ 120) in Hnn.
      rewrite Forall_forall in *. intros v Hin.
      specialize (Hlt v Hin). specialize (Hnn v Hin).
      change (2 ^ 0) with 1 in Hlt. lia. }
    unfold fast_body. cbv zeta.
    rewrite Hb1, bind_ret_l. cbv beta iota. rewrite Hb2, bind_ret_l. cbv beta iota.
    rewrite (zero_branch 1 120) by (try done; lia).
    unfold enc_next. cbv zeta.
    change (enc_word 1 0 (take (Z.to_nat 120) (input st))) with (Z.shiftl 1 60).
    rewrite length_take_Z by lia. rewrite <- Hlen.
    rewrite Z.min_l by lia. reflexivity.
Qed.

Lemma zero_runs_witness :
  Simple8bEncode 1 (replicate 240 0) 240 [7] = Ok ([0], 1)
  /\ Simple8bDecode 240 [0] 240 (replicate 240 5)
     = Ok (replicate 240 0 ++ drop 240 (replicate 240 5), 240)
  /\ enc_iter (EncState (replicate 120 0 ++ 5 :: replicate 119 0) (replicate 240 9) 0 0 240 false)
       (EncState (drop 120 (replicate 120 0 ++ 5 :: replicate 119 0))
          (<[Z.to_nat 0 := Z.shiftl 1 60]> (replicate 240 9)) (0 + 1) 120 (240 - 120) false).
Proof.
  destruct zero_runs as (HA & HB & HC).
  split; [apply HA; lia|]. split.
  - apply HB; [lia | rewrite length_replicate; lia | constructor].
  - apply (HC (EncState (replicate 120 0 ++ 5 :: replicate 119 0) (replicate 240 9) 0 0 240 false)).
    + unfold enc_valid. simpl. lia.
    + simpl. lia.
    + simpl. repeat (constructor; [lia|]). constructor.
    + simpl. repeat (constructor; [reflexivity|]). constructor.
    + simpl. intros H. apply Forall_cons in H as [H _]. discriminate H.
Defined.

(** ** The round trip at the boundary between the two loops *)

(** [ok xs]: encode [xs] into a buffer of [len xs] words, decode the words
    written into a buffer of [len xs] cells, and compare.  Lengths 0, 239,
    240 and 241 sit on both sides of the switch from the first loop to the
    second one. *)
Example roundtrip_lengths :
  let ramp (n : nat) := map (fun k => Z.of_nat k * 2 ^ 20) (seq 0 n) in
  let ok (xs : list Z) :=
    match Simple8bEncode (length xs) xs (Z.of_nat (length xs)) (replicate (length xs) 7) with
    | Ok (ws, n) =>
        match Simple8bDecode (length xs) (take (Z.to_nat n) ws) (Z.of_nat (length xs))
                (replicate (length xs) 5) with
        | Ok (ys, m) => bool_decide (ys = xs) && (m =? Z.of_nat (length xs))
        | _ => false
        end
    | _ => false
    end in
  ok [] = true /\ ok (ramp 239%nat) = true /\ ok (ramp 240%nat) = true
  /\ ok (ramp 241%nat) = true
  /\ ok (replicate 239 0) = true /\ ok (replicate 241 0) = true.
Proof. vm_compute. repeat split. Qed.

(** * Part III: further properties of the same functions *)

(** ** Zig-zag transform on buffers *)

Lemma map_loop_spec (f : Z -> Z) (l : list Z) : forall (pre suf : list Z),
  map_loop f (length l) (Z.of_nat (length pre)) (pre ++ l ++ suf)
  = Ok (pre ++ map f l ++ suf).
Proof.
  induction l as [|x l IH]; intros pre suf; [done|].
  cbn [length map_loop app map].
  rewrite (load_app_mid pre (l ++ suf) x) by done. rewrite bind_ret_l.
  rewrite (store_app_mid pre (l ++ suf) x) by done. rewrite bind_ret_l.
  specialize (IH (pre ++ [f x]) suf).
  rewrite length_app in IH. cbn [length] in IH.
  replace (Z.of_nat (length pre) + 1) with (Z.of_nat (length pre + 1)) by lia.
  rewrite <- !app_assoc in IH. cbn [app] in IH. exact IH.
Qed.

(** Where the left shift does not overflow, [zigzag_enc] is [2x] for a
    non-negative [x] and [-2x - 1] for a negative one. *)
Lemma zigzag_enc_value (x : Z) :
  - 2 ^ 62 <= x < 2 ^ 62 ->
  zigzag_enc x = if 0 <=? x then 2 * x else - 2 * x - 1.
Proof.
  intros Hx. unfold zigzag_enc.
  rewrite Z.shiftl_mul_pow2 by lia. change (2 ^ 1) with 2.
  rewrite swrap64_id by (unfold is_i64; lia).
  rewrite Z.shiftr_div_pow2 by lia.
  destruct (Z.leb_spec 0 x) as [Hpos|Hneg].
  - rewrite (Z.div_small x (2 ^ 63)) by lia. rewrite Z.lxor_0_r. lia.
  - replace (x / 2 ^ 63) with (-1) by (apply Z.div_unique with (r := x + 2 ^ 63); lia).
    rewrite Z.lxor_m1_r. unfold Z.lnot. lia.
Qed.

(** On encoded values without the sign bit the decoder is also a right
    inverse. *)
Lemma zigzag_enc_dec (y : Z) :
  0 <= y < 2 ^ 63 ->
  - 2 ^ 62 <= zigzag_dec y < 2 ^ 62 /\ zigzag_enc (zigzag_dec y) = y.
Proof.
  intros Hy.
  assert (Hd : zigzag_dec y = if Z.even y then y / 2 else - (y / 2) - 1).
  { unfold zigzag_dec. rewrite Z.shiftr_div_pow2 by lia. change (2 ^ 1) with 2.
    rewrite land_1. rewrite Zmod_even.
    destruct (Z.even y).
    - change (swrap64 (- 0)) with 0. apply Z.lxor_0_r.
    - change (swrap64 (- 1)) with (-1). rewrite Z.lxor_m1_r. unfold Z.lnot. lia. }
  pose proof (Z.div_mod y 2 ltac:(lia)) as Hdm. rewrite Zmod_even in Hdm.
  rewrite Hd. destruct (Z.even y).
  - split; [lia|]. rewrite zigzag_enc_value by lia.
    replace (0 <=? y / 2) with true by (symmetry; apply Z.leb_le; lia). lia.
  - split; [lia|]. rewrite zigzag_enc_value by lia.
    replace (0 <=? - (y / 2) - 1) with false by (symmetry; apply Z.leb_gt; lia). lia.
Qed.

(** X1. On a buffer whose values lie in [-2^62, 2^62), [ZigZagEncode] writes
    [2x] for each non-negative [x] and [-2x - 1] for each negative one, so
    every encoded value is in [0, 2^63), and [ZigZagDecode] restores the
    buffer.  Cells beyond [length] are not touched. *)
Theorem ZigZag_roundtrip_small (buf rest : list Z) :
  Forall (fun x => - 2 ^ 62 <= x < 2 ^ 62) buf ->
  let enc := map (fun x => if 0 <=? x then 2 * x else - 2 * x - 1) buf in
  ZigZagEncode (buf ++ rest) (Z.of_nat (length buf)) = Ok (enc ++ rest)
  /\ Forall (fun y => 0 <= y < 2 ^ 63) enc
  /\ ZigZagDecode (enc ++ rest) (Z.of_nat (length buf)) = Ok (buf ++ rest).
Proof.
  intros Hb enc.
  assert (Henc : enc = map zigzag_enc buf).
  { unfold enc. apply map_ext_Forall. eapply Forall_impl; [exact Hb|].
    intros x Hx. simpl. by rewrite zigzag_enc_value. }
  split_and!.
  - unfold ZigZagEncode. rewrite Nat2Z.id.
    pose proof (map_loop_spec zigzag_enc buf [] rest) as H. cbn [app length] in H.
    rewrite Henc. exact H.
  - unfold enc. apply Forall_map. eapply Forall_impl; [exact Hb|].
    intros x Hx. cbv beta in *. destruct (Z.leb_spec 0 x); lia.
  - unfold ZigZagDecode. rewrite Nat2Z.id.
    pose proof (map_loop_spec zigzag_dec enc [] rest) as H. cbn [app length] in H.
    assert (Hl : length enc = length buf) by (unfold enc; by rewrite length_map).
    rewrite Hl in H. change (Z.of_nat 0) with 0 in H. rewrite H. do 2 f_equal.
    rewrite Henc, map_map. rewrite <- (map_id buf) at 2.
    apply map_ext_Forall. eapply Forall_impl; [exact Hb|].
    intros x Hx. simpl. by apply zigzag_dec_enc.
Qed.

Lemma ZigZag_roundtrip_small_witness :
  ZigZagEncode ([0; -1; 1; -2; 2 ^ 62 - 1] ++ [9]) 5
  = Ok ([0; 1; 2; 3; 2 ^ 63 - 2] ++ [9])
  /\ ZigZagDecode ([0; 1; 2; 3; 2 ^ 63 - 2] ++ [9]) 5
     = Ok ([0; -1; 1; -2; 2 ^ 62 - 1] ++ [9]).
Proof.
  destruct (ZigZag_roundtrip_small [0; -1; 1; -2; 2 ^ 62 - 1] [9]) as (He & _ & Hd).
  - repeat (constructor; [lia|]). constructor.
  - split; [exact He | exact Hd].
Defined.

(** ** Delta transform: the other composition and the bounds *)

Lemma swrap64_add_sub (d p : Z) : is_i64 d -> swrap64 (swrap64 (d + p) - p) = d.
Proof.
  intros Hd. unfold swrap64.
  replace ((d + p + 2 ^ 63) mod 2 ^ 64 - 2 ^ 63 - p + 2 ^ 63)
    with ((d + p + 2 ^ 63) mod 2 ^ 64 - p) by lia.
  rewrite Zminus_mod_idemp_l.
  replace (d + p + 2 ^ 63 - p) with (d + 2 ^ 63) by lia.
  unfold is_i64 in Hd. rewrite Z.mod_small; lia.
Qed.

Lemma deltas_sums (prev : Z) (l : list Z) :
  Forall is_i64 l -> deltas prev (sums prev l) = l.
Proof.
  intros H. revert prev. induction H as [|d l Hd Hl IH]; intros prev; simpl; [done|].
  rewrite swrap64_add_sub by done. by rewrite IH.
Qed.

Lemma sums_length (prev : Z) (l : list Z) : length (sums prev l) = length l.
Proof. revert prev. induction l as [|x l IH]; intros prev; simpl; [done|]. by rewrite IH. Qed.

(** X2. [DeltaDecode] followed by [DeltaEncode] is also the identity: on a
    buffer of signed 64-bit integers of length at least 1, [DeltaDecode]
    returns, and [DeltaEncode] applied to its result restores the buffer.
    With C3 this makes the two transforms inverse bijections. *)
Theorem Delta_decode_encode (buf rest : list Z) :
  Forall is_i64 buf ->
  1 <= Z.of_nat (length buf) < 2 ^ 64 ->
  exists dec,
    DeltaDecode (buf ++ rest) (Z.of_nat (length buf)) = Ok (dec ++ rest)
    /\ length dec = length buf
    /\ Forall is_i64 dec
    /\ DeltaEncode (dec ++ rest) (Z.of_nat (length buf)) = Ok (buf ++ rest).
Proof.
  intros Hr Hlen. destruct buf as [|x0 l]; [simpl in Hlen; lia|].
  apply Forall_cons in Hr as [Hx0 Hl].
  exists (x0 :: sums x0 l).
  split_and!.
  - unfold DeltaDecode.
    replace (Z.to_nat (Z.of_nat (length (x0 :: l)) - 1)) with (length l)
      by (cbn [length]; lia).
    pose proof (DeltaDecode_loop_spec l [] x0 rest) as H.
    cbn [app length] in H. change (Z.of_nat 0 + 1) with 1 in H. exact H.
  - cbn [length]. by rewrite sums_length.
  - constructor; [done|]. clear Hl Hlen. generalize x0 at 1. clear.
    induction l as [|d l IH]; intros p; simpl; constructor.
    + apply swrap64_range.
    + apply IH.
  - unfold DeltaEncode.
    assert (Hw : wrap64 (Z.of_nat (length (x0 :: l)) - 1) = Z.of_nat (length (sums x0 l))).
    { rewrite sums_length. unfold wrap64. cbn [length] in *. rewrite Z.mod_small; lia. }
    rewrite Hw. cbv zeta. rewrite Nat2Z.id. cbn [app].
    rewrite DeltaEncode_loop_spec. by rewrite deltas_sums.
Qed.

Lemma Delta_decode_encode_witness :
  exists dec,
    DeltaDecode ([10; 2; -1] ++ [7]) 3 = Ok (dec ++ [7])
    /\ DeltaEncode (dec ++ [7]) 3 = Ok ([10; 2; -1] ++ [7]).
Proof.
  destruct (Delta_decode_encode [10; 2; -1] [7]) as (dec & Hd & _ & _ & He).
  - repeat (constructor; [unfold is_i64; lia|]). constructor.
  - simpl; lia.
  - exists dec. split; [exact Hd | exact He].
Defined.

Lemma DeltaDecode_loop_oob (l : list Z) : forall (pre : list Z) (p : Z) (m : nat),
  DeltaDecode_loop (length l + S m) (Z.of_nat (length pre) + 1) (pre ++ p :: l)
  = OutOfBounds.
Proof.
  induction l as [|d l IH]; intros pre p m.
  - cbn [length Nat.add DeltaDecode_loop].
    rewrite (load_oob (pre ++ [p]) (Z.of_nat (length pre) + 1)); [done|].
    rewrite length_app. cbn [length]. lia.
  - cbn [length Nat.add DeltaDecode_loop].
    assert (Hlen : Z.of_nat (length pre) + 1 = Z.of_nat (length (pre ++ [p])))
      by (rewrite length_app; cbn [length]; lia).
    replace (pre ++ p :: d :: l) with ((pre ++ [p]) ++ d :: l)
      by (by rewrite <- app_assoc).
    rewrite (load_app_mid (pre ++ [p]) l d (Z.of_nat (length pre) + 1)) by done.
    rewrite bind_ret_l.
    rewrite <- (app_assoc pre [p]). cbn [app].
    rewrite (load_app_mid pre (d :: l) p) by lia.
    rewrite bind_ret_l.
    replace (pre ++ p :: d :: l) with ((pre ++ [p]) ++ d :: l)
      by (by rewrite <- app_assoc).
    rewrite (store_app_mid (pre ++ [p]) l d) by done.
    rewrite bind_ret_l. rewrite Hlen. apply IH.
Qed.

(** X3. Bounds of the delta transforms.  With a [length] of 2 or more that
    exceeds the size of the buffer both transforms run off the end of the
    buffer; [DeltaDecode] returns for every [length] up to the size of the
    buffer, 0 included (where [DeltaEncode] does not, see C10), and for
    [length] 0 or 1 it leaves the buffer as it is. *)
Theorem Delta_bounds (buf : list Z) (length : Z) :
  Z.of_nat (List.length buf) < length -> 2 <= length < 2 ^ 64 ->
  DeltaEncode buf length = OutOfBounds
  /\ DeltaDecode buf length = OutOfBounds
  /\ DeltaDecode buf 0 = Ok buf
  /\ DeltaDecode buf 1 = Ok buf
  /\ (forall n : Z, 0 <= n <= Z.of_nat (List.length buf) ->
        exists dec, DeltaDecode buf n = Ok dec).
Proof.
  intros Hbig Hlen. split_and!.
  - unfold DeltaEncode. cbv zeta.
    rewrite (wrap64_small (length - 1)) by lia.
    destruct (Z.to_nat (length - 1)) as [|k] eqn:Hk; [lia|].
    cbn [DeltaEncode_loop]. by rewrite (load_oob buf (length - 1)) by lia.
  - unfold DeltaDecode.
    destruct buf as [|x0 l].
    + destruct (Z.to_nat (length - 1)) as [|k] eqn:Hk; [lia|].
      cbn [DeltaDecode_loop]. by rewrite (load_oob [] 1) by (simpl; lia).
    + cbn [List.length] in Hbig.
      replace (Z.to_nat (length - 1))
        with (List.length l + S (Z.to_nat (length - 1) - List.length l - 1))%nat by lia.
      apply (DeltaDecode_loop_oob l [] x0).
  - reflexivity.
  - reflexivity.
  - intros n Hn. unfold DeltaDecode.
    destruct buf as [|x0 l].
    + replace (Z.to_nat (n - 1)) with 0%nat by (simpl in Hn; lia). by eexists.
    + cbn [List.length] in Hn.
      pose proof (DeltaDecode_loop_spec (take (Z.to_nat (n - 1)) l) [] x0
                    (drop (Z.to_nat (n - 1)) l)) as H.
      rewrite take_drop, length_take in H. cbn [app List.length] in H.
      change (Z.of_nat 0 + 1) with 1 in H.
      replace (Z.to_nat (n - 1) `min` List.length l)%nat with (Z.to_nat (n - 1)) in H by lia.
      eauto.
Qed.

Lemma Delta_bounds_witness :
  DeltaEncode [10; 12; 11] 4 = OutOfBounds
  /\ DeltaDecode [10; 2; -1] 4 = OutOfBounds
  /\ DeltaDecode [10; 2; -1] 0 = Ok [10; 2; -1].
Proof.
  destruct (Delta_bounds [10; 12; 11] 4) as (He & _); [simpl; lia | lia |].
  destruct (Delta_bounds [10; 2; -1] 4) as (_ & Hd & H0 & _); [simpl; lia | lia |].
  split; [exact He|]. split; [exact Hd | exact H0].
Defined.

(** ** Fit tests at the end of the buffer *)

Lemma TryPack_loop_false (w : Z) (n : list Z) (cnt : nat) : forall i : nat,
  0 <= w ->
  ~ Forall (fun v => v < 2 ^ w) (take cnt (drop i n)) ->
  TryPack_loop w n cnt (Z.of_nat i) = Ok false.
Proof.
  induction cnt as [|cnt IH]; intros i Hw Hnf.
  - exfalso. apply Hnf. rewrite take_0. constructor.
  - destruct (n !! i) as [v|] eqn:Hv.
    + cbn [TryPack_loop].
      rewrite (load_Ok n (Z.of_nat i) v) by (try lia; by rewrite Nat2Z.id).
      rewrite bind_ret_l, Z.shiftl_1_l.
      rewrite (drop_S _ _ _ Hv), firstn_cons in Hnf.
      destruct (Z.leb_spec (2 ^ w) v) as [Hge|Hlt]; [done|].
      replace (Z.of_nat i + 1) with (Z.of_nat (S i)) by lia.
      apply IH; [done|]. intros HF. apply Hnf. by constructor.
    + exfalso. apply Hnf. apply lookup_ge_None in Hv.
      rewrite drop_ge by lia. rewrite take_nil. constructor.
Qed.

Lemma TryPack_loop_oob (w : Z) (n : list Z) (cnt : nat) : forall i : nat,
  0 <= w ->
  (i <= length n < i + cnt)%nat ->
  Forall (fun v => v < 2 ^ w) (drop i n) ->
  TryPack_loop w n cnt (Z.of_nat i) = OutOfBounds.
Proof.
  induction cnt as [|cnt IH]; intros i Hw Hi HF; [lia|].
  cbn [TryPack_loop].
  destruct (n !! i) as [v|] eqn:Hv.
  - rewrite (load_Ok n (Z.of_nat i) v) by (try lia; by rewrite Nat2Z.id).
    rewrite bind_ret_l, Z.shiftl_1_l.
    rewrite (drop_S _ _ _ Hv) in HF. apply Forall_cons in HF as [Hlt HF].
    replace (2 ^ w <=? v) with false by (symmetry; apply Z.leb_gt; lia).
    replace (Z.of_nat i + 1) with (Z.of_nat (S i)) by lia.
    apply lookup_lt_Some in Hv. apply IH; [done|lia|done].
  - apply lookup_ge_None in Hv. by rewrite load_oob by lia.
Qed.

(** X4. What the fit tests do near the end of the buffer, for a width below
    32.  [TryPackCareful] reads at most [maxIntegers] values: when that many
    are present it returns, with the answer for the first
    [min(count, maxIntegers)] values.  [TryPackFast] has no such clamp: it
    returns false as soon as it meets a value that is too wide, and when
    fewer than [count] values are present and all of them fit it reads past
    the end of the buffer. *)
Theorem TryPack_bounds (count width : Z) (n : list Z) (maxIntegers : Z) :
  0 <= width < 32 -> 0 <= count ->
  (0 <= maxIntegers <= Z.of_nat (length n) ->
     exists b : bool,
       TryPackCareful count width n maxIntegers = Ok b
       /\ (b = true <->
           Forall (fun v => v < 2 ^ width)
             (take (Z.to_nat (Z.min count maxIntegers)) n)))
  /\ (~ Forall (fun v => v < 2 ^ width) (take (Z.to_nat count) n) ->
      TryPackFast count width n = Ok false)
  /\ (Z.of_nat (length n) < count -> Forall (fun v => v < 2 ^ width) n ->
      TryPackFast count width n = OutOfBounds).
Proof.
  intros Hw Hc. split_and!.
  - intros Hm. rewrite TryPackCareful_clamp. apply TryPack_narrow; lia.
  - intros Hnf. unfold TryPackFast.
    replace (32 <=? width) with false by (symmetry; apply Z.leb_gt; lia).
    apply (TryPack_loop_false width n (Z.to_nat count) 0); [lia|]. by rewrite drop_0.
  - intros Hshort HF. unfold TryPackFast.
    replace (32 <=? width) with false by (symmetry; apply Z.leb_gt; lia).
    apply (TryPack_loop_oob width n (Z.to_nat count) 0); [lia|lia|]. by rewrite drop_0.
Qed.

Lemma TryPack_bounds_witness :
  (exists b : bool,
     TryPackCareful 30 2 [1; 3; 2] 3 = Ok b
     /\ (b = true <->
         Forall (fun v => v < 2 ^ 2) (take (Z.to_nat (Z.min 30 3)) [1; 3; 2])))
  /\ TryPackFast 30 2 [1; 9; 2] = Ok false
  /\ TryPackFast 30 2 [1; 3; 2] = OutOfBounds.
Proof.
  destruct (TryPack_bounds 30 2 [1; 3; 2] 3) as (H1 & _ & H3); [lia|lia|].
  destruct (TryPack_bounds 30 2 [1; 9; 2] 3) as (_ & H2 & _); [lia|lia|].
  split; [apply H1; simpl; lia|]. split.
  - apply H2. simpl. intros H. apply Forall_cons in H as [_ H].
    apply Forall_cons in H as [H _]. lia.
  - apply H3; [simpl; lia|]. repeat (constructor; [lia|]). constructor.
Defined.

(** ** The encoder picks the first scheme that fits *)

Lemma fitsb_true (w : Z) (vs : list Z) :
  (w < 32 -> Forall (fun v => v < 2 ^ w) vs) -> fitsb w vs = true.
Proof.
  intros H. unfold fitsb. destruct (Z.leb_spec 32 w) as [|Hw]; [done|].
  cbn [orb]. apply forallb_forall. specialize (H Hw).
  rewrite List.Forall_forall in H. intros v Hv. apply Z.ltb_lt. by apply H.
Qed.

Lemma fitsb_false (w : Z) (vs : list Z) :
  w < 32 /\ ~ Forall (fun v => v < 2 ^ w) vs -> fitsb w vs = false.
Proof.
  intros [Hw Hnf]. unfold fitsb.
  replace (32 <=? w) with false by (symmetry; apply Z.leb_gt; lia). cbn [orb].
  apply not_true_is_false. intros Hall. apply Hnf.
  rewrite forallb_forall in Hall. apply List.Forall_forall.
  intros v Hv. apply Z.ltb_lt. by apply Hall.
Qed.

Lemma not_Forall_take_more {A : Type} (P : A -> Prop) (l : list A) (n m : nat) :
  (n <= m)%nat -> ~ Forall P (take n l) -> ~ Forall P (take m l).
Proof.
  intros Hnm Hn Hm. apply Hn.
  replace (take n l) with (take n (take m l)) by (rewrite take_take; f_equal; lia).
  by apply Forall_take.
Qed.

(** Close a branch: every earlier test of the table failed, this one passed. *)
Ltac first_picked sel c w H :=
  exists sel, c, w; split; [| reflexivity];
  unfold choose, schemes; cbn [find fst snd];
  repeat match goal with
         | Hf : _ < 32 /\ ~ Forall _ _ |- _ => rewrite (fitsb_false _ _ Hf); clear Hf
         end;
  cbv iota; rewrite (fitsb_true _ _ H); reflexivity.

Ltac fast_link1 Hv :=
  lazymatch goal with
  | |- picks_first ?st (mbind _ (mbind _ (TryPackFast ?c ?w ?inp))) =>
      let b := fresh "b" in
      let Hb := fresh "Hb" in
      let Ht := fresh "Ht" in
      let Hf := fresh "Hf" in
      destruct (fit_fast c w inp) as (b & Hb & Ht & Hf);
      [ lia | destruct Hv as (? & ? & ? & ?); lia | ];
      rewrite Hb, (bind_ret_l _ b); destruct b; cbv beta iota;
      [ specialize (Ht eq_refl); clear Hf | specialize (Hf eq_refl); clear Ht ]
  end.

Ltac careful_link1 Hv :=
  lazymatch goal with
  | |- picks_first ?st (mbind _ (mbind _ (TryPackCareful ?c ?w ?inp ?r))) =>
      let b := fresh "b" in
      let Hb := fresh "Hb" in
      let Ht := fresh "Ht" in
      let Hf := fresh "Hf" in
      destruct (fit_careful c w inp r) as (b & Hb & Ht & Hf);
      [ lia | lia | by destruct Hv as (? & ?) | ];
      rewrite Hb, (bind_ret_l _ b); destruct b; cbv beta iota;
      [ specialize (Ht eq_refl); clear Hf | specialize (Hf eq_refl); clear Ht ]
  end.

Lemma fast_body_first (st : enc_state) :
  enc_valid st -> 240 <= ValuesRemaining st -> picks_first st (fast_body st).
Proof.
  intros Hv Hr. unfold fast_body. cbv zeta.
  fast_link1 Hv.
  { destruct (fit_fast 120 0 (drop 120 (input st))) as (b' & Hb' & Ht' & Hf');
      [ lia | destruct Hv as (? & ? & ? & ?); rewrite length_drop; lia | ].
    rewrite Hb', (bind_ret_l _ b'). destruct b'; cbv beta iota.
    - rewrite (zero_branch 0 240) by (try done; lia).
      assert (H240 : 0 < 32 -> Forall (fun v => v < 2 ^ 0) (take (Z.to_nat 240) (input st))).
      { intros _. change (Z.to_nat 240) with (120 + 120)%nat.
        rewrite <- take_take_drop. apply Forall_app. split; [by apply Ht | by apply Ht']. }
      clear Ht Ht' Hf'. first_picked 0 240 0 H240.
    - rewrite (zero_branch 1 120) by (try done; lia).
      specialize (Hf' eq_refl). clear Ht'.
      assert (H240 : 0 < 32 /\ ~ Forall (fun v => v < 2 ^ 0) (take (Z.to_nat 240) (input st))).
      { split; [lia|]. change (Z.to_nat 240) with (120 + 120)%nat.
        rewrite <- take_take_drop. intros HF. apply Forall_app in HF as [_ HF].
        by apply Hf'. }
      clear Hf'. first_picked 1 120 0 Ht. }
  assert (H240 : 0 < 32 /\ ~ Forall (fun v => v < 2 ^ 0) (take (Z.to_nat 240) (input st))).
  { split; [lia|]. apply (not_Forall_take_more _ _ (Z.to_nat 120)); [lia|]. apply Hf. }
  fast_link1 Hv.
  { rewrite (pack_branch 2 60) by (try done; lia). first_picked 2 60 1 Ht. }
  fast_link1 Hv.
  { rewrite (pack_branch 3 30) by (try done; lia). first_picked 3 30 2 Ht. }
  fast_link1 Hv.
  { rewrite (pack_branch 4 20) by (try done; lia). first_picked 4 20 3 Ht. }
  fast_link1 Hv.
  { rewrite (pack_branch 5 15) by (try done; lia). first_picked 5 15 4 Ht. }
  fast_link1 Hv.
  { rewrite (pack_branch 6 12) by (try done; lia). first_picked 6 12 5 Ht. }
  fast_link1 Hv.
  { rewrite (pack_branch 7 10) by (try done; lia). first_picked 7 10 6 Ht. }
  fast_link1 Hv.
  { rewrite (pack_branch 8 8) by (try done; lia). first_picked 8 8 7 Ht. }
  fast_link1 Hv.
  { rewrite (pack_branch 9 7) by (try done; lia). first_picked 9 7 8 Ht. }
  fast_link1 Hv.
  { rewrite (pack_branch 10 6) by (try done; lia). first_picked 10 6 10 Ht. }
  fast_link1 Hv.
  { rewrite (pack_branch 11 5) by (try done; lia). first_picked 11 5 12 Ht. }
  fast_link1 Hv.
  { rewrite (pack_branch 12 4) by (try done; lia). first_picked 12 4 15 Ht. }
  fast_link1 Hv.
  { rewrite (pack_branch 13 3) by (try done; lia). first_picked 13 3 20 Ht. }
  fast_link1 Hv.
  { rewrite (pack_branch 14 2) by (try done; lia). first_picked 14 2 30 Ht. }
  fast_link1 Hv.
  { rewrite (pack_branch 15 1) by (try done; lia). first_picked 15 1 60 Ht. }
  lia.
Qed.

Lemma careful_body_first (st : enc_state) :
  enc_valid st -> 0 < ValuesRemaining st -> picks_first st (careful_body st).
Proof.
  intros Hv Hr. unfold careful_body. cbv zeta.
  assert (Hcl : forall c, 0 < c < 2 ^ 32 ->
                  clamp (ValuesRemaining st) c = Z.min c (ValuesRemaining st))
    by (intros c Hc; apply clamp_min; lia).
  careful_link1 Hv.
  { rewrite (zero_branch 0 240) by (try done; try lia; apply Hcl; lia).
    first_picked 0 240 0 Ht. }
  careful_link1 Hv.
  { rewrite (zero_branch 1 120) by (try done; try lia; apply Hcl; lia).
    first_picked 1 120 0 Ht. }
  careful_link1 Hv.
  { rewrite (pack_careful_branch 2 60) by (try done; lia). first_picked 2 60 1 Ht. }
  careful_link1 Hv.
  { rewrite (pack_careful_branch 3 30) by (try done; lia). first_picked 3 30 2 Ht. }
  careful_link1 Hv.
  { rewrite (pack_careful_branch 4 20) by (try done; lia). first_picked 4 20 3 Ht. }
  careful_link1 Hv.
  { rewrite (pack_careful_branch 5 15) by (try done; lia). first_picked 5 15 4 Ht. }
  careful_link1 Hv.
  { rewrite (pack_careful_branch 6 12) by (try done; lia). first_picked 6 12 5 Ht. }
  careful_link1 Hv.
  { rewrite (pack_careful_branch 7 10) by (try done; lia). first_picked 7 10 6 Ht. }
  careful_link1 Hv.
  { rewrite (pack_careful_branch 8 8) by (try done; lia). first_picked 8 8 7 Ht. }
  careful_link1 Hv.
  { rewrite (pack_careful_branch 9 7) by (try done; lia). first_picked 9 7 8 Ht. }
  careful_link1 Hv.
  { rewrite (pack_careful_branch 10 6) by (try done; lia). first_picked 10 6 10 Ht. }
  careful_link1 Hv.
  { rewrite (pack_careful_branch 11 5) by (try done; lia). first_picked 11 5 12 Ht. }
  careful_link1 Hv.
  { rewrite (pack_careful_branch 12 4) by (try done; lia). first_picked 12 4 15 Ht. }
  careful_link1 Hv.
  { rewrite (pack_careful_branch 13 3) by (try done; lia). first_picked 13 3 20 Ht. }
  careful_link1 Hv.
  { rewrite (pack_careful_branch 14 2) by (try done; lia). first_picked 14 2 30 Ht. }
  careful_link1 Hv.
  { rewrite (pack_careful_branch 15 1) by (try done; lia). first_picked 15 1 60 Ht. }
  lia.
Qed.

Lemma enc_iter_first (st st' : enc_state) :
  enc_valid st -> enc_iter st st' -> picks_first st (Ok st').
Proof.
  intros Hv [[Hr Hb]|[Hr Hb]]; rewrite <- Hb.
  - by apply fast_body_first.
  - apply careful_body_first; [done|lia].
Qed.

Lemma choose_In (xs : list Z) (sel c w : Z) :
  choose xs = Some (sel, c, w) ->
  In (sel, c, w) schemes /\ fitsb w (take (Z.to_nat c) xs) = true.
Proof.
  unfold choose. intros H. apply find_some in H as [Hin Hf]. by cbn [fst snd] in Hf.
Qed.

(** No scheme that fits would pack more values than the one [choose] names. *)
Lemma choose_max (xs : list Z) (sel c w sel' c' w' : Z) :
  choose xs = Some (sel, c, w) ->
  In (sel', c', w') schemes ->
  fitsb w' (take (Z.to_nat c') xs) = true ->
  sel <= sel' /\ c' <= c.
Proof.
  unfold choose, schemes. cbn [find fst snd]. intros Hch Hin Hfit.
  repeat (destruct Hin as [Hin|Hin];
          [injection Hin as <- <- <-;
           repeat match type of Hch with
                  | (if ?b then _ else _) = _ =>
                      let E := fresh "E" in
                      destruct b eqn:E;
                      [injection Hch as <- <- <-; lia | try congruence]
                  end |]).
  destruct Hin.
Qed.

(** X5. The encoder is greedy.  Under the caller's contract every iteration
    of either loop picks the first scheme of the selector table whose fit
    test passes on the values at the cursor; a scheme that also fits has a
    higher selector and would not pack more values than the iteration
    codes. *)
Theorem encoder_first_fit (st st' : enc_state) :
  enc_valid st -> enc_iter st st' ->
  exists sel c w : Z,
    choose (input st) = Some (sel, c, w)
    /\ st' = enc_next sel c w st
    /\ NumberOfValuesCoded st' = Z.min c (ValuesRemaining st)
    /\ forall sel' c' w' : Z,
         In (sel', c', w') schemes ->
         fitsb w' (take (Z.to_nat c') (input st)) = true ->
         sel <= sel' /\ Z.min c' (ValuesRemaining st) <= NumberOfValuesCoded st'.
Proof.
  intros Hv Hit.
  destruct (enc_iter_first st st' Hv Hit) as (sel & c & w & Hch & [= ->]).
  exists sel, c, w.
  destruct (choose_In _ _ _ _ Hch) as [Hin _]. apply schemes_facts in Hin.
  assert (Hn : NumberOfValuesCoded (enc_next sel c w st) = Z.min c (ValuesRemaining st)).
  { unfold enc_next. cbn [NumberOfValuesCoded]. rewrite length_take_Z by lia.
    destruct Hv as (-> & _). done. }
  split_and!; [done|done|done|].
  intros sel' c' w' Hin' Hfit'.
  destruct (choose_max _ _ _ _ _ _ _ Hch Hin' Hfit') as [Hs Hc]. lia.
Qed.

Lemma encoder_first_fit_witness :
  exists sel c w : Z,
    choose [1; 0; 1; 2 ^ 40; 7] = Some (sel, c, w)
    /\ NumberOfValuesCoded (enc_next sel c w (enc_init [1; 0; 1; 2 ^ 40; 7] 5 [9; 9; 9; 9; 9]))
       = Z.min c 5.
Proof.
  destruct (encoder_first_fit (enc_init [1; 0; 1; 2 ^ 40; 7] 5 [9; 9; 9; 9; 9])
              (enc_next 13 3 20 (enc_init [1; 0; 1; 2 ^ 40; 7] 5 [9; 9; 9; 9; 9])))
    as (sel & c & w & Hch & Heq & Hn & _).
  - unfold enc_valid. simpl. lia.
  - right. split; [simpl; lia|]. vm_compute. reflexivity.
  - exists sel, c, w. split; [exact Hch|]. rewrite <- Heq. exact Hn.
Defined.

(** ** The encoder as a function of its input *)

Lemma choose_total (xs : list Z) : exists sel c w, choose xs = Some (sel, c, w).
Proof.
  unfold choose, schemes. cbn [find fst snd].
  repeat match goal with
         | |- context [if fitsb ?w ?vs then _ else _] =>
             destruct (fitsb w vs) eqn:?; [by eauto|]
         end.
  discriminate.
Qed.

Lemma enc_words_nil (fuel : nat) : enc_words fuel [] = [].
Proof. by destruct fuel. Qed.

Lemma enc_words_cons (fuel : nat) (xs : list Z) (sel c w : Z) :
  xs <> [] -> choose xs = Some (sel, c, w) ->
  enc_words (S fuel) xs
  = enc_word sel w (take (Z.to_nat c) xs) :: enc_words fuel (drop (Z.to_nat c) xs).
Proof. intros Hne Hch. destruct xs as [|x xs]; [done|]. cbn [enc_words]. by rewrite Hch. Qed.

Lemma enc_words_length (fuel : nat) : forall xs : list Z,
  (length xs <= fuel)%nat ->
  (length (enc_words fuel xs) <= length xs <= 240 * length (enc_words fuel xs))%nat.
Proof.
  induction fuel as [|fuel IH]; intros xs Hf.
  - destruct xs; simpl in *; lia.
  - destruct xs as [|x xs]; [simpl; lia|].
    destruct (choose_total (x :: xs)) as (sel & c & w & Hch).
    rewrite (enc_words_cons fuel (x :: xs) sel c w) by done.
    destruct (choose_In _ _ _ _ Hch) as [Hin _]. apply schemes_facts in Hin.
    specialize (IH (drop (Z.to_nat c) (x :: xs))).
    rewrite length_drop in IH. cbn [length] in *. lia.
Qed.

(** A chain of iterations that consumes the input writes [enc_words]. *)
Lemma enc_path_words (st fin : enc_state) :
  rtc enc_iter st fin -> enc_valid st -> input fin = [] ->
  forall fuel : nat, (length (input st) <= fuel)%nat ->
    out fin = out st + Z.of_nat (length (enc_words fuel (input st)))
    /\ outbuf fin
       = take (Z.to_nat (out st)) (outbuf st) ++ enc_words fuel (input st)
         ++ drop (Z.to_nat (out st) + length (enc_words fuel (input st))) (outbuf st).
Proof.
  intros Hrtc. induction Hrtc as [a|a b c Hab Hbc IH]; intros Hv Hnil fuel Hf.
  - rewrite Hnil, enc_words_nil. cbn [app length].
    rewrite Nat.add_0_r, take_drop. split; [lia|done].
  - pose proof (enc_iter_pos a b Hab) as Hpos.
    destruct (enc_iter_first a b Hv Hab) as (sel & cc & w & Hch & [= ->]).
    destruct (choose_In _ _ _ _ Hch) as [Hin _].
    pose proof (schemes_facts sel cc w Hin) as Hsch.
    destruct (enc_next_valid sel cc w a Hv) as (Hv' & _); [lia|lia|].
    destruct Hv as (Hr & Hr64 & Ho & Hcap).
    destruct fuel as [|fuel]; [lia|].
    assert (Hne : input a <> []) by (intros E; rewrite E in Hr; simpl in Hr; lia).
    rewrite (enc_words_cons fuel (input a) sel cc w Hne Hch).
    destruct (IH Hv' Hnil fuel) as [Hout Hbuf].
    { unfold enc_next. cbn [input]. rewrite length_drop. lia. }
    unfold enc_next in Hout, Hbuf. cbn [input outbuf out] in Hout, Hbuf.
    set (wd := enc_word sel w (take (Z.to_nat cc) (input a))) in *.
    set (ws := enc_words fuel (drop (Z.to_nat cc) (input a))) in *.
    cbn [length]. split; [lia|].
    rewrite Hbuf.
    replace (Z.to_nat (out a + 1)) with (S (Z.to_nat (out a))) by lia.
    rewrite (take_S_r _ _ wd) by (apply list_lookup_insert_eq; lia).
    rewrite take_insert_ge by lia.
    rewrite drop_insert_lt by lia.
    rewrite <- app_assoc. cbn [app]. by rewrite Nat.add_succ_r.
Qed.

Lemma Simple8bEncode_enc_words (fuel : nat) (xs ob : list Z) :
  Z.of_nat (length xs) < 2 ^ 64 ->
  (length xs <= length ob)%nat ->
  (length xs <= fuel)%nat ->
  Simple8bEncode fuel xs (Z.of_nat (length xs)) ob
  = Ok (enc_words (length xs) xs ++ drop (length (enc_words (length xs) xs)) ob,
        Z.of_nat (length (enc_words (length xs) xs))).
Proof.
  intros H64 Hcap Hfuel.
  destruct (Simple8bEncode_run_spec fuel xs ob H64 Hcap Hfuel)
    as (fin & Hrun & Hvf & Hnil & Hrtc).
  assert (Hv0 : enc_valid (enc_init xs (Z.of_nat (length xs)) ob))
    by (unfold enc_valid, enc_init; simpl; lia).
  destruct (enc_path_words _ fin Hrtc Hv0 Hnil (length xs)) as [Hout Hbuf]; [done|].
  unfold enc_init in Hout, Hbuf. cbn [input outbuf out] in Hout, Hbuf.
  change (Z.to_nat 0) with 0%nat in Hbuf. rewrite take_0 in Hbuf. cbn [app Nat.add] in Hbuf.
  unfold Simple8bEncode. rewrite Hrun, bind_ret_l. rewrite Hbuf, Hout. do 2 f_equal. lia.
Qed.

(** X6. [Simple8bEncode] as a function.  With an output buffer of at least
    [inputLength] words, the encoder writes the words [enc_words] computes
    from the input alone (one per iteration, each under the first scheme
    that fits), returns their number, and leaves the rest of the buffer as
    it was; what the buffer held before has no effect on the words.  The
    number of words is at most the number of values and at least a 240th
    of it. *)
Theorem Simple8bEncode_words (fuel : nat) (xs ob : list Z) :
  Z.of_nat (length xs) < 2 ^ 64 ->
  (length xs <= length ob)%nat ->
  (length xs <= fuel)%nat ->
  let ws := enc_words (length xs) xs in
  Simple8bEncode fuel xs (Z.of_nat (length xs)) ob
  = Ok (ws ++ drop (length ws) ob, Z.of_nat (length ws))
  /\ (length ws <= length xs <= 240 * length ws)%nat.
Proof.
  intros H64 Hcap Hfuel ws. split; [|by apply enc_words_length].
  by apply Simple8bEncode_enc_words.
Qed.

Lemma Simple8bEncode_words_witness :
  Simple8bEncode 5 [1; 0; 1; 2 ^ 40; 7] 5 [9; 9; 9; 9; 9]
  = Ok (enc_words 5 [1; 0; 1; 2 ^ 40; 7]
          ++ drop (length (enc_words 5 [1; 0; 1; 2 ^ 40; 7])) [9; 9; 9; 9; 9],
        Z.of_nat (length (enc_words 5 [1; 0; 1; 2 ^ 40; 7]))).
Proof.
  destruct (Simple8bEncode_words 5 [1; 0; 1; 2 ^ 40; 7] [9; 9; 9; 9; 9]) as [H _].
  - simpl; lia.
  - simpl; lia.
  - simpl; lia.
  - exact H.
Defined.

(** ** Values of more than 60 bits *)

(** [WriteBits] does not mask the value: bits 60 to 63 of a value coded
    under selector 15 fall on the selector, which is all ones already. *)
Lemma lor_selector_15 (v : Z) :
  is_u64 v -> Z.lor (Z.shiftl 15 60) v = 15 * 2 ^ 60 + v mod 2 ^ 60.
Proof.
  intros Hv. unfold is_u64 in Hv.
  pose proof (Z.mod_pos_bound v (2 ^ 60) ltac:(lia)) as Hm.
  rewrite <- (lor_shiftl_add 15 60 (v mod 2 ^ 60)) by lia.
  apply Z.bits_inj'. intros i Hi. rewrite !Z.lor_spec.
  destruct (Z.lt_ge_cases i 60) as [Hlo|Hhi].
  - by rewrite Z.mod_pow2_bits_low by lia.
  - rewrite Z.mod_pow2_bits_high by lia. rewrite orb_false_r.
    destruct (Z.lt_ge_cases i 64) as [H64|H64].
    + rewrite Z.shiftl_spec by lia.
      assert (i - 60 = 0 \/ i - 60 = 1 \/ i - 60 = 2 \/ i - 60 = 3) as [-> | [-> | [-> | ->]]]
        by lia; reflexivity.
    + destruct (Z.eq_dec v 0) as [->|Hv0]; [by rewrite Z.bits_0, orb_false_r|].
      rewrite (Z.bits_above_log2 v i); [apply orb_false_r | lia |].
      apply Z.log2_lt_pow2; [lia|].
      apply Z.lt_le_trans with (2 ^ 64); [lia|]. apply Z.pow_le_mono_r; lia.
Qed.

Lemma enc_word_15_u64 (v : Z) :
  is_u64 v -> enc_word 15 60 [v] = 15 * 2 ^ 60 + v mod 2 ^ 60.
Proof.
  intros Hv. unfold enc_word, pack_word, pack_step. cbn [Z.eqb fold_left length].
  change (60 - 60 * Z.of_nat 1) with 0. rewrite Z.shiftl_0_r.
  rewrite (wrap64_small (Z.shiftl 15 60)) by (change (Z.shiftl 15 60) with (15 * 2 ^ 60); lia).
  rewrite lor_selector_15 by done.
  pose proof (Z.mod_pos_bound v (2 ^ 60) ltac:(lia)).
  apply wrap64_small. lia.
Qed.

(** Words that code [xs] also code the low 60 bits of [xs]. *)
Lemma encoded_low60 (xs ws : list Z) :
  encoded xs ws -> Forall is_u64 xs ->
  encoded (map (fun v => v mod 2 ^ 60) xs) ws.
Proof.
  intros He. induction He as [|xs sel c w ws Hne Hin Hfit He IH]; intros Hu.
  - constructor.
  - pose proof (schemes_facts sel c w Hin) as Hsch.
    set (f := fun v => v mod 2 ^ 60) in *.
    assert (Hchunk : w < 32 -> map f (take (Z.to_nat c) xs) = take (Z.to_nat c) xs).
    { intros Hw. rewrite <- (map_id (take (Z.to_nat c) xs)) at 2.
      apply map_ext_Forall.
      specialize (Hfit Hw). apply (Forall_take _ (Z.to_nat c)) in Hu.
      rewrite Forall_forall in *. intros v Hv.
      specialize (Hfit v Hv). specialize (Hu v Hv). unfold is_u64 in Hu. unfold f.
      assert (2 ^ w <= 2 ^ 60) by (apply Z.pow_le_mono_r; lia).
      apply Z.mod_small. lia. }
    assert (Hword : enc_word sel w (take (Z.to_nat c) (map f xs))
                    = enc_word sel w (take (Z.to_nat c) xs)).
    { rewrite firstn_map. destruct (Z.lt_ge_cases w 32) as [Hw|Hw].
      - by rewrite Hchunk.
      - assert (sel = 15 /\ c = 1 /\ w = 60) as (-> & -> & ->) by (apply Hsch; lia).
        destruct xs as [|v xs]; [done|]. apply Forall_cons in Hu as [Hv _].
        change (take (Z.to_nat 1) (v :: xs)) with [v]. cbn [map].
        rewrite (enc_word_15_u64 v) by done.
        pose proof (Z.mod_pos_bound v (2 ^ 60) ltac:(lia)).
        unfold f. by rewrite enc_word_15 by lia. }
    rewrite <- Hword. apply encoded_cons; try done.
    + by destruct xs.
    + intros Hw. rewrite firstn_map, Hchunk by done. by apply Hfit.
    + rewrite skipn_map. apply IH. by apply Forall_drop.
Qed.

(** The words of a run code its input. *)
Lemma Simple8bEncode_encoded (fuel : nat) (xs ob : list Z) :
  Z.of_nat (length xs) < 2 ^ 64 ->
  (length xs <= length ob)%nat ->
  (length xs <= fuel)%nat ->
  exists ws : list Z,
    Simple8bEncode fuel xs (Z.of_nat (length xs)) ob
    = Ok (ws ++ drop (length ws) ob, Z.of_nat (length ws))
    /\ encoded xs ws.
Proof.
  intros H64 Hcap Hfuel.
  destruct (Simple8bEncode_run_spec fuel xs ob H64 Hcap Hfuel)
    as (fin & Hrun & Hvf & Hnil & Hrtc).
  assert (Hv0 : enc_valid (enc_init xs (Z.of_nat (length xs)) ob))
    by (unfold enc_valid, enc_init; simpl; lia).
  destruct (enc_path _ fin Hv0 Hrtc)
    as (_ & _ & k & ws & _ & Hk & Hlen & Hout & Hbuf & Henc).
  unfold enc_init in Hk, Hout, Hbuf, Henc. cbn [input outbuf out] in Hk, Hout, Hbuf, Henc.
  change (Z.to_nat 0) with 0%nat in Hbuf. rewrite take_0 in Hbuf.
  cbn [app Nat.add] in Hbuf.
  specialize (Henc [] ltac:(rewrite Hnil; constructor)). rewrite app_nil_r in Henc.
  exists ws. split; [|done].
  unfold Simple8bEncode. rewrite Hrun, bind_ret_l, Hbuf, Hout. do 2 f_equal. lia.
Qed.

(** X7. The round trip on arbitrary 64-bit values.  The encoder accepts
    every value (the scheme of width 60 is not tested) and, decoded with
    [outputLength = len x], its words give back each value reduced to its
    low 60 bits: values below [2^60] come back unchanged, whatever else the
    input holds, and a value of [2^60] or more comes back without its four
    high bits, with no fault and no other value disturbed. *)
Theorem Simple8b_roundtrip_low60 (fuel : nat) (x ob db rest : list Z) :
  Forall is_u64 x ->
  Z.of_nat (length x) < 2 ^ 64 ->
  (length x <= length ob)%nat ->
  (length x <= length db)%nat ->
  (length x <= fuel)%nat ->
  Forall is_u64 rest ->
  exists (ob' : list Z) (n : Z),
    Simple8bEncode fuel x (Z.of_nat (length x)) ob = Ok (ob', n)
    /\ Simple8bDecode fuel (take (Z.to_nat n) ob' ++ rest) (Z.of_nat (length x)) db
       = Ok (map (fun v => v mod 2 ^ 60) x ++ drop (length x) db, Z.of_nat (length x)).
Proof.
  intros Hx H64 Hcap Hdcap Hfuel Hrest.
  destruct (Simple8bEncode_encoded fuel x ob H64 Hcap Hfuel) as (ws & Henc & He).
  exists (ws ++ drop (length ws) ob), (Z.of_nat (length ws)). split; [done|].
  rewrite Nat2Z.id, take_app_length.
  pose proof (encoded_low60 x ws He Hx) as He'.
  pose proof (Simple8bDecode_encoded fuel (map (fun v => v mod 2 ^ 60) x) ws rest db He') as Hd.
  rewrite length_map in Hd. apply Hd; try done.
  apply Forall_map. eapply Forall_impl; [exact Hx|].
  intros v _. cbv beta. apply Z.mod_pos_bound. lia.
Qed.

Lemma Simple8b_roundtrip_low60_witness :
  exists (ob' : list Z) (n : Z),
    Simple8bEncode 3 [3; 2 ^ 60 + 5; 2 ^ 64 - 1] 3 [9; 9; 9] = Ok (ob', n)
    /\ Simple8bDecode 3 (take (Z.to_nat n) ob' ++ []) 3 [8; 8; 8]
       = Ok (map (fun v => v mod 2 ^ 60) [3; 2 ^ 60 + 5; 2 ^ 64 - 1] ++ drop 3 [8; 8; 8], 3).
Proof.
  apply (Simple8b_roundtrip_low60 3 [3; 2 ^ 60 + 5; 2 ^ 64 - 1] [9; 9; 9] [8; 8; 8] []).
  - repeat (constructor; [unfold is_u64; lia|]). constructor.
  - simpl; lia.
  - simpl; lia.
  - simpl; lia.
  - simpl; lia.
  - constructor.
Defined.

(** ** Decoding fewer values than the stream holds *)

Lemma unpack_from_take (w x : Z) (m : nat) : forall (k : Z) (n : nat),
  (m <= n)%nat -> take m (unpack_from w x k n) = unpack_from w x k m.
Proof.
  induction m as [|m IH]; intros k n Hmn; [by rewrite take_0|].
  destruct n as [|n]; [lia|]. cbn [unpack_from]. rewrite firstn_cons.
  f_equal. apply IH. lia.
Qed.

Lemma enough_mono (ws : list Z) : forall n m : Z, enough ws n -> m <= n -> enough ws m.
Proof.
  induction ws as [|x ws IH]; intros n m Hen Hm; cbn [enough] in *; [lia|].
  destruct Hen as [Hen|Hen]; [left; lia|].
  right. apply (IH _ _ Hen). lia.
Qed.

Lemma dec_values_prefix (ws : list Z) : forall m n : Z,
  Forall is_u64 ws -> m <= n ->
  dec_values ws m = take (Z.to_nat m) (dec_values ws n).
Proof.
  induction ws as [|x ws IH]; intros m n Hu Hmn;
    [cbn [dec_values]; by rewrite take_nil|].
  destruct (Z.le_gt_cases m 0) as [Hm0|Hm0].
  { rewrite dec_values_nonpos by done. replace (Z.to_nat m) with 0%nat by lia.
    by rewrite take_0. }
  apply Forall_cons in Hu as [Hx Hu].
  pose proof (scheme_of_In _ (selector_range x Hx)) as Hsch.
  apply schemes_facts in Hsch.
  rewrite !dec_values_cons by lia.
  destruct (scheme_of (selector_of x)) as [c w]. cbn [fst snd] in *.
  destruct (Z.le_gt_cases m c) as [Hmc|Hmc].
  - rewrite (Z.min_r c m) by lia. rewrite Z.sub_diag, dec_values_nonpos by lia.
    rewrite app_nil_r.
    rewrite take_app_le by (rewrite unpack_from_length; lia).
    rewrite unpack_from_take by lia. done.
  - rewrite !Z.min_l by lia.
    rewrite take_app_ge by (rewrite unpack_from_length; lia).
    rewrite unpack_from_length. f_equal.
    rewrite (IH (m - c) (n - c)) by (try done; lia). f_equal. lia.
Qed.

(** X8. Understating [outputLength] truncates: decoding [m <= n] values from
    a stream that holds enough words for [n] returns [m] and writes the
    first [m] of the values that decoding [n] would write; the cells from
    index [m] on are not touched. *)
Theorem Simple8bDecode_prefix (fuel : nat) (ws : list Z) (m n : Z) (ob : list Z) :
  Forall is_u64 ws ->
  0 <= m <= n ->
  enough ws n ->
  m <= Z.of_nat (length ob) ->
  (Z.to_nat m <= fuel)%nat ->
  Simple8bDecode fuel ws m ob
  = Ok (take (Z.to_nat m) (dec_values ws n) ++ drop (Z.to_nat m) ob, m).
Proof.
  intros Hu Hm Hen Hcap Hfuel.
  rewrite Simple8bDecode_values; try done; try lia.
  - by rewrite (dec_values_prefix ws m n) by (try done; lia).
  - apply (enough_mono ws n); [done|lia].
Qed.

Lemma Simple8bDecode_prefix_witness :
  Simple8bDecode 2 [13 * 2 ^ 60 + 2 ^ 40 + 1] 2 [9; 9; 9]
  = Ok (take (Z.to_nat 2) (dec_values [13 * 2 ^ 60 + 2 ^ 40 + 1] 3)
          ++ drop (Z.to_nat 2) [9; 9; 9], 2).
Proof.
  apply (Simple8bDecode_prefix 2 [13 * 2 ^ 60 + 2 ^ 40 + 1] 2 3 [9; 9; 9]).
  - repeat (constructor; [unfold is_u64; lia|]). constructor.
  - lia.
  - vm_compute. right. discriminate.
  - simpl; lia.
  - simpl; lia.
Defined.

(** X9. A prefix of the input can be decoded on its own: for values below
    [2^60] and [m <= len x], decoding the words the encoder wrote with
    [outputLength = m] writes the first [m] values of [x]. *)
Theorem Simple8b_roundtrip_prefix (fuel : nat) (x ob db : list Z) (m : nat) :
  Forall (fun v => 0 <= v < 2 ^ 60) x ->
  Z.of_nat (length x) < 2 ^ 64 ->
  (length x <= length ob)%nat ->
  (m <= length x)%nat ->
  (m <= length db)%nat ->
  (length x <= fuel)%nat ->
  exists (ob' : list Z) (n : Z),
    Simple8bEncode fuel x (Z.of_nat (length x)) ob = Ok (ob', n)
    /\ Simple8bDecode fuel (take (Z.to_nat n) ob') (Z.of_nat m) db
       = Ok (take m x ++ drop m db, Z.of_nat m).
Proof.
  intros Hx H64 Hcap Hm Hdcap Hfuel.
  destruct (Simple8bEncode_encoded fuel x ob H64 Hcap Hfuel) as (ws & Henc & He).
  exists (ws ++ drop (length ws) ob), (Z.of_nat (length ws)). split; [done|].
  rewrite Nat2Z.id, take_app_length.
  destruct (encoded_words x ws [] He Hx ltac:(constructor)) as [Hu Hen].
  rewrite app_nil_r in Hu, Hen.
  rewrite Simple8bDecode_values; try done; try lia.
  - rewrite (dec_values_prefix ws (Z.of_nat m) (Z.of_nat (length x))) by (try done; lia).
    pose proof (dec_values_encoded x ws [] He Hx) as Hv. rewrite app_nil_r in Hv.
    by rewrite Hv, Nat2Z.id.
  - apply (enough_mono ws (Z.of_nat (length x))); [done|lia].
Qed.

Lemma Simple8b_roundtrip_prefix_witness :
  exists (ob' : list Z) (n : Z),
    Simple8bEncode 5 [1; 0; 1; 2 ^ 40; 7] 5 [9; 9; 9; 9; 9] = Ok (ob', n)
    /\ Simple8bDecode 5 (take (Z.to_nat n) ob') (Z.of_nat 2) [8; 8; 8]
       = Ok (take 2 [1; 0; 1; 2 ^ 40; 7] ++ drop 2 [8; 8; 8], Z.of_nat 2).
Proof.
  apply (Simple8b_roundtrip_prefix 5 [1; 0; 1; 2 ^ 40; 7] [9; 9; 9; 9; 9] [8; 8; 8] 2).
  - repeat (constructor; [lia|]). constructor.
  - simpl; lia.
  - simpl; lia.
  - simpl; lia.
  - simpl; lia.
  - simpl; lia.
Defined.

(** ** A stream that is too short *)

Lemma GetSelectorNum_nil : GetSelectorNum [] = OutOfBounds.
Proof. reflexivity. Qed.

(** The iterations of the decoder again, without the assumption that the
    stream holds enough words. *)
Lemma dec_fast_body_word (endp x : Z) (rest : list Z) (st : dec_state) :
  0 <= dout st -> dout st + 240 < endp -> endp <= Z.of_nat (length (decbuf st)) ->
  is_u64 x -> inw st = x :: rest ->
  dec_fast_body st = Ok (dec_next endp x st).
Proof.
  intros Ho Hr Hcap Hx Hin. unfold dec_fast_body.
  rewrite Hin, (GetSelectorNum_spec x rest Hx), bind_ret_l.
  unfold dec_next. rewrite Hin.
  destruct (selector_cases _ (selector_range x Hx))
    as [H|[H|[H|[H|[H|[H|[H|[H|[H|[H|[H|[H|[H|[H|[H|H]]]]]]]]]]]]]]];
    rewrite H;
    match goal with
    | |- context [scheme_of ?s] =>
        let v := eval vm_compute in (scheme_of s) in change (scheme_of s) with v
    end;
    cbv beta iota;
    match goal with
    | |- UnpackFast ?c ?w st = _ =>
        rewrite (UnpackFast_spec c w x rest st Hin) by lia;
        rewrite (Z.min_l c) by lia; reflexivity
    end.
Qed.

Lemma dec_careful_body_word (endp x : Z) (rest : list Z) (st : dec_state) :
  0 <= dout st -> dout st < endp <= dout st + 240 ->
  endp <= Z.of_nat (length (decbuf st)) ->
  is_u64 x -> inw st = x :: rest ->
  dec_careful_body endp st = Ok (dec_next endp x st).
Proof.
  intros Ho Hr Hcap Hx Hin. unfold dec_careful_body.
  rewrite Hin, (GetSelectorNum_spec x rest Hx), bind_ret_l.
  unfold dec_next. rewrite Hin.
  assert (Hsl : forall c, slots endp (dout st) c = Z.min c (endp - dout st)).
  { intros c. unfold slots. rewrite wrap32_small by lia. lia. }
  destruct (selector_cases _ (selector_range x Hx))
    as [H|[H|[H|[H|[H|[H|[H|[H|[H|[H|[H|[H|[H|[H|[H|H]]]]]]]]]]]]]]];
    rewrite H;
    match goal with
    | |- context [scheme_of ?s] =>
        let v := eval vm_compute in (scheme_of s) in change (scheme_of s) with v
    end;
    cbv beta iota; rewrite ?Hsl;
    match goal with
    | |- UnpackCareful ?w ?c st = _ =>
        rewrite (UnpackCareful_spec c w x rest st Hin) by lia
    end;
    rewrite ?(Z.min_l 1) by lia; rewrite ?Z2Nat.id by lia; reflexivity.
Qed.

Lemma dec_next_facts (endp x : Z) (rest : list Z) (st : dec_state) :
  0 <= dout st < endp -> endp <= Z.of_nat (length (decbuf st)) ->
  is_u64 x -> inw st = x :: rest ->
  inw (dec_next endp x st) = rest
  /\ dout (dec_next endp x st)
     = dout st + Z.min (fst (scheme_of (selector_of x))) (endp - dout st)
  /\ 0 < fst (scheme_of (selector_of x))
  /\ length (decbuf (dec_next endp x st)) = length (decbuf st).
Proof.
  intros Ho Hcap Hx Hin.
  pose proof (scheme_of_In _ (selector_range x Hx)) as Hsch.
  apply schemes_facts in Hsch.
  unfold dec_next. destruct (scheme_of (selector_of x)) as [c w]. cbn [fst snd] in *.
  cbn [inw dout decbuf]. rewrite Hin. split_and!; [done|lia|lia|].
  rewrite !length_app, length_take, length_drop, unpack_from_length. lia.
Qed.

Lemma dec_fast_underread (endp : Z) (fuel : nat) : forall st : dec_state,
  0 <= dout st <= endp -> endp <= Z.of_nat (length (decbuf st)) ->
  Forall is_u64 (inw st) -> ~ enough (inw st) (endp - dout st) ->
  (Z.to_nat (endp - dout st) <= fuel)%nat ->
  while (fun st => dout st + 240 <? endp) dec_fast_body fuel st = OutOfBounds
  \/ exists st1,
       while (fun st => dout st + 240 <? endp) dec_fast_body fuel st = Ok st1
       /\ 0 <= dout st1 <= endp /\ endp <= Z.of_nat (length (decbuf st1))
       /\ Forall is_u64 (inw st1) /\ ~ enough (inw st1) (endp - dout st1)
       /\ endp <= dout st1 + 240 /\ dout st <= dout st1.
Proof.
  induction fuel as [|fuel IH]; intros st Ho Hcap Hu Hne Hf.
  - right. exists st. rewrite while_false by (apply Z.ltb_ge; lia).
    split_and!; try done; lia.
  - destruct (Z.ltb_spec (dout st + 240) endp) as [Hr|Hr].
    + rewrite while_true by (apply Z.ltb_lt; lia).
      destruct (inw st) as [|x rest] eqn:Hin.
      { left. unfold dec_fast_body. rewrite Hin. reflexivity. }
      apply Forall_cons in Hu as [Hx Hu].
      rewrite (dec_fast_body_word endp x rest st) by (try done; lia).
      rewrite bind_ret_l.
      destruct (dec_next_facts endp x rest st) as (Hin' & Hout' & Hc & Hlen');
        [lia|done|done|done|].
      pose proof (scheme_of_In _ (selector_range x Hx)) as Hsch.
      apply schemes_facts in Hsch.
      cbn [enough] in Hne.
      destruct (IH (dec_next endp x st)) as [Hoob|(st1 & Hw & H1 & H2 & H3 & H4 & H5 & H6)].
      * lia.
      * lia.
      * by rewrite Hin'.
      * rewrite Hin', Hout'. intros Hen. apply Hne. right.
        by replace (endp - dout st - (scheme_of (selector_of x)).1)
          with (endp - (dout st + Z.min (scheme_of (selector_of x)).1 (endp - dout st)))
          by lia.
      * lia.
      * by left.
      * right. exists st1. split_and!; try done; lia.
    + right. exists st. rewrite while_false by (apply Z.ltb_ge; lia).
      split_and!; try done; lia.
Qed.

Lemma dec_careful_underread (endp : Z) (fuel : nat) : forall st : dec_state,
  0 <= dout st <= endp -> endp <= Z.of_nat (length (decbuf st)) ->
  Forall is_u64 (inw st) -> ~ enough (inw st) (endp - dout st) ->
  endp <= dout st + 240 ->
  (Z.to_nat (endp - dout st) <= fuel)%nat ->
  while (fun st => dout st <? endp) (dec_careful_body endp) fuel st = OutOfBounds.
Proof.
  induction fuel as [|fuel IH]; intros st Ho Hcap Hu Hne H240 Hf.
  - exfalso. apply Hne, enough_nonpos. lia.
  - assert (Hr : dout st < endp).
    { destruct (Z.lt_ge_cases (dout st) endp); [done|].
      exfalso. apply Hne, enough_nonpos. lia. }
    rewrite while_true by (apply Z.ltb_lt; lia).
    destruct (inw st) as [|x rest] eqn:Hin.
    { unfold dec_careful_body. rewrite Hin. reflexivity. }
    apply Forall_cons in Hu as [Hx Hu].
    rewrite (dec_careful_body_word endp x rest st) by (try done; lia).
    rewrite bind_ret_l.
    destruct (dec_next_facts endp x rest st) as (Hin' & Hout' & Hc & Hlen');
      [lia|done|done|done|].
    cbn [enough] in Hne.
    assert (Hcr : (scheme_of (selector_of x)).1 <= endp - dout st).
    { destruct (Z.le_gt_cases (scheme_of (selector_of x)).1 (endp - dout st)); [done|].
      exfalso. apply Hne. right. apply enough_nonpos. lia. }
    apply IH; try lia.
    + by rewrite Hin'.
    + rewrite Hin', Hout'. intros Hen. apply Hne. right.
      by replace (endp - dout st - (scheme_of (selector_of x)).1)
        with (endp - (dout st + Z.min (scheme_of (selector_of x)).1 (endp - dout st)))
        by lia.
Qed.

(** X10. The stream is not checked: when it holds fewer words than
    [outputLength] values take ([enough] fails), the decoder runs through
    the words there are and then reads past the end of the stream.  With C6,
    [Simple8bDecode] returns exactly when the stream is long enough. *)
Theorem Simple8bDecode_underread (fuel : nat) (ws : list Z) (outputLength : Z) (ob : list Z) :
  Forall is_u64 ws ->
  0 <= outputLength <= Z.of_nat (length ob) ->
  ~ enough ws outputLength ->
  (Z.to_nat outputLength <= fuel)%nat ->
  Simple8bDecode fuel ws outputLength ob = OutOfBounds.
Proof.
  intros Hu Hn Hne Hf. unfold Simple8bDecode. cbv zeta.
  change (0 + outputLength) with outputLength.
  destruct (dec_fast_underread outputLength fuel (DecState ws ob 0))
    as [Hoob|(st1 & Hw & H1 & H2 & H3 & H4 & H5 & H6)];
    cbn [dout decbuf inw]; rewrite ?Z.sub_0_r; try done; try lia.
  - by rewrite Hoob.
  - rewrite Hw, bind_ret_l.
    rewrite (dec_careful_underread outputLength fuel st1); try done.
    cbn [dout] in H6. lia.
Qed.

Lemma Simple8bDecode_underread_witness :
  Simple8bDecode 4 [13 * 2 ^ 60 + 2 ^ 40 + 1] 4 [9; 9; 9; 9] = OutOfBounds.
Proof.
  apply (Simple8bDecode_underread 4 [13 * 2 ^ 60 + 2 ^ 40 + 1] 4 [9; 9; 9; 9]).
  - repeat (constructor; [unfold is_u64; lia|]). constructor.
  - simpl; lia.
  - vm_compute. intros [H|H]; [by apply H | by apply H].
  - simpl; lia.
Defined.

(** ** The three transforms in sequence *)

Lemma DeltaEncode_value (x0 : Z) (l : list Z) :
  Z.of_nat (length (x0 :: l)) < 2 ^ 64 ->
  DeltaEncode (x0 :: l) (Z.of_nat (length (x0 :: l))) = Ok (x0 :: deltas x0 l).
Proof.
  intros Hlen. unfold DeltaEncode.
  assert (Hw : wrap64 (Z.of_nat (length (x0 :: l)) - 1) = Z.of_nat (length l))
    by (cbn [length] in *; unfold wrap64; rewrite Z.mod_small; lia).
  rewrite Hw. cbv zeta. rewrite Nat2Z.id.
  pose proof (DeltaEncode_loop_spec l x0 []) as H. by rewrite !app_nil_r in H.
Qed.

Lemma DeltaDecode_value (x0 : Z) (l : list Z) :
  DeltaDecode (x0 :: l) (Z.of_nat (length (x0 :: l))) = Ok (x0 :: sums x0 l).
Proof.
  unfold DeltaDecode.
  replace (Z.to_nat (Z.of_nat (length (x0 :: l)) - 1)) with (length l)
    by (cbn [length]; lia).
  pose proof (DeltaDecode_loop_spec l [] x0 []) as H.
  cbn [app length] in H. change (Z.of_nat 0 + 1) with 1 in H.
  by rewrite !app_nil_r in H.
Qed.

Lemma map_loop_value (f : Z -> Z) (l : list Z) :
  map_loop f (Z.to_nat (Z.of_nat (length l))) 0 l = Ok (map f l).
Proof.
  rewrite Nat2Z.id. pose proof (map_loop_spec f l [] []) as H.
  cbn [app length] in H. by rewrite !app_nil_r in H.
Qed.

(** X11. The pipeline delta, zig-zag, Simple8b is lossless when no
    difference is too large.  If [DeltaEncode] leaves only values in
    [-2^59, 2^59) (the first value and every wrapped difference of
    neighbours), then [ZigZagEncode] turns them into values in [0, 2^60),
    [Simple8bEncode] codes those, and [Simple8bDecode], [ZigZagDecode] and
    [DeltaDecode], applied in that order, give back the original buffer. *)
Theorem pipeline_roundtrip (fuel : nat) (buf d ob db : list Z) :
  Forall is_i64 buf ->
  1 <= Z.of_nat (length buf) < 2 ^ 64 ->
  (length buf <= length ob)%nat ->
  length db = length buf ->
  (length buf <= fuel)%nat ->
  DeltaEncode buf (Z.of_nat (length buf)) = Ok d ->
  Forall (fun v => - 2 ^ 59 <= v < 2 ^ 59) d ->
  exists (z ob' : list Z) (k : Z),
    ZigZagEncode d (Z.of_nat (length buf)) = Ok z
    /\ Forall (fun v => 0 <= v < 2 ^ 60) z
    /\ Simple8bEncode fuel z (Z.of_nat (length buf)) ob = Ok (ob', k)
    /\ Simple8bDecode fuel (take (Z.to_nat k) ob') (Z.of_nat (length buf)) db
       = Ok (z, Z.of_nat (length buf))
    /\ ZigZagDecode z (Z.of_nat (length buf)) = Ok d
    /\ DeltaDecode d (Z.of_nat (length buf)) = Ok buf.
Proof.
  intros Hi Hlen Hcap Hdb Hfuel Hd Hsmall.
  destruct buf as [|x0 l]; [simpl in Hlen; lia|].
  rewrite DeltaEncode_value in Hd by lia. injection Hd as <-.
  assert (Hld : length (x0 :: deltas x0 l) = length (x0 :: l))
    by (cbn [length]; by rewrite deltas_length).
  set (dl := x0 :: deltas x0 l) in *.
  set (z := map zigzag_enc dl).
  assert (Hlz : length z = length (x0 :: l)) by (unfold z; by rewrite length_map).
  assert (Hz : Forall (fun v => 0 <= v < 2 ^ 60) z).
  { unfold z. apply Forall_map. eapply Forall_impl; [exact Hsmall|].
    intros v Hv. cbv beta in *. rewrite zigzag_enc_value by lia.
    destruct (Z.leb_spec 0 v); lia. }
  destruct (Simple8bEncode_encoded fuel z ob) as (ws & Henc & He);
    [rewrite Hlz; lia | rewrite Hlz; lia | rewrite Hlz; lia |].
  rewrite Hlz in Henc.
  exists z, (ws ++ drop (length ws) ob), (Z.of_nat (length ws)).
  split_and!.
  - unfold ZigZagEncode. rewrite <- Hld. apply map_loop_value.
  - done.
  - done.
  - rewrite Nat2Z.id, take_app_length.
    pose proof (Simple8bDecode_encoded fuel z ws [] db He Hz) as Hdec.
    rewrite app_nil_r, Hlz in Hdec. rewrite Hdec; [| constructor | lia | lia].
    rewrite drop_ge by lia. by rewrite app_nil_r.
  - unfold ZigZagDecode. rewrite <- Hlz, map_loop_value. f_equal.
    unfold z. rewrite map_map. rewrite <- (map_id dl) at 2.
    apply map_ext_Forall. eapply Forall_impl; [exact Hsmall|].
    intros v Hv. cbv beta in *. apply zigzag_dec_enc. lia.
  - unfold dl. rewrite <- Hld. fold dl. unfold dl.
    rewrite DeltaDecode_value. apply Forall_cons in Hi as [_ Hi].
    by rewrite sums_deltas.
Qed.

Lemma pipeline_roundtrip_witness :
  exists (z ob' : list Z) (k : Z),
    ZigZagEncode [1000; 2; -3; 0] 4 = Ok z
    /\ Simple8bEncode 4 z 4 [9; 9; 9; 9] = Ok (ob', k)
    /\ Simple8bDecode 4 (take (Z.to_nat k) ob') 4 [8; 8; 8; 8] = Ok (z, 4)
    /\ ZigZagDecode z 4 = Ok [1000; 2; -3; 0]
    /\ DeltaDecode [1000; 2; -3; 0] 4 = Ok [1000; 1002; 999; 999].
Proof.
  destruct (pipeline_roundtrip 4 [1000; 1002; 999; 999] [1000; 2; -3; 0]
              [9; 9; 9; 9] [8; 8; 8; 8])
    as (z & ob' & k & H1 & _ & H2 & H3 & H4 & H5).
  - repeat (constructor; [unfold is_i64; lia|]). constructor.
  - simpl; lia.
  - simpl; lia.
  - reflexivity.
  - simpl; lia.
  - reflexivity.
  - repeat (constructor; [lia|]). constructor.
  - exists z, ob', k. split_and!; [exact H1 | exact H2 | exact H3 | exact H4 | exact H5].
Defined.

(** ** Words after the ones that are needed *)

Lemma dec_values_app (ws rest : list Z) : forall n : Z,
  enough ws n -> dec_values (ws ++ rest) n = dec_values ws n.
Proof.
  induction ws as [|x ws IH]; intros n Hen; cbn [enough] in Hen.
  - cbn [app]. by rewrite dec_values_nonpos.
  - destruct (Z.le_gt_cases n 0) as [Hn|Hn]; [by rewrite !dec_values_nonpos|].
    destruct Hen as [Hen|Hen]; [lia|].
    cbn [app]. rewrite !dec_values_cons by lia. f_equal.
    destruct (Z.le_gt_cases (scheme_of (selector_of x)).1 n).
    + rewrite Z.min_l by lia. by apply IH.
    + rewrite Z.min_r by lia. rewrite Z.sub_diag. by rewrite !dec_values_nonpos.
Qed.

Lemma enough_app (ws rest : list Z) : forall n : Z, enough ws n -> enough (ws ++ rest) n.
Proof.
  induction ws as [|x ws IH]; intros n Hen; cbn [enough] in Hen.
  - by apply enough_nonpos.
  - cbn [app enough]. destruct Hen as [Hen|Hen]; [by left|]. right. by apply IH.
Qed.

(** X12. The decoder stops at the last word it needs: whatever follows the
    words that [outputLength] values take has no effect on the result. *)
Theorem Simple8bDecode_ignores_tail (fuel : nat) (ws rest : list Z) (outputLength : Z)
    (ob : list Z) :
  Forall is_u64 ws -> Forall is_u64 rest ->
  0 <= outputLength ->
  enough ws outputLength ->
  outputLength <= Z.of_nat (length ob) ->
  (Z.to_nat outputLength <= fuel)%nat ->
  Simple8bDecode fuel (ws ++ rest) outputLength ob
  = Simple8bDecode fuel ws outputLength ob.
Proof.
  intros Hu Hrest Hn Hen Hcap Hfuel.
  rewrite (Simple8bDecode_values fuel ws) by done.
  rewrite (Simple8bDecode_values fuel (ws ++ rest));
    [by rewrite dec_values_app | by apply Forall_app | done | by apply enough_app
     | done | done].
Qed.

Lemma Simple8bDecode_ignores_tail_witness :
  Simple8bDecode 3 ([13 * 2 ^ 60 + 2 ^ 40 + 1] ++ [5; 2 ^ 64 - 1]) 3 [9; 9; 9]
  = Simple8bDecode 3 [13 * 2 ^ 60 + 2 ^ 40 + 1] 3 [9; 9; 9].
Proof.
  apply (Simple8bDecode_ignores_tail 3 [13 * 2 ^ 60 + 2 ^ 40 + 1] [5; 2 ^ 64 - 1] 3 [9; 9; 9]).
  - repeat (constructor; [unfold is_u64; lia|]). constructor.
  - repeat (constructor; [unfold is_u64; lia|]). constructor.
  - lia.
  - vm_compute. right. discriminate.
  - simpl; lia.
  - simpl; lia.
Defined.

(** ** Zig-zag transform: the other composition and the bounds *)

Lemma map_loop_oob (f : Z -> Z) (l : list Z) : forall (pre : list Z) (m : nat),
  map_loop f (length l + S m) (Z.of_nat (length pre)) (pre ++ l) = OutOfBounds.
Proof.
  induction l as [|x l IH]; intros pre m.
  - cbn [length Nat.add map_loop]. rewrite app_nil_r.
    by rewrite (load_oob pre (Z.of_nat (length pre))) by lia.
  - cbn [length Nat.add map_loop].
    rewrite (load_app_mid pre l x) by done. rewrite bind_ret_l.
    rewrite (store_app_mid pre l x) by done. rewrite bind_ret_l.
    specialize (IH (pre ++ [f x]) m).
    rewrite length_app in IH. cbn [length] in IH.
    replace (Z.of_nat (length pre) + 1) with (Z.of_nat (length pre + 1)) by lia.
    rewrite <- app_assoc in IH. exact IH.
Qed.

(** X13. Bounds of the zig-zag transforms.  With a [length] up to the size
    of the buffer (0 included) both apply their element map to the first
    [length] cells, whatever the values, and leave the other cells; with a
    [length] beyond the size of the buffer both run off its end. *)
Theorem ZigZag_bounds (buf rest : list Z) (length : Z) :
  ZigZagEncode (buf ++ rest) (Z.of_nat (List.length buf))
  = Ok (map zigzag_enc buf ++ rest)
  /\ ZigZagDecode (buf ++ rest) (Z.of_nat (List.length buf))
     = Ok (map zigzag_dec buf ++ rest)
  /\ (Z.of_nat (List.length buf) < length ->
      ZigZagEncode buf length = OutOfBounds /\ ZigZagDecode buf length = OutOfBounds).
Proof.
  split_and!.
  - unfold ZigZagEncode. rewrite Nat2Z.id. apply (map_loop_spec zigzag_enc buf [] rest).
  - unfold ZigZagDecode. rewrite Nat2Z.id. apply (map_loop_spec zigzag_dec buf [] rest).
  - intros Hbig. unfold ZigZagEncode, ZigZagDecode.
    replace (Z.to_nat length)
      with (List.length buf + S (Z.to_nat length - List.length buf - 1))%nat by lia.
    split; apply (map_loop_oob _ buf []).
Qed.

Lemma ZigZag_bounds_witness :
  ZigZagEncode [0; -1; 1] 4 = OutOfBounds /\ ZigZagDecode [0; 1; 2] 4 = OutOfBounds.
Proof.
  destruct (ZigZag_bounds [0; -1; 1] [] 4) as (_ & _ & H1).
  destruct (ZigZag_bounds [0; 1; 2] [] 4) as (_ & _ & H2).
  split; [apply H1 | apply H2]; simpl; lia.
Defined.

(** X14. [ZigZagDecode] followed by [ZigZagEncode] is the identity on a
    buffer of values in [0, 2^63): the decoded values lie in
    [-2^62, 2^62), where the encoder is exact.  With X1 the two transforms
    are inverse bijections between these two ranges. *)
Theorem ZigZag_decode_encode (buf rest : list Z) :
  Forall (fun y => 0 <= y < 2 ^ 63) buf ->
  exists dec,
    ZigZagDecode (buf ++ rest) (Z.of_nat (length buf)) = Ok (dec ++ rest)
    /\ Forall (fun x => - 2 ^ 62 <= x < 2 ^ 62) dec
    /\ ZigZagEncode (dec ++ rest) (Z.of_nat (length buf)) = Ok (buf ++ rest).
Proof.
  intros Hb. exists (map zigzag_dec buf). split_and!.
  - unfold ZigZagDecode. rewrite Nat2Z.id. apply (map_loop_spec zigzag_dec buf [] rest).
  - apply Forall_map. eapply Forall_impl; [exact Hb|].
    intros y Hy. cbv beta in *. by apply zigzag_enc_dec.
  - unfold ZigZagEncode. rewrite Nat2Z.id.
    pose proof (map_loop_spec zigzag_enc (map zigzag_dec buf) [] rest) as H.
    rewrite length_map in H. cbn [app length] in H. change (Z.of_nat 0) with 0 in H.
    rewrite H. do 2 f_equal. rewrite map_map. rewrite <- (map_id buf) at 2.
    apply map_ext_Forall. eapply Forall_impl; [exact Hb|].
    intros y Hy. cbv beta in *. by apply zigzag_enc_dec.
Qed.

Lemma ZigZag_decode_encode_witness :
  exists dec,
    ZigZagDecode ([0; 1; 2; 3; 2 ^ 63 - 1] ++ [9]) 5 = Ok (dec ++ [9])
    /\ ZigZagEncode (dec ++ [9]) 5 = Ok ([0; 1; 2; 3; 2 ^ 63 - 1] ++ [9]).
Proof.
  destruct (ZigZag_decode_encode [0; 1; 2; 3; 2 ^ 63 - 1] [9]) as (dec & Hd & _ & He).
  - repeat (constructor; [lia|]). constructor.
  - exists dec. split; [exact Hd | exact He].
Defined.

(** ** Inputs of zeros *)

Lemma choose_zeros (n : nat) : choose (replicate n 0) = Some (0, 240, 0).
Proof.
  unfold choose, schemes. cbn [find fst snd].
  rewrite fitsb_true; [done|]. intros _. apply Forall_take, Forall_replicate. lia.
Qed.

Lemma enc_words_zeros (fuel : nat) : forall n : nat,
  (n <= fuel)%nat ->
  enc_words fuel (replicate n 0)
  = replicate (Z.to_nat ((Z.of_nat n + 239) / 240)) 0.
Proof.
  induction fuel as [|fuel IH]; intros n Hn.
  - replace n with 0%nat by lia. reflexivity.
  - destruct n as [|n]; [reflexivity|].
    rewrite (enc_words_cons fuel (replicate (S n) 0) 0 240 0);
      [| done | apply choose_zeros].
    change (enc_word 0 0 (take (Z.to_nat 240) (replicate (S n) 0))) with 0.
    rewrite drop_replicate, IH by lia.
    replace (Z.to_nat ((Z.of_nat (S n) + 239) / 240))
      with (S (Z.to_nat ((Z.of_nat (S n - Z.to_nat 240) + 239) / 240))); [done|].
    destruct (Nat.le_gt_cases 240 (S n)) as [Hge|Hlt].
    + replace (Z.of_nat (S n) + 239) with (Z.of_nat (S n - Z.to_nat 240) + 239 + 1 * 240)
        by lia.
      rewrite Z.div_add by lia.
      assert (0 <= (Z.of_nat (S n - Z.to_nat 240) + 239) / 240)
        by (apply Z.div_pos; lia).
      lia.
    + replace (S n - Z.to_nat 240)%nat with 0%nat by lia.
      change ((Z.of_nat 0 + 239) / 240) with 0.
      replace ((Z.of_nat (S n) + 239) / 240) with 1; [done|].
      apply Z.div_unique with (r := Z.of_nat (S n) - 1); lia.
Qed.

(** X15. An input of [n] zeros is coded in [ceil(n / 240)] words, all equal
    to 0 (selector 0): each word stands for 240 zeros, the last one for
    what is left. *)
Theorem Simple8bEncode_zeros (fuel n : nat) (ob : list Z) :
  Z.of_nat n < 2 ^ 64 ->
  (n <= length ob)%nat ->
  (n <= fuel)%nat ->
  let k := Z.to_nat ((Z.of_nat n + 239) / 240) in
  Simple8bEncode fuel (replicate n 0) (Z.of_nat n) ob
  = Ok (replicate k 0 ++ drop k ob, Z.of_nat k)
  /\ (k <= n <= 240 * k)%nat.
Proof.
  intros H64 Hcap Hfuel k.
  pose proof (Simple8bEncode_enc_words fuel (replicate n 0) ob) as H.
  rewrite length_replicate in H. rewrite H by done.
  rewrite enc_words_zeros by done. fold k. rewrite length_replicate.
  split; [done|].
  pose proof (enc_words_length n (replicate n 0)) as Hl.
  rewrite length_replicate, enc_words_zeros in Hl by done.
  fold k in Hl. rewrite length_replicate in Hl. by apply Hl.
Qed.

Lemma Simple8bEncode_zeros_witness :
  Simple8bEncode 500 (replicate 500 0) (Z.of_nat 500) (replicate 500 7)
  = Ok (replicate (Z.to_nat ((Z.of_nat 500 + 239) / 240)) 0
          ++ drop (Z.to_nat ((Z.of_nat 500 + 239) / 240)) (replicate 500 7),
        Z.of_nat (Z.to_nat ((Z.of_nat 500 + 239) / 240))).
Proof.
  destruct (Simple8bEncode_zeros 500 500 (replicate 500 7)) as [H _].
  - simpl; lia.
  - rewrite length_replicate; lia.
  - lia.
  - exact H.
Defined.

(** ** The layout of a word *)

Lemma fitsb_Forall (w : Z) (vs : list Z) :
  fitsb w vs = true -> w < 32 -> Forall (fun v => v < 2 ^ w) vs.
Proof.
  unfold fitsb. intros H Hw.
  replace (32 <=? w) with false in H by (symmetry; apply Z.leb_gt; lia).
  cbn [orb] in H. rewrite forallb_forall in H. apply List.Forall_forall.
  intros v Hv. apply Z.ltb_lt. by apply H.
Qed.

Lemma unpack_from_lookup (w x : Z) (n : nat) : forall (k0 : Z) (k : nat),
  (k < n)%nat -> unpack_from w x k0 n !! k = Some (unpack_at w x (k0 + Z.of_nat k)).
Proof.
  induction n as [|n IH]; intros k0 k Hk; [lia|].
  cbn [unpack_from]. destruct k as [|k].
  - cbn. do 2 f_equal. lia.
  - cbn [lookup list_lookup]. rewrite IH by lia. do 2 f_equal. lia.
Qed.

(** X16. The layout of a packed word.  For values below [2^60], the word an
    iteration writes at [out] is a 64-bit value whose top four bits are the
    selector of the scheme picked; value number [k] of the run occupies the
    [w] bits that start at bit [60 - w * (k + 1)]; the bits below the last
    value are zero. *)
Theorem word_layout (st st' : enc_state) :
  enc_valid st -> enc_iter st st' ->
  Forall (fun v => 0 <= v < 2 ^ 60) (input st) ->
  exists sel c w word : Z,
    choose (input st) = Some (sel, c, w)
    /\ outbuf st' !! Z.to_nat (out st) = Some word
    /\ is_u64 word
    /\ word / 2 ^ 60 = sel
    /\ (forall (k : nat) (v : Z),
          take (Z.to_nat c) (input st) !! k = Some v ->
          (word / 2 ^ (60 - w * (Z.of_nat k + 1))) mod 2 ^ w = v)
    /\ word mod 2 ^ (60 - w * NumberOfValuesCoded st') = 0.
Proof.
  intros Hv Hit Hx.
  destruct (enc_iter_first st st' Hv Hit) as (sel & c & w & Hch & [= ->]).
  destruct (choose_In _ _ _ _ Hch) as [Hin Hfit].
  pose proof (schemes_facts sel c w Hin) as Hsch.
  set (vs := take (Z.to_nat c) (input st)).
  assert (Hrange : Forall (fun v => 0 <= v < 2 ^ w) vs)
    by (apply (encoded_chunk_range _ sel c w Hin Hx); by apply fitsb_Forall).
  assert (Hlen : Z.of_nat (length vs) <= c) by (unfold vs; rewrite length_take; lia).
  destruct (enc_word_selector sel c w vs Hin Hrange Hlen) as [Hu Hsel].
  exists sel, c, w, (enc_word sel w vs).
  destruct Hv as (Hr & Hr64 & Ho & Hcap).
  assert (Hpos : 0 < ValuesRemaining st) by (destruct Hit as [[? _]|[? _]]; lia).
  split_and!; try done.
  - unfold enc_next. cbn [outbuf]. apply list_lookup_insert_eq. lia.
  - intros k v Hk. fold vs in Hk.
    pose proof (lookup_lt_Some _ _ _ Hk) as Hklt.
    pose proof (unpack_enc_word sel c w vs Hin Hrange Hlen) as Hun.
    pose proof (unpack_from_lookup w (enc_word sel w vs) (length vs) 0 k Hklt) as Hl.
    rewrite Hun, Hk in Hl. injection Hl as ->.
    assert (w * (Z.of_nat k + 1) <= w * Z.of_nat (length vs)) by nia.
    assert (w * Z.of_nat (length vs) <= 60) by nia.
    rewrite Z.add_0_l, unpack_at_digit by (try lia; nia).
    do 3 f_equal. lia.
  - unfold enc_next. cbn [NumberOfValuesCoded]. fold vs.
    rewrite (enc_word_form sel c w vs Hin Hrange Hlen).
    assert (w * Z.of_nat (length vs) <= 60) by nia.
    apply Z.mod_mul. apply Z.pow_nonzero; lia.
Qed.

Lemma word_layout_witness :
  exists sel c w word : Z,
    choose [1; 0; 1; 2 ^ 40; 7] = Some (sel, c, w)
    /\ word / 2 ^ 60 = sel
    /\ (forall (k : nat) (v : Z),
          take (Z.to_nat c) [1; 0; 1; 2 ^ 40; 7] !! k = Some v ->
          (word / 2 ^ (60 - w * (Z.of_nat k + 1))) mod 2 ^ w = v).
Proof.
  destruct (word_layout (enc_init [1; 0; 1; 2 ^ 40; 7] 5 [9; 9; 9; 9; 9])
              (enc_next 13 3 20 (enc_init [1; 0; 1; 2 ^ 40; 7] 5 [9; 9; 9; 9; 9])))
    as (sel & c & w & word & H1 & _ & _ & H2 & H3 & _).
  - unfold enc_valid. simpl. lia.
  - right. split; [simpl; lia|]. vm_compute. reflexivity.
  - simpl. repeat (constructor; [lia|]). constructor.
  - exists sel, c, w, word. split; [exact H1|]. split; [exact H2 | exact H3].
Defined.
